(** * Transclusion Toggler: wikilink scanning and toggling

    A shallow embedding of [src/main.ts] (the selection-aware revision of
    the plugin).  JavaScript strings are sequences of UTF-16 code units,
    numbers are the integers the editor hands out, the [RegExp] object is a
    small backtracking matcher threaded with its [lastIndex], and the host
    editor is a record of lines together with the list of [replaceRange]
    calls it has received. *)

From Stdlib Require Import Ascii String.
From stdpp Require Import base numbers option list.

Local Open Scope Z_scope.

(** ** JavaScript strings *)

Module JS.

(** A UTF-16 code unit. *)
Definition codeUnit := N.

(** A JavaScript string value. *)
Definition str := list codeUnit.

(** String literals with ASCII contents. *)
Fixpoint lit (s : string) : str :=
  match s with
  | EmptyString => []
  | String a s' => N_of_ascii a :: lit s'
  end.

(** [s.length] *)
Definition length (s : str) : Z := Z.of_nat (List.length s).

(** Clamp a number into [0, s.length]. *)
Definition clamp (s : str) (n : Z) : Z := Z.min (Z.max n 0) (length s).

(** [s.substring(a, b)]: both ends are clamped, then swapped when out of
    order. *)
Definition substring (s : str) (a b : Z) : str :=
  let a' := clamp s a in
  let b' := clamp s b in
  let from := Z.min a' b' in
  let to := Z.max a' b' in
  take (Z.to_nat (to - from)) (drop (Z.to_nat from) s).

(** [s.substring(a)] *)
Definition substringFrom (s : str) (a : Z) : str :=
  substring s a (length s).

(** A relative index of [slice]: negative counts from the end. *)
Definition relIndex (s : str) (n : Z) : Z :=
  if n <? 0 then Z.max (length s + n) 0 else Z.min n (length s).

(** [s.slice(a, b)] *)
Definition slice (s : str) (a b : Z) : str :=
  let from := relIndex s a in
  let to := relIndex s b in
  take (Z.to_nat (Z.max (to - from) 0)) (drop (Z.to_nat from) s).

(** [s.startsWith(p)] *)
Fixpoint startsWith (s p : str) : bool :=
  match p, s with
  | [], _ => true
  | c :: p', d :: s' => if N.eqb c d then startsWith s' p' else false
  | _ :: _, [] => false
  end.

(** [s.split(sep)] for a separator of one code unit. *)
Fixpoint split (s : str) (sep : codeUnit) : list str :=
  match s with
  | [] => [[]]
  | c :: s' =>
      if N.eqb c sep then [] :: split s' sep
      else match split s' sep with
           | l :: ls => (c :: l) :: ls
           | [] => [[c]]
           end
  end.

(** [lines.join(sep)] for a separator of one code unit. *)
Fixpoint join (lines : list str) (sep : codeUnit) : str :=
  match lines with
  | [] => []
  | [l] => l
  | l :: ls => l ++ sep :: join ls sep
  end.

(** [Number.MAX_SAFE_INTEGER] *)
Definition MAX_SAFE_INTEGER : Z := 2 ^ 53 - 1.

(** [a[i]] for an array and a number: [undefined] out of range. *)
Definition at_ {A} (a : list A) (i : Z) : option A :=
  if i <? 0 then None else a !! Z.to_nat i.

End JS.

Abbreviation str := JS.str.

Definition BANG : JS.codeUnit := 33%N.
Definition LBRACKET : JS.codeUnit := 91%N.
Definition RBRACKET : JS.codeUnit := 93%N.
Definition NEWLINE : JS.codeUnit := 10%N.

(** ** Regular expressions

    The fragment of the RegExp language the plugin uses: a sequence of
    single-character classes, each carrying a greedy quantifier.  Matching
    is by backtracking, as in the JavaScript specification. *)

Module RegExp.

Inductive charClass :=
| Lit (c : JS.codeUnit)      (* an escaped literal such as [\[] *)
| NotLit (c : JS.codeUnit).  (* a negated singleton class such as [[^\]]] *)

Inductive quantifier := One | Optional | OneOrMore.

Definition regex := list (quantifier * charClass).

Definition accepts (cls : charClass) (c : JS.codeUnit) : bool :=
  match cls with
  | Lit d => N.eqb c d
  | NotLit d => negb (N.eqb c d)
  end.

(** Matchers take the rest of the pattern as a continuation [k] and
    answer with the length of what they and [k] consumed.  [star cls k]
    is greedy: it tries one more code unit of [cls] first, and when
    that fails it falls back to [k] at the current position. *)
Fixpoint star (cls : charClass) (k : str -> option nat) (s : str)
  : option nat :=
  match s with
  | c :: s' =>
      if accepts cls c then
        match star cls k s' with
        | Some n => Some (S n)
        | None => k s
        end
      else k s
  | [] => k s
  end.

(** Exactly one code unit of [cls], then [k]. *)
Definition one (cls : charClass) (k : str -> option nat) (s : str)
  : option nat :=
  match s with
  | c :: s' => if accepts cls c then S <$> k s' else None
  | [] => None
  end.

(** [matchAt r s]: the length of the match of [r] anchored at the start of
    [s], if there is one. *)
Fixpoint matchAt (r : regex) (s : str) {struct r} : option nat :=
  match r with
  | [] => Some 0%nat
  | (q, cls) :: r' =>
      match q with
      | One => one cls (matchAt r') s
      | Optional =>
          match one cls (matchAt r') s with
          | Some n => Some n
          | None => matchAt r' s
          end
      | OneOrMore => one cls (star cls (matchAt r')) s
      end
  end.

(** Try every start position from [i] on, leftmost first. *)
Fixpoint search (r : regex) (s : str) (i : nat) : option (nat * nat) :=
  match matchAt r s with
  | Some n => Some (i, n)
  | None =>
      match s with
      | [] => None
      | _ :: s' => search r s' (S i)
      end
  end.

(** The match object: [match.index] and [match[0]]. *)
Record result := { index : nat; matched : str }.

(** [pattern.exec(line)] for a pattern with the [g] flag: the search
    starts at [lastIndex]; the new [lastIndex] is returned with the
    result, reset to 0 on failure. *)
Definition exec (r : regex) (line : str) (lastIndex : nat)
  : option result * nat :=
  if (List.length line <? lastIndex)%nat then (None, 0%nat)
  else
    match search r (drop lastIndex line) lastIndex with
    | Some (i, n) =>
        (Some {| index := i; matched := take n (drop i line) |}, (i + n)%nat)
    | None => (None, 0%nat)
    end.

End RegExp.

Import RegExp.

(** [/!?\[\[[^\]]+\]\]/g] *)
Definition wikiLinkPattern : regex :=
  [ (Optional, Lit BANG);
    (One, Lit LBRACKET); (One, Lit LBRACKET);
    (OneOrMore, NotLit RBRACKET);
    (One, Lit RBRACKET); (One, Lit RBRACKET) ].

(** ** Link data *)

Module WikiLink.
Record t := {
  fullText : str;
  hasTransclusion : bool;
  path : str;
  startLine : Z;
  startCh : Z;
  endCh : Z
}.
End WikiLink.

(** HELPER: Parse wikilink structure *)
Definition parseWikiLink (fullText : str) (startCh endCh : Z)
  : WikiLink.t :=
  let hasTransclusion := JS.startsWith fullText (JS.lit "!") in
  let path := JS.slice fullText (if hasTransclusion then 3 else 2) (-2) in
  {| WikiLink.fullText := fullText;
     WikiLink.hasTransclusion := hasTransclusion;
     WikiLink.path := path;
     WikiLink.startLine := 0;
     WikiLink.startCh := startCh;
     WikiLink.endCh := endCh |}.

(** CORE TRANSFORMER: Toggle the link *)
Definition toggleLink (link : WikiLink.t) : str :=
  if WikiLink.hasTransclusion link then
    JS.lit "[[" ++ WikiLink.path link ++ JS.lit "]]"
  else
    JS.lit "![[" ++ WikiLink.path link ++ JS.lit "]]".

(** The bounds of a match, as both scanners compute them. *)
Definition matchStart (m : RegExp.result) : Z := Z.of_nat (index m).
Definition matchEnd (m : RegExp.result) : Z :=
  Z.of_nat (index m) + JS.length (matched m).

(** HELPER: Find all links in a single line.  The [while] loop runs on
    fuel; [None] means the fuel ran out before [exec] returned [null]. *)
Fixpoint findAllLinksInLine_loop (fuel : nat) (line : str) (lastIndex : nat)
    (links : list WikiLink.t) : option (list WikiLink.t) :=
  match fuel with
  | O => None
  | S fuel' =>
      match exec wikiLinkPattern line lastIndex with
      | (Some m, lastIndex') =>
          let startCh := matchStart m in
          let endCh := matchEnd m in
          findAllLinksInLine_loop fuel' line lastIndex'
            (links ++ [parseWikiLink (matched m) startCh endCh])
      | (None, _) => Some links
      end
  end.

(** Every match consumes at least one code unit, so one more iteration than
    the line has code units is enough (see [findAllLinksInLine_loop_spec]). *)
Definition scanFuel (line : str) : nat := S (List.length line).

Definition findAllLinksInLine (line : str) : option (list WikiLink.t) :=
  findAllLinksInLine_loop (scanFuel line) line 0 [].

(** HELPER: Find link under cursor.  The outer [option] is the fuel, the
    inner one is [WikiLink | null]. *)
Fixpoint findLinkAtCursor_loop (fuel : nat) (line : str) (cursorCh : Z)
    (lastIndex : nat) : option (option WikiLink.t) :=
  match fuel with
  | O => None
  | S fuel' =>
      match exec wikiLinkPattern line lastIndex with
      | (Some m, lastIndex') =>
          let startCh := matchStart m in
          let endCh := matchEnd m in
          if (cursorCh >=? startCh) && (cursorCh <=? endCh) then
            Some (Some (parseWikiLink (matched m) startCh endCh))
          else findLinkAtCursor_loop fuel' line cursorCh lastIndex'
      | (None, _) => Some None
      end
  end.

Definition findLinkAtCursor (line : str) (cursorCh : Z)
  : option (option WikiLink.t) :=
  findLinkAtCursor_loop (scanFuel line) line cursorCh 0.

(** ** The host editor

    The editing surface is the plugin's collaborator, not its code.  The
    model keeps the document as its lines (none of which holds a line
    break), the two ends of the selection, and the [replaceRange] calls
    received so far, oldest first. *)

Module Pos.
Record t := { line : Z; ch : Z }.
End Pos.

(** One pending edit: [{ from, to, text }]. *)
Module Replacement.
Record t := { from : Pos.t; to : Pos.t; text : str }.
End Replacement.

Module Editor.

Record t := {
  doc : list str;
  anchor : Pos.t;
  head : Pos.t;
  calls : list Replacement.t
}.

(** The document invariant of the host: at least one line, and no line
    break inside a line. *)
Definition wf (e : t) : Prop :=
  doc e <> [] /\ Forall (fun l => NEWLINE ∉ l) (doc e).

(** [editor.getValue()] *)
Definition getValue (e : t) : str := JS.join (doc e) NEWLINE.

(** [editor.lastLine()] *)
Definition lastLine (e : t) : Z := Z.of_nat (List.length (doc e)) - 1.

(** [editor.getLine(n)]; the host only answers for lines of the
    document, elsewhere the model gives the empty string. *)
Definition getLine (e : t) (n : Z) : str := default [] (JS.at_ (doc e) n).

(** [editor.getCursor('anchor')], [editor.getCursor('head')] and
    [editor.getCursor()], which is the head. *)
Definition getCursorAnchor (e : t) : Pos.t := anchor e.
Definition getCursorHead (e : t) : Pos.t := head e.
Definition getCursor (e : t) : Pos.t := head e.

(** Order on positions: by line, then by character. *)
Definition posLeb (p q : Pos.t) : bool :=
  (Pos.line p <? Pos.line q) ||
  ((Pos.line p =? Pos.line q) && (Pos.ch p <=? Pos.ch q)).

(** The text between two positions, [p] not after [q]. *)
Definition getRange (e : t) (p q : Pos.t) : str :=
  if Pos.line p =? Pos.line q then
    JS.substring (getLine e (Pos.line p)) (Pos.ch p) (Pos.ch q)
  else
    JS.substringFrom (getLine e (Pos.line p)) (Pos.ch p)
    ++ NEWLINE ::
       JS.join
         (take (Z.to_nat (Pos.line q - Pos.line p - 1))
               (drop (S (Z.to_nat (Pos.line p))) (doc e))
          ++ [JS.substring (getLine e (Pos.line q)) 0 (Pos.ch q)])
         NEWLINE.

(** [editor.getSelection()] *)
Definition getSelection (e : t) : str :=
  if posLeb (anchor e) (head e) then getRange e (anchor e) (head e)
  else getRange e (head e) (anchor e).

(** [editor.replaceRange(text, from, to)]: the lines before [from] and
    after [to] stay; what is left of the first and last line of the range
    is glued around [text], and the result is cut at its line breaks. *)
Definition replaceRange (text : str) (from to : Pos.t) (e : t) : t :=
  let before := take (Z.to_nat (Pos.line from)) (doc e) in
  let after := drop (S (Z.to_nat (Pos.line to))) (doc e) in
  let first := JS.substring (getLine e (Pos.line from)) 0 (Pos.ch from) in
  let last := JS.substringFrom (getLine e (Pos.line to)) (Pos.ch to) in
  {| doc := before ++ JS.split (first ++ text ++ last) NEWLINE ++ after;
     anchor := anchor e;
     head := head e;
     calls :=
       calls e ++
       [{| Replacement.from := from; Replacement.to := to;
           Replacement.text := text |}] |}.

(** A buffer holding [s], with an empty selection at [p]. *)
Definition open (s : str) (p : Pos.t) : t :=
  {| doc := JS.split s NEWLINE; anchor := p; head := p; calls := [] |}.

(** A buffer holding [s], with a selection from [a] to [h]. *)
Definition select (s : str) (a h : Pos.t) : t :=
  {| doc := JS.split s NEWLINE; anchor := a; head := h; calls := [] |}.

End Editor.

(** ** Commands *)

(** The filter of [toggleLinksInSelection]: does [link], found on line
    [lineIndex], fall within the selection bounds? *)
Definition inSelection (startLine endLine startCh endCh lineIndex : Z)
    (link : WikiLink.t) : bool :=
  if (lineIndex =? startLine) && (lineIndex =? endLine) then
    (WikiLink.startCh link >=? startCh) && (WikiLink.endCh link <=? endCh)
  else if lineIndex =? startLine then
    WikiLink.startCh link >=? startCh
  else if lineIndex =? endLine then
    WikiLink.endCh link <=? endCh
  else true.

(** The body of [lines.forEach((line, lineIndex) => ...)] in
    [toggleLinksInSelection]: the replacements it pushes. *)
Definition selectionLine (startLine endLine startCh endCh : Z)
    (line : str) (lineIndex : Z) (replacements : list Replacement.t)
  : option (list Replacement.t) :=
  if (lineIndex <? startLine) || (lineIndex >? endLine) then
    Some replacements
  else
    links ← findAllLinksInLine line;
    let selectedLinks :=
      List.filter (inSelection startLine endLine startCh endCh lineIndex)
        links in
    Some (foldl
            (fun replacements link =>
               let toggled := toggleLink link in
               replacements ++
                 [{| Replacement.from :=
                       {| Pos.line := lineIndex;
                          Pos.ch := WikiLink.startCh link |};
                     Replacement.to :=
                       {| Pos.line := lineIndex;
                          Pos.ch := WikiLink.endCh link |};
                     Replacement.text := toggled |}])
            replacements (reverse selectedLinks)).

(** [lines.forEach(f)] for a callback that updates an accumulator and may
    run out of fuel. *)
Fixpoint forEachIndexed {A B} (f : A -> Z -> B -> option B) (l : list A)
    (i : Z) (acc : B) : option B :=
  match l with
  | [] => Some acc
  | x :: l' => acc' ← f x i acc; forEachIndexed f l' (i + 1) acc'
  end.

(** The normalised selection bounds [(startLine, endLine, startCh, endCh)]. *)
Definition selectionBounds (anchor head : Pos.t) : Z * Z * Z * Z :=
  let startLine := Z.min (Pos.line anchor) (Pos.line head) in
  let endLine := Z.max (Pos.line anchor) (Pos.line head) in
  let startCh :=
    if Pos.line anchor <? Pos.line head then Pos.ch anchor
    else Z.min (Pos.ch anchor) (Pos.ch head) in
  let endCh :=
    if Pos.line anchor <? Pos.line head then JS.MAX_SAFE_INTEGER
    else Z.max (Pos.ch anchor) (Pos.ch head) in
  (startLine, endLine, startCh, endCh).

(** The replacements [toggleLinksInSelection] collects before applying
    any. *)
Definition selectionReplacements (editor : Editor.t)
  : option (list Replacement.t) :=
  let anchor := Editor.getCursorAnchor editor in
  let head := Editor.getCursorHead editor in
  let '(startLine, endLine, startCh, endCh) := selectionBounds anchor head in
  let fullText := Editor.getValue editor in
  let lines := JS.split fullText NEWLINE in
  forEachIndexed (selectionLine startLine endLine startCh endCh) lines 0 [].

(** HELPER: Toggle all links within selection *)
Definition toggleLinksInSelection (editor : Editor.t) : option Editor.t :=
  replacements ← selectionReplacements editor;
  Some (foldl
          (fun editor replacement =>
             Editor.replaceRange (Replacement.text replacement)
               (Replacement.from replacement) (Replacement.to replacement)
               editor)
          editor replacements).

(** What [findNearestLink] returns: [{ line, link }]. *)
Module Nearest.
Record t := { line : Z; link : WikiLink.t }.
End Nearest.

(** The inner loop of the forward search, [for (const link of links)]. *)
Fixpoint forwardInLine (i cursorLine cursorCh : Z) (links : list WikiLink.t)
  : option Nearest.t :=
  match links with
  | [] => None
  | link :: rest =>
      if i =? cursorLine then
        if WikiLink.startCh link >=? cursorCh then
          Some {| Nearest.line := i; Nearest.link := link |}
        else forwardInLine i cursorLine cursorCh rest
      else Some {| Nearest.line := i; Nearest.link := link |}
  end.

(** The inner loop of the backward search,
    [for (let j = links.length - 1; j >= 0; j--)]; [j] counts the
    iterations left, the index visited is [j - 1]. *)
Fixpoint backwardInLine (i cursorLine cursorCh : Z) (links : list WikiLink.t)
    (j : nat) : option Nearest.t :=
  match j with
  | O => None
  | S j' =>
      match links !! j' with
      | None => backwardInLine i cursorLine cursorCh links j'
      | Some link =>
          if i =? cursorLine then
            if WikiLink.endCh link <=? cursorCh then
              Some {| Nearest.line := i; Nearest.link := link |}
            else backwardInLine i cursorLine cursorCh links j'
          else Some {| Nearest.line := i; Nearest.link := link |}
      end
  end.

(** [for (let i = cursorLine; i < lines.length; i++)], with [n] iterations
    left and [i] the current index. *)
Fixpoint forwardLoop (lines : list str) (cursorLine cursorCh : Z)
    (n : nat) (i : Z) : option (option Nearest.t) :=
  match n with
  | O => Some None
  | S n' =>
      match JS.at_ lines i with
      | None => forwardLoop lines cursorLine cursorCh n' (i + 1)
      | Some line =>
          links ← findAllLinksInLine line;
          match forwardInLine i cursorLine cursorCh links with
          | Some found => Some (Some found)
          | None => forwardLoop lines cursorLine cursorCh n' (i + 1)
          end
      end
  end.

(** [for (let i = cursorLine; i >= 0; i--)], with [n] iterations left. *)
Fixpoint backwardLoop (lines : list str) (cursorLine cursorCh : Z)
    (n : nat) (i : Z) : option (option Nearest.t) :=
  match n with
  | O => Some None
  | S n' =>
      match JS.at_ lines i with
      | None => backwardLoop lines cursorLine cursorCh n' (i - 1)
      | Some line =>
          links ← findAllLinksInLine line;
          match backwardInLine i cursorLine cursorCh links (List.length links) with
          | Some found => Some (Some found)
          | None => backwardLoop lines cursorLine cursorCh n' (i - 1)
          end
      end
  end.

(** HELPER: Find nearest wikilink from cursor *)
Definition findNearestLink (editor : Editor.t) (cursorLine cursorCh : Z)
  : option (option Nearest.t) :=
  let fullText := Editor.getValue editor in
  let lines := JS.split fullText NEWLINE in
  forward ← forwardLoop lines cursorLine cursorCh
              (Z.to_nat (Z.of_nat (List.length lines) - cursorLine))
              cursorLine;
  match forward with
  | Some found => Some (Some found)
  | None =>
      backwardLoop lines cursorLine cursorCh (Z.to_nat (cursorLine + 1))
        cursorLine
  end.

(** The callback of [lines.map] in [toggleAllLinks]: the matches are
    reversed, then spliced into [newLine] one after the other. *)
Definition toggleLine (line : str) : option str :=
  matches ← findAllLinksInLine line;
  Some (foldl
          (fun newLine link =>
             let toggled := toggleLink link in
             JS.substring newLine 0 (WikiLink.startCh link)
             ++ toggled
             ++ JS.substringFrom newLine (WikiLink.endCh link))
          line (reverse matches)).

(** CORE METHOD 2: Toggle all links in document *)
Definition toggleAllLinks (editor : Editor.t) : option Editor.t :=
  let fullText := Editor.getValue editor in
  let lines := JS.split fullText NEWLINE in
  newLines ← mapM toggleLine lines;
  let lastLine := Editor.lastLine editor in
  let lastCh := JS.length (Editor.getLine editor lastLine) in
  let modifiedText := JS.join newLines NEWLINE in
  Some (Editor.replaceRange modifiedText
          {| Pos.line := 0; Pos.ch := 0 |}
          {| Pos.line := lastLine; Pos.ch := lastCh |}
          editor).

(** CORE METHOD 1: Toggle with selection awareness *)
Definition toggleCurrentOrSelected (editor : Editor.t) : option Editor.t :=
  let selection := Editor.getSelection editor in
  if JS.length selection >? 0 then
    (* CASE 1: User has text selected *)
    toggleLinksInSelection editor
  else
    let cursor := Editor.getCursor editor in
    let line := Editor.getLine editor (Pos.line cursor) in
    link ← findLinkAtCursor line (Pos.ch cursor);
    match link with
    | Some link =>
        (* CASE 2: Cursor is on a wikilink *)
        let toggled := toggleLink link in
        Some (Editor.replaceRange toggled
                {| Pos.line := Pos.line cursor; Pos.ch := WikiLink.startCh link |}
                {| Pos.line := Pos.line cursor; Pos.ch := WikiLink.endCh link |}
                editor)
    | None =>
        (* CASE 3: Cursor not on link - find nearest wikilink *)
        nearestLink ← findNearestLink editor (Pos.line cursor) (Pos.ch cursor);
        match nearestLink with
        | Some nearestLink =>
            let toggled := toggleLink (Nearest.link nearestLink) in
            Some (Editor.replaceRange toggled
                    {| Pos.line := Nearest.line nearestLink;
                       Pos.ch := WikiLink.startCh (Nearest.link nearestLink) |}
                    {| Pos.line := Nearest.line nearestLink;
                       Pos.ch := WikiLink.endCh (Nearest.link nearestLink) |}
                    editor)
        | None => Some editor
        end
    end.

(** ** Vocabulary of the statements *)

(** The text of a link: the optional marker, the opening brackets, the
    path and the closing brackets. *)
Definition rawLink (marker : bool) (p : str) : str :=
  (if marker then [BANG] else [])
  ++ LBRACKET :: LBRACKET :: p ++ [RBRACKET; RBRACKET].

(** [link] is a token of [line]: its text has the shape of a link with a
    path of at least one code unit and no closing bracket in it, and it
    sits in [line] at [[startCh, endCh)]. *)
Record tokenOf (line : str) (link : WikiLink.t) : Prop := {
  tok_path_nonempty : WikiLink.path link <> [];
  tok_path_no_close : RBRACKET ∉ WikiLink.path link;
  tok_text :
    WikiLink.fullText link =
    rawLink (WikiLink.hasTransclusion link) (WikiLink.path link);
  tok_startLine : WikiLink.startLine link = 0;
  tok_start : 0 <= WikiLink.startCh link;
  tok_end :
    WikiLink.endCh link =
    WikiLink.startCh link + JS.length (WikiLink.fullText link);
  tok_occurs :
    exists before after,
      line = before ++ WikiLink.fullText link ++ after /\
      JS.length before = WikiLink.startCh link
}.

(** The ranges of [links] follow each other from offset [pos] on: each one
    is non-empty and starts at or after the end of the one before. *)
Fixpoint ascendingFrom (pos : Z) (links : list WikiLink.t) : Prop :=
  match links with
  | [] => True
  | link :: rest =>
      pos <= WikiLink.startCh link /\
      WikiLink.startCh link < WikiLink.endCh link /\
      ascendingFrom (WikiLink.endCh link) rest
  end.

(** The tokens of a line, once the scan is known to finish. *)
Definition linksOf (line : str) : list WikiLink.t :=
  default [] (findAllLinksInLine line).

(** The cursor-hit test of [findLinkAtCursor]. *)
Definition containsCursor (cursorCh : Z) (link : WikiLink.t) : bool :=
  (cursorCh >=? WikiLink.startCh link) && (cursorCh <=? WikiLink.endCh link).

(** The ranges of [links] are non-empty, pairwise disjoint and in strictly
    ascending order of [startCh]: a later token starts at or after the end
    of every earlier one. *)
Definition disjointAscending (links : list WikiLink.t) : Prop :=
  forall i j a b,
    (i < j)%nat -> links !! i = Some a -> links !! j = Some b ->
    WikiLink.startCh a < WikiLink.endCh a /\
    WikiLink.endCh a <= WikiLink.startCh b /\
    WikiLink.startCh a < WikiLink.startCh b /\
    WikiLink.startCh b < WikiLink.endCh b.

(** The boundary-inclusion property read literally: with the cursor on
    either boundary of a token of the line, [findLinkAtCursor] answers with
    that very token. *)
Definition boundaryReturnsThatToken : Prop :=
  forall line links link,
    findAllLinksInLine line = Some links ->
    link ∈ links ->
    findLinkAtCursor line (WikiLink.startCh link) = Some (Some link) /\
    findLinkAtCursor line (WikiLink.endCh link) = Some (Some link).

(** One step of the rewriting in [toggleAllLinks]: [link] replaced by its
    toggled form inside [newLine]. *)
Definition spliceOne (newLine : str) (link : WikiLink.t) : str :=
  JS.substring newLine 0 (WikiLink.startCh link)
  ++ toggleLink link
  ++ JS.substringFrom newLine (WikiLink.endCh link).

(** All of [links] replaced at once, every piece cut out of the original
    [line]: what lies between [pos] and the first token, that token
    toggled, and so on up to the end of the line. *)
Fixpoint spliceFrom (line : str) (pos : Z) (links : list WikiLink.t) : str :=
  match links with
  | [] => JS.substringFrom line pos
  | link :: rest =>
      JS.substring line pos (WikiLink.startCh link)
      ++ toggleLink link
      ++ spliceFrom line (WikiLink.endCh link) rest
  end.

(** A line with every one of its tokens toggled. *)
Definition toggledLine (line : str) : str :=
  spliceFrom line 0 (linksOf line).

(** The tokens of line [i] of [lines], each with its line; nothing when
    there is no such line. *)
Definition lineLinks (lines : list str) (i : Z) : list Nearest.t :=
  match JS.at_ lines i with
  | Some line =>
      map (fun link => {| Nearest.line := i; Nearest.link := link |})
        (linksOf line)
  | None => []
  end.

(** The tokens of the [n] lines from line [i] on, in reading order. *)
Fixpoint rangeLinks (lines : list str) (i : Z) (n : nat) : list Nearest.t :=
  match n with
  | O => []
  | S n' => lineLinks lines i ++ rangeLinks lines (i + 1) n'
  end.

(** The forward scan in the words of the design: on the cursor's line the
    first token with [startCh >= cursorCh]; if none, the first token of the
    lines after it. *)
Definition forwardScan (lines : list str) (cursorLine cursorCh : Z)
  : option Nearest.t :=
  match List.find
          (fun found => WikiLink.startCh (Nearest.link found) >=? cursorCh)
          (lineLinks lines cursorLine) with
  | Some found => Some found
  | None =>
      head (rangeLinks lines (cursorLine + 1)
              (Z.to_nat (Z.of_nat (length lines) - cursorLine - 1)))
  end.

(** The backward scan in the words of the design: on the cursor's line the
    last token with [endCh <= cursorCh]; if none, the last token of the
    lines before it. *)
Definition backwardScan (lines : list str) (cursorLine cursorCh : Z)
  : option Nearest.t :=
  match last
          (List.filter
             (fun found => WikiLink.endCh (Nearest.link found) <=? cursorCh)
             (lineLinks lines cursorLine)) with
  | Some found => Some found
  | None => last (rangeLinks lines 0 (Z.to_nat cursorLine))
  end.

(** Forward first; backward only when forward finds nothing. *)
Definition nearestScan (lines : list str) (cursorLine cursorCh : Z)
  : option Nearest.t :=
  match forwardScan lines cursorLine cursorCh with
  | Some found => Some found
  | None => backwardScan lines cursorLine cursorCh
  end.

(** No line of [lines] holds a token. *)
Definition noLinks (lines : list str) : Prop :=
  Forall (fun line => linksOf line = []) lines.

(** The replacement [toggleLinksInSelection] pushes for [link], found on
    line [lineIndex]. *)
Definition replacementOf (lineIndex : Z) (link : WikiLink.t) : Replacement.t :=
  {| Replacement.from :=
       {| Pos.line := lineIndex; Pos.ch := WikiLink.startCh link |};
     Replacement.to :=
       {| Pos.line := lineIndex; Pos.ch := WikiLink.endCh link |};
     Replacement.text := toggleLink link |}.

(** The tokens of [line], at index [lineIndex], that the selection
    covers. *)
Definition selectedLinks (startLine endLine startCh endCh : Z) (line : str)
    (lineIndex : Z) : list WikiLink.t :=
  if (lineIndex <? startLine) || (lineIndex >? endLine) then []
  else
    List.filter (inSelection startLine endLine startCh endCh lineIndex)
      (linksOf line).

(** The replacements for the lines [lines], the first of which has index
    [lineIndex]: line after line, and from the right within a line. *)
Fixpoint selectionPlan (startLine endLine startCh endCh : Z)
    (lines : list str) (lineIndex : Z) : list Replacement.t :=
  match lines with
  | [] => []
  | line :: rest =>
      map (replacementOf lineIndex)
        (reverse
           (selectedLinks startLine endLine startCh endCh line lineIndex))
      ++ selectionPlan startLine endLine startCh endCh rest (lineIndex + 1)
  end.

(** Replacements applied to the live buffer one after the other, as
    [replacements.forEach] does. *)
Definition applyAll (editor : Editor.t) (replacements : list Replacement.t)
  : Editor.t :=
  foldl
    (fun editor replacement =>
       Editor.replaceRange (Replacement.text replacement)
         (Replacement.from replacement) (Replacement.to replacement)
         editor)
    editor replacements.

(** The lines [lines], the first of which has index [lineIndex], each with
    the tokens the selection covers toggled at their original offsets. *)
Fixpoint splicedLines (startLine endLine startCh endCh : Z)
    (lines : list str) (lineIndex : Z) : list str :=
  match lines with
  | [] => []
  | line :: rest =>
      spliceFrom line 0
        (selectedLinks startLine endLine startCh endCh line lineIndex)
      :: splicedLines startLine endLine startCh endCh rest (lineIndex + 1)
  end.

(** [after] is [before] with, on every line, some of the tokens of that
    line toggled where they stand, and not a code unit changed outside
    them. *)
Definition onlyTokensToggled (before after : list str) : Prop :=
  length after = length before /\
  forall i line,
    before !! i = Some line ->
    exists targets,
      targets `sublist_of` linksOf line /\
      after !! i = Some (spliceFrom line 0 targets).

(** *** The first revision of the cursor command

    [toggleCurrentLink], the command bound to "toggle current" before the
    selection-aware one replaced it: the link under the cursor or
    nothing. *)
Definition toggleCurrentLink (editor : Editor.t) : option Editor.t :=
  let cursor := Editor.getCursor editor in
  let line := Editor.getLine editor (Pos.line cursor) in
  link ← findLinkAtCursor line (Pos.ch cursor);
  match link with
  | None => Some editor
  | Some link =>
      let toggled := toggleLink link in
      Some (Editor.replaceRange toggled
              {| Pos.line := Pos.line cursor; Pos.ch := WikiLink.startCh link |}
              {| Pos.line := Pos.line cursor; Pos.ch := WikiLink.endCh link |}
              editor)
  end.

(** The single-line test of the selection filter: the token lies wholly
    between the two offsets. *)
Definition fullyInside (lo hi : Z) (link : WikiLink.t) : bool :=
  (WikiLink.startCh link >=? lo) && (WikiLink.endCh link <=? hi).

(** The editor with the two ends of its selection exchanged. *)
Definition swapSelection (e : Editor.t) : Editor.t :=
  {| Editor.doc := Editor.doc e;
     Editor.anchor := Editor.head e;
     Editor.head := Editor.anchor e;
     Editor.calls := Editor.calls e |}.

(** By how many code units toggling changes the length: one more for each
    plain link, one less for each embed. *)
Definition lengthChange (links : list WikiLink.t) : Z :=
  foldr
    (fun link acc =>
       (if WikiLink.hasTransclusion link then -1 else 1) + acc)
    0 links.

(** Replacements in the order that keeps offsets good: a later one is on a
    later line, or on the same line wholly to the left. *)
Fixpoint rightToLeft (plan : list Replacement.t) : Prop :=
  match plan with
  | [] => True
  | r :: rest =>
      Forall
        (fun r' =>
           Pos.line (Replacement.from r) < Pos.line (Replacement.from r') \/
           (Pos.line (Replacement.from r') = Pos.line (Replacement.from r) /\
            Pos.ch (Replacement.to r') <= Pos.ch (Replacement.from r)))
        rest /\
      rightToLeft rest
  end.

(** A buffer of two lines, selected forward from its start to the middle
    of its last line. *)
Definition selectedFromStart : Editor.t :=
  Editor.select (JS.join [JS.lit "[[A]]"; JS.lit "![[B]] [[C]]"] NEWLINE)
    {| Pos.line := 0; Pos.ch := 0 |} {| Pos.line := 1; Pos.ch := 2 |}.

(** A line as the scan cuts it: stretches of other text, each followed by
    a link, and the text after the last link. *)
Module Segment.
Record t := { gap : str; marker : bool; path : str }.
End Segment.

Fixpoint render (segments : list Segment.t) (rest : str) : str :=
  match segments with
  | [] => rest
  | s :: more =>
      Segment.gap s
      ++ rawLink (Segment.marker s) (Segment.path s)
      ++ render more rest
  end.

(** The same stretch with the marker of its link flipped. *)
Definition flipped (s : Segment.t) : Segment.t :=
  {| Segment.gap := Segment.gap s;
     Segment.marker := negb (Segment.marker s);
     Segment.path := Segment.path s |}.

(** The tokens of the links of [segments], the first stretch starting at
    [offset]. *)
Fixpoint tokensAt (offset : nat) (segments : list Segment.t)
  : list WikiLink.t :=
  match segments with
  | [] => []
  | s :: more =>
      let text := rawLink (Segment.marker s) (Segment.path s) in
      let start := (offset + length (Segment.gap s))%nat in
      let stop := (start + length text)%nat in
      parseWikiLink text (Z.of_nat start) (Z.of_nat stop)
      :: tokensAt stop more
  end.

(** The cut is the one the scan makes: the pattern matches nowhere inside
    a stretch of other text (whatever follows it), nor in the text after
    the last link, and every path is one the pattern accepts. *)
Fixpoint scannedAs (segments : list Segment.t) (rest : str) : Prop :=
  match segments with
  | [] =>
      forall d, (d <= length rest)%nat ->
        matchAt wikiLinkPattern (drop d rest) = None
  | s :: more =>
      Segment.path s <> [] /\
      (RBRACKET ∉ Segment.path s) /\
      (forall d, (d < length (Segment.gap s))%nat ->
         matchAt wikiLinkPattern
           (drop d (Segment.gap s
                    ++ rawLink (Segment.marker s) (Segment.path s)
                    ++ render more rest)) = None) /\
      scannedAs more rest
  end.

(** No embed directly follows an opening bracket or an exclamation mark. *)
Definition clearBefore (s : Segment.t) : Prop :=
  Segment.marker s = true ->
  last (Segment.gap s) <> Some LBRACKET /\
  last (Segment.gap s) <> Some BANG.

(** The same on a line, told of its tokens: the code unit just before an
    embed, if there is one, is neither [[] nor [!]. *)
Definition embedsStandClear (line : str) (links : list WikiLink.t) : Prop :=
  Forall
    (fun link =>
       WikiLink.hasTransclusion link = true ->
       forall c,
         JS.at_ line (WikiLink.startCh link - 1) = Some c ->
         c <> LBRACKET /\ c <> BANG)
    links.

(** A buffer with a link and, after a space, an embed. *)
Definition linkThenEmbed : Editor.t :=
  Editor.open (JS.lit "a [[x]] ![[y|z]]") {| Pos.line := 0; Pos.ch := 0 |}.

(** The selection in the words of the design: the stretch of the buffer
    from the earlier to the later of its two end points. *)
Definition selectionFrom (e : Editor.t) : Pos.t :=
  if Editor.posLeb (Editor.anchor e) (Editor.head e)
  then Editor.anchor e else Editor.head e.

Definition selectionTo (e : Editor.t) : Pos.t :=
  if Editor.posLeb (Editor.anchor e) (Editor.head e)
  then Editor.head e else Editor.anchor e.

(** A token of line [lineIndex] lies in the selection when it starts at
    or after the earlier end point and ends at or before the later one. *)
Definition tokenInSelection (e : Editor.t) (lineIndex : Z)
    (link : WikiLink.t) : bool :=
  Editor.posLeb (selectionFrom e)
    {| Pos.line := lineIndex; Pos.ch := WikiLink.startCh link |}
  && Editor.posLeb
       {| Pos.line := lineIndex; Pos.ch := WikiLink.endCh link |}
       (selectionTo e).

(** The tokens of the buffer that lie in the selection, in reading
    order. *)
Definition selectionTokens (e : Editor.t) : list Nearest.t :=
  List.filter
    (fun found =>
       tokenInSelection e (Nearest.line found) (Nearest.link found))
    (rangeLinks (Editor.doc e) 0 (length (Editor.doc e))).

(** A selection dragged forward over two lines that ends before the only
    link of the buffer. *)
Definition selectedBeforeLink : Editor.t :=
  Editor.select (JS.join [JS.lit "x"; JS.lit "y [[C]]"] NEWLINE)
    {| Pos.line := 0; Pos.ch := 0 |} {| Pos.line := 1; Pos.ch := 1 |}.

(** A selection dragged backward over two lines that starts after the
    only link of the buffer. *)
Definition selectedAfterLink : Editor.t :=
  Editor.select (JS.join [JS.lit "ab [[A]]xxxx"; JS.lit "y"] NEWLINE)
    {| Pos.line := 1; Pos.ch := 1 |} {| Pos.line := 0; Pos.ch := 9 |}.

(** A selection inside one line, beside the only link of the buffer. *)
Definition selectedBesideLink : Editor.t :=
  Editor.select (JS.lit "ab [[A]] cd")
    {| Pos.line := 0; Pos.ch := 0 |} {| Pos.line := 0; Pos.ch := 2 |}.

(** ** Strings *)

Section Strings.

Implicit Types (s t : str) (c : JS.codeUnit).

Lemma JS_length_nonneg s : 0 <= JS.length s.
Proof. unfold JS.length. lia. Qed.

Lemma JS_length_app s t : JS.length (s ++ t) = JS.length s + JS.length t.
Proof. unfold JS.length. rewrite length_app. lia. Qed.

Lemma substring_spec s a b :
  0 <= a -> a <= b ->
  JS.substring s a b = take (Z.to_nat (b - a)) (drop (Z.to_nat a) s).
Proof.
  intros Ha Hab. unfold JS.substring, JS.clamp, JS.length.
  set (L := Z.of_nat (length s)).
  assert (HL : L = Z.of_nat (length s)) by done. clearbody L.
  destruct (decide (b <= L)) as [Hb|Hb].
  - replace (Z.min (Z.max a 0) L) with a by lia.
    replace (Z.min (Z.max b 0) L) with b by lia.
    replace (Z.max a b) with b by lia.
    replace (Z.min a b) with a by lia. done.
  - replace (Z.min (Z.max b 0) L) with L by lia.
    destruct (decide (a <= L)) as [Ha'|Ha'].
    + replace (Z.min (Z.max a 0) L) with a by lia.
      replace (Z.max a L) with L by lia.
      replace (Z.min a L) with a by lia.
      rewrite !take_ge; [done| |]; rewrite length_drop; lia.
    + replace (Z.min (Z.max a 0) L) with L by lia.
      rewrite Z.max_id, Z.min_id, Z.sub_diag.
      rewrite (drop_ge s (Z.to_nat a)) by lia. by rewrite take_nil.
Qed.

Lemma substring_take s b :
  0 <= b -> JS.substring s 0 b = take (Z.to_nat b) s.
Proof.
  intros Hb. rewrite substring_spec by lia. by rewrite Z.sub_0_r.
Qed.

Lemma substringFrom_drop s a :
  0 <= a -> JS.substringFrom s a = drop (Z.to_nat a) s.
Proof.
  intros Ha. unfold JS.substringFrom.
  destruct (decide (a <= JS.length s)) as [Hle|Hgt].
  - rewrite substring_spec by lia. apply take_ge.
    rewrite length_drop. unfold JS.length. lia.
  - unfold JS.substring, JS.clamp.
    pose proof (JS_length_nonneg s).
    replace (Z.min (Z.max a 0) (JS.length s)) with (JS.length s) by lia.
    replace (Z.min (Z.max (JS.length s) 0) (JS.length s))
      with (JS.length s) by lia.
    rewrite Z.max_id, Z.min_id, Z.sub_diag. unfold JS.length in *.
    rewrite (drop_ge s (Z.to_nat a)) by lia. done.
Qed.

End Strings.

(** ** Parsing and toggling *)

Section ParseToggle.

Implicit Types (p : str) (marker : bool).

Lemma rawLink_length marker p :
  length (rawLink marker p) =
  ((if marker then 1 else 0) + 2 + length p + 2)%nat.
Proof.
  unfold rawLink. destruct marker; simpl; rewrite length_app; simpl; lia.
Qed.

Lemma startsWith_rawLink marker p :
  JS.startsWith (rawLink marker p) (JS.lit "!") = marker.
Proof. by destruct marker. Qed.

Lemma slice_rawLink marker p :
  JS.slice (rawLink marker p) (if marker then 3 else 2) (-2) = p.
Proof.
  unfold JS.slice, JS.relIndex, JS.length. rewrite rawLink_length.
  replace (-2 <? 0) with true by done.
  destruct marker;
    change (3 <? 0) with false; change (2 <? 0) with false; cbv iota;
    match goal with
    | |- take ?n (drop ?m _) = _ =>
        replace n with (length p) by lia;
        first [replace m with 3%nat by lia | replace m with 2%nat by lia]
    end;
    unfold rawLink; simpl; rewrite ?drop_0; by rewrite take_app_length.
Qed.

Lemma parseWikiLink_rawLink marker p s e :
  parseWikiLink (rawLink marker p) s e =
  {| WikiLink.fullText := rawLink marker p;
     WikiLink.hasTransclusion := marker;
     WikiLink.path := p;
     WikiLink.startLine := 0;
     WikiLink.startCh := s;
     WikiLink.endCh := e |}.
Proof.
  unfold parseWikiLink. rewrite startsWith_rawLink, slice_rawLink. done.
Qed.

Lemma toggleLink_rawLink marker p s e :
  toggleLink (parseWikiLink (rawLink marker p) s e) = rawLink (negb marker) p.
Proof. rewrite parseWikiLink_rawLink. by destruct marker. Qed.

End ParseToggle.

(** ** The matcher on the wikilink pattern *)

Section Matcher.

Implicit Types (s rest p : str) (k : str -> option nat).

Lemma accepts_Lit c d : accepts (Lit d) c = true <-> c = d.
Proof. simpl. apply N.eqb_eq. Qed.

Lemma accepts_NotLit c d : accepts (NotLit d) c = true <-> c <> d.
Proof. simpl. rewrite negb_true_iff. apply N.eqb_neq. Qed.

Lemma one_inv cls k s n :
  one cls k s = Some n ->
  exists c s' m,
    s = c :: s' /\ accepts cls c = true /\ k s' = Some m /\ n = S m.
Proof.
  destruct s as [|c s']; simpl; [done|].
  destruct (accepts cls c) eqn:Hc; [|done].
  destruct (k s') as [m|] eqn:Hk; simpl; [|done].
  intros [= <-]. by exists c, s', m.
Qed.

(** What a successful [star] consumed: a run of accepted code units,
    followed by what the continuation matched. *)
Lemma star_inv cls k s n :
  star cls k s = Some n ->
  exists run rest m,
    s = run ++ rest /\
    Forall (fun c => accepts cls c = true) run /\
    k rest = Some m /\ n = (length run + m)%nat.
Proof.
  revert n. induction s as [|c s' IH]; intros n; simpl.
  - intros Hk. by exists [], [], n.
  - destruct (accepts cls c) eqn:Hc.
    + destruct (star cls k s') as [n'|] eqn:Hstar.
      * intros [= <-].
        destruct (IH n' eq_refl) as (run & rest & m & -> & Hrun & Hk & ->).
        exists (c :: run), rest, m. repeat split; auto.
      * intros Hk. by exists [], (c :: s'), n.
    + intros Hk. by exists [], (c :: s'), n.
Qed.

(** The greedy run stops at a code unit the class rejects. *)
Lemma star_run cls k run c rest m :
  Forall (fun c => accepts cls c = true) run ->
  accepts cls c = false ->
  k (c :: rest) = Some m ->
  star cls k (run ++ c :: rest) = Some (length run + m)%nat.
Proof.
  intros Hrun Hc Hk. induction Hrun as [|d run Hd _ IH]; simpl.
  - by rewrite Hc.
  - by rewrite Hd, IH.
Qed.

Lemma matchAt_wikiLink_inv s n :
  matchAt wikiLinkPattern s = Some n ->
  exists marker p rest,
    s = rawLink marker p ++ rest /\
    p <> [] /\ (RBRACKET ∉ p) /\ n = length (rawLink marker p).
Proof.
  assert (Htail : forall s n,
    matchAt (tail wikiLinkPattern) s = Some n ->
    exists p rest, s = rawLink false p ++ rest /\
      p <> [] /\ (RBRACKET ∉ p) /\ n = length (rawLink false p)).
  { clear. intros s n. simpl.
    intros (c1 & s1 & n1 & -> & Hc1%accepts_Lit & H1 & ->)%one_inv.
    apply one_inv in H1 as (c2 & s2 & n2 & -> & Hc2%accepts_Lit & H2 & ->).
    apply one_inv in H2 as (c3 & s3 & n3 & -> & Hc3%accepts_NotLit & H3 & ->).
    apply star_inv in H3 as (run & rest & m & -> & Hrun & H4 & ->).
    apply one_inv in H4 as (c4 & s4 & n4 & -> & Hc4%accepts_Lit & H4 & ->).
    apply one_inv in H4 as (c5 & s5 & n5 & -> & Hc5%accepts_Lit & H5 & ->).
    injection H5 as <-. subst.
    exists (c3 :: run), s5. split; [|split; [done|split]].
    - unfold rawLink. simpl. by rewrite <- app_assoc.
    - intros [Heq|Hin]%elem_of_cons; [done|].
      rewrite Forall_forall in Hrun. apply Hrun in Hin.
      by apply accepts_NotLit in Hin.
    - unfold rawLink. simpl. rewrite length_app. simpl. lia. }
  unfold wikiLinkPattern. simpl matchAt.
  destruct (one (Lit BANG) _ s) as [n'|] eqn:Hbang.
  - intros [= <-].
    apply one_inv in Hbang as (c & s' & m & -> & Hc%accepts_Lit & Hm & ->).
    apply (Htail s' m) in Hm as (p & rest & -> & Hp & Hclose & ->).
    exists true, p, rest. subst c. repeat split; auto.
  - intros Hm. apply (Htail s n) in Hm as (p & rest & -> & Hp & Hclose & ->).
    by exists false, p, rest.
Qed.

Lemma matchAt_wikiLink_intro marker p rest :
  p <> [] -> RBRACKET ∉ p ->
  matchAt wikiLinkPattern (rawLink marker p ++ rest) =
  Some (length (rawLink marker p)).
Proof.
  intros Hp Hclose.
  assert (Htail :
    matchAt (tail wikiLinkPattern) (rawLink false p ++ rest) =
    Some (length (rawLink false p))).
  { destruct p as [|c p]; [done|].
    apply not_elem_of_cons in Hclose as [Hc Hclose].
    unfold rawLink. simpl. rewrite <- app_assoc. simpl.
    replace (N.eqb c RBRACKET) with false
      by (symmetry; by apply N.eqb_neq).
    simpl.
    erewrite star_run; [| |done|done].
    - simpl. rewrite length_app. simpl. repeat f_equal; lia.
    - apply Forall_forall. intros d Hd. apply accepts_NotLit.
      by intros ->. }
  assert (Hopt : forall s,
    matchAt wikiLinkPattern s =
    match one (Lit BANG) (matchAt (tail wikiLinkPattern)) s with
    | Some n => Some n
    | None => matchAt (tail wikiLinkPattern) s
    end) by done.
  rewrite Hopt. destruct marker.
  - change (rawLink true p ++ rest) with (BANG :: (rawLink false p ++ rest)).
    unfold one. change (accepts (Lit BANG) BANG) with true. cbv iota.
    rewrite Htail. done.
  - change (rawLink false p ++ rest)
      with (LBRACKET :: (LBRACKET :: p ++ [RBRACKET; RBRACKET]) ++ rest)
      at 1.
    unfold one at 1. change (accepts (Lit BANG) LBRACKET) with false.
    cbv iota. apply Htail.
Qed.

End Matcher.

(** ** [exec] on the wikilink pattern *)

Section Exec.

Implicit Types (line s : str) (m : RegExp.result).

Lemma search_inv r s i j n :
  search r s i = Some (j, n) ->
  exists d, j = (i + d)%nat /\ (d <= length s)%nat /\
            matchAt r (drop d s) = Some n.
Proof.
  revert i. induction s as [|c s' IH]; intros i; simpl.
  - destruct (matchAt r []) as [n'|] eqn:Hm; [|done].
    intros [= <- <-]. exists 0%nat. split; [lia|]. split; [lia|done].
  - destruct (matchAt r (c :: s')) as [n'|] eqn:Hm.
    + intros [= <- <-]. exists 0%nat. split; [lia|]. split; [lia|done].
    + intros (d & -> & Hd & Hmatch)%IH.
      exists (S d). split; [lia|]. split; [lia|done].
Qed.

(** A successful [exec] from [lastIndex]: the match is a link text
    sitting in [line] at or after [lastIndex], and the new [lastIndex] is
    its end. *)
Lemma exec_Some line lastIndex m lastIndex' :
  exec wikiLinkPattern line lastIndex = (Some m, lastIndex') ->
  exists marker p before after,
    line = before ++ rawLink marker p ++ after /\
    length before = index m /\
    matched m = rawLink marker p /\
    p <> [] /\ (RBRACKET ∉ p) /\
    (lastIndex <= index m)%nat /\
    lastIndex' = (index m + length (matched m))%nat.
Proof.
  unfold exec. destruct (length line <? lastIndex)%nat eqn:Hlen; [done|].
  apply Nat.ltb_ge in Hlen.
  destruct (search _ _ _) as [[j n]|] eqn:Hsearch; [|done].
  intros [= <- <-]. simpl.
  apply search_inv in Hsearch as (d & -> & Hd & Hmatch).
  rewrite length_drop in Hd. rewrite drop_drop in Hmatch.
  apply matchAt_wikiLink_inv in Hmatch
    as (marker & p & rest & Hdrop & Hp & Hclose & ->).
  exists marker, p, (take (lastIndex + d) line), rest.
  rewrite Hdrop, take_app_length.
  split; [by rewrite <- Hdrop, take_drop|].
  split; [rewrite length_take; lia|]. repeat split; auto. lia.
Qed.

Lemma exec_progress line lastIndex m lastIndex' :
  exec wikiLinkPattern line lastIndex = (Some m, lastIndex') ->
  (lastIndex < lastIndex' <= length line)%nat.
Proof.
  intros (marker & p & before & after & -> & Hb & Hm & _ & _ & Hle & ->)
    %exec_Some.
  rewrite Hm, !length_app, rawLink_length. destruct marker; lia.
Qed.

(** The token the scanners build from a match. *)
Lemma exec_token line lastIndex m lastIndex' :
  exec wikiLinkPattern line lastIndex = (Some m, lastIndex') ->
  let link := parseWikiLink (matched m) (matchStart m) (matchEnd m) in
  tokenOf line link /\
  Z.of_nat lastIndex <= WikiLink.startCh link /\
  WikiLink.startCh link < WikiLink.endCh link /\
  WikiLink.endCh link = Z.of_nat lastIndex'.
Proof.
  intros (marker & p & before & after & -> & Hb & Hm & Hp & Hclose & Hle & ->)
    %exec_Some.
  unfold matchStart, matchEnd, JS.length. rewrite Hm.
  rewrite parseWikiLink_rawLink. simpl. split; [|split; [lia|split]].
  - split; simpl; auto; try (unfold JS.length; lia).
    exists before, after. split; [done|]. unfold JS.length. lia.
  - rewrite rawLink_length. destruct marker; lia.
  - lia.
Qed.

End Exec.

(** ** The scanning loops *)

Section Scan.

Implicit Types (line : str) (links : list WikiLink.t).

Lemma findAllLinksInLine_loop_acc fuel line lastIndex links :
  findAllLinksInLine_loop fuel line lastIndex links =
  (links ++.) <$> findAllLinksInLine_loop fuel line lastIndex [].
Proof.
  revert lastIndex links. induction fuel as [|fuel IH]; intros i links.
  - done.
  - simpl. destruct (exec wikiLinkPattern line i) as [[m|] i'].
    + rewrite IH. rewrite (IH i' [_]).
      destruct (findAllLinksInLine_loop fuel line i' []) as [found|]; simpl.
      * by rewrite <- app_assoc.
      * done.
    + simpl. by rewrite app_nil_r.
Qed.

(** One turn of the [while] loop, with the pushed token in front. *)
Lemma findAllLinksInLine_loop_step fuel line lastIndex :
  findAllLinksInLine_loop (S fuel) line lastIndex [] =
  match exec wikiLinkPattern line lastIndex with
  | (Some m, lastIndex') =>
      (parseWikiLink (matched m) (matchStart m) (matchEnd m) ::.)
      <$> findAllLinksInLine_loop fuel line lastIndex' []
  | (None, _) => Some []
  end.
Proof.
  simpl. destruct (exec wikiLinkPattern line lastIndex) as [[m|] i']; [|done].
  by rewrite findAllLinksInLine_loop_acc.
Qed.

(** With more fuel than code units left, the loop finishes, and what it
    collects are tokens of the line in ascending order. *)
Lemma findAllLinksInLine_loop_spec fuel line lastIndex :
  (lastIndex <= length line)%nat ->
  (length line - lastIndex < fuel)%nat ->
  exists links,
    findAllLinksInLine_loop fuel line lastIndex [] = Some links /\
    Forall (tokenOf line) links /\
    ascendingFrom (Z.of_nat lastIndex) links.
Proof.
  revert lastIndex. induction fuel as [|fuel IH]; intros i Hi Hfuel; [lia|].
  rewrite findAllLinksInLine_loop_step.
  destruct (exec wikiLinkPattern line i) as [[m|] i'] eqn:Hexec.
  - pose proof (exec_progress _ _ _ _ Hexec) as Hprog.
    pose proof (exec_token _ _ _ _ Hexec) as (Htok & Hstart & Hne & Hend).
    destruct (IH i') as (links & -> & Htoks & Hasc); [lia|lia|].
    eexists. split; [done|]. split; [by constructor|].
    cbn [ascendingFrom]. rewrite Hend at 2. auto.
  - exists []. by repeat split.
Qed.

Lemma findAllLinksInLine_loop_mono fuel fuel' line lastIndex links found :
  (fuel <= fuel')%nat ->
  findAllLinksInLine_loop fuel line lastIndex links = Some found ->
  findAllLinksInLine_loop fuel' line lastIndex links = Some found.
Proof.
  revert fuel' lastIndex links.
  induction fuel as [|fuel IH]; intros fuel' i links Hle; [done|].
  destruct fuel' as [|fuel']; [lia|]. simpl.
  destruct (exec wikiLinkPattern line i) as [[m|] i']; [|done].
  apply IH. lia.
Qed.

Lemma findAllLinksInLine_linksOf line :
  findAllLinksInLine line = Some (linksOf line).
Proof.
  unfold linksOf.
  destruct (findAllLinksInLine_loop_spec (scanFuel line) line 0)
    as (links & Heq & _); [lia|unfold scanFuel; lia|].
  unfold findAllLinksInLine. by rewrite Heq.
Qed.

Lemma linksOf_tokens line : Forall (tokenOf line) (linksOf line).
Proof.
  destruct (findAllLinksInLine_loop_spec (scanFuel line) line 0)
    as (links & Heq & Htoks & _); [lia|unfold scanFuel; lia|].
  unfold linksOf, findAllLinksInLine. by rewrite Heq.
Qed.

Lemma linksOf_ascending line : ascendingFrom 0 (linksOf line).
Proof.
  destruct (findAllLinksInLine_loop_spec (scanFuel line) line 0)
    as (links & Heq & _ & Hasc); [lia|unfold scanFuel; lia|].
  unfold linksOf, findAllLinksInLine. by rewrite Heq.
Qed.

(** The cursor scan stops at the first token of the full scan that
    contains the cursor. *)
Lemma findLinkAtCursor_loop_find fuel line cursorCh lastIndex links :
  findAllLinksInLine_loop fuel line lastIndex [] = Some links ->
  findLinkAtCursor_loop fuel line cursorCh lastIndex =
  Some (List.find (containsCursor cursorCh) links).
Proof.
  revert lastIndex links. induction fuel as [|fuel IH]; intros i links; [done|].
  rewrite findAllLinksInLine_loop_step. simpl.
  destruct (exec wikiLinkPattern line i) as [[m|] i'].
  - destruct (findAllLinksInLine_loop fuel line i' []) as [rest|] eqn:Hrest;
      [|done].
    intros [= <-]. simpl. unfold containsCursor at 1. simpl.
    destruct (_ && _); [done|]. by apply IH.
  - by intros [= <-].
Qed.

Lemma findLinkAtCursor_find line cursorCh :
  findLinkAtCursor line cursorCh =
  Some (List.find (containsCursor cursorCh) (linksOf line)).
Proof.
  apply findLinkAtCursor_loop_find. apply findAllLinksInLine_linksOf.
Qed.

End Scan.

(** ** Order of the tokens of a line *)

Section Ascending.

Implicit Types (links : list WikiLink.t) (link : WikiLink.t).

Lemma ascendingFrom_weaken pos pos' links :
  pos' <= pos -> ascendingFrom pos links -> ascendingFrom pos' links.
Proof. destruct links; simpl; [done|]. intros ? (? & ? & ?). auto with lia. Qed.

Lemma ascendingFrom_Forall pos links :
  ascendingFrom pos links ->
  Forall (fun l => pos <= WikiLink.startCh l /\
                   WikiLink.startCh l < WikiLink.endCh l) links.
Proof.
  revert pos. induction links as [|l links IH]; intros pos; simpl; [done|].
  intros (Hpos & Hne & Hrest). constructor; [done|].
  eapply Forall_impl; [by apply IH|]. simpl. intros; lia.
Qed.

(** Everything before a token ends at or before its start. *)
Lemma ascendingFrom_split pos before link after :
  ascendingFrom pos (before ++ link :: after) ->
  Forall (fun l => WikiLink.startCh l < WikiLink.endCh l /\
                   WikiLink.endCh l <= WikiLink.startCh link) before /\
  WikiLink.startCh link < WikiLink.endCh link /\
  ascendingFrom (WikiLink.endCh link) after.
Proof.
  revert pos. induction before as [|l before IH]; intros pos; simpl.
  - intros (_ & Hne & Hrest). auto.
  - intros (Hpos & Hne & Hrest).
    destruct (IH _ Hrest) as (Hbefore & Hlink & Hafter).
    split; [|done]. constructor.
    + split; [done|].
      apply ascendingFrom_Forall in Hrest.
      apply Forall_app in Hrest as [_ Hrest].
      apply Forall_cons in Hrest as [? _]. lia.
    + done.
Qed.

Lemma ascendingFrom_disjoint pos links :
  ascendingFrom pos links -> disjointAscending links.
Proof.
  intros Hasc i j a b Hij Ha Hb.
  apply take_drop_middle in Hb.
  assert (Ha' : take j links !! i = Some a)
    by (rewrite lookup_take_lt; [done|lia]).
  rewrite <- Hb in Hasc.
  apply ascendingFrom_split in Hasc as (Hbefore & Hne & _).
  rewrite Forall_forall in Hbefore.
  apply list_elem_of_lookup_2 in Ha'. apply Hbefore in Ha'. lia.
Qed.

Lemma find_first {A} (f : A -> bool) before x after :
  Forall (fun a => f a = false) before -> f x = true ->
  List.find f (before ++ x :: after) = Some x.
Proof.
  intros Hbefore Hx. induction Hbefore as [|a before Ha _ IH]; simpl.
  - by rewrite Hx.
  - by rewrite Ha.
Qed.

End Ascending.

(** ** Properties of the line scanners *)

(** C6: for every line, [findAllLinksInLine] finishes, and the tokens it
    returns lie inside the line with non-empty, pairwise non-overlapping
    ranges in strictly ascending order of [startCh]. *)
Theorem findAllLinksInLine_disjoint_ascending (line : str) :
  exists links,
    findAllLinksInLine line = Some links /\
    Forall (fun l => 0 <= WikiLink.startCh l /\
                     WikiLink.startCh l < WikiLink.endCh l /\
                     WikiLink.endCh l <= JS.length line) links /\
    disjointAscending links.
Proof.
  exists (linksOf line). split; [apply findAllLinksInLine_linksOf|]. split.
  - pose proof (linksOf_tokens line) as Htoks.
    pose proof (ascendingFrom_Forall _ _ (linksOf_ascending line)) as Hasc.
    rewrite Forall_forall in *. intros l Hl.
    destruct (Htoks l Hl) as [_ _ _ _ Hstart Hend (before & after & Hline & Hlen)].
    destruct (Hasc l Hl) as [_ Hne]. split; [done|]. split; [done|].
    assert (JS.length line =
            JS.length before + JS.length (WikiLink.fullText l)
            + JS.length after) as ->
      by (rewrite Hline at 1; rewrite !JS_length_app; lia).
    pose proof (JS_length_nonneg after). lia.
  - eapply ascendingFrom_disjoint, linksOf_ascending.
Qed.

Lemma findAllLinksInLine_disjoint_ascending_witness :
  exists links,
    findAllLinksInLine (JS.lit "[[A]]![[B]] [[C|c]]") = Some links /\
    Forall (fun l => 0 <= WikiLink.startCh l /\
                     WikiLink.startCh l < WikiLink.endCh l /\
                     WikiLink.endCh l <= 19) links /\
    disjointAscending links.
Proof.
  exact (findAllLinksInLine_disjoint_ascending (JS.lit "[[A]]![[B]] [[C|c]]")).
Defined.

Section Tokens.

Implicit Types (line : str) (link : WikiLink.t).

Lemma toggleLink_raw link :
  toggleLink link =
  rawLink (negb (WikiLink.hasTransclusion link)) (WikiLink.path link).
Proof. unfold toggleLink. by destruct (WikiLink.hasTransclusion link). Qed.

Lemma tokenOf_bounds line link :
  tokenOf line link ->
  0 <= WikiLink.startCh link /\
  WikiLink.startCh link + 5 <= WikiLink.endCh link /\
  WikiLink.endCh link <= JS.length line.
Proof.
  intros [Hp _ Htext _ Hstart Hend (before & after & Hline & Hlen)].
  assert (JS.length line =
          JS.length before + JS.length (WikiLink.fullText link)
          + JS.length after) as ->
    by (rewrite Hline at 1; rewrite !JS_length_app; lia).
  pose proof (JS_length_nonneg after).
  assert (5 <= JS.length (WikiLink.fullText link)).
  { rewrite Htext. unfold JS.length. rewrite rawLink_length.
    destruct (WikiLink.path link); [done|]. simpl. lia. }
  lia.
Qed.

(** The line around a token, cut at the token's offsets. *)
Lemma tokenOf_cut line link :
  tokenOf line link ->
  line = take (Z.to_nat (WikiLink.startCh link)) line
         ++ WikiLink.fullText link
         ++ drop (Z.to_nat (WikiLink.endCh link)) line.
Proof.
  intros [_ _ _ _ Hstart Hend (before & after & Hline & Hlen)].
  unfold JS.length in *.
  replace (Z.to_nat (WikiLink.startCh link)) with (length before) by lia.
  replace (Z.to_nat (WikiLink.endCh link))
    with (length before + length (WikiLink.fullText link))%nat by lia.
  rewrite Hline at 2 3.
  rewrite take_app_length, drop_app_add, drop_app_length. done.
Qed.

End Tokens.

(** C7, as stated, fails: in [[[A]][[B]]] the cursor at offset 5 is the
    start of the second token, and the scan answers with the first. *)
Lemma boundaryReturnsThatToken_adjacent : ~ boundaryReturnsThatToken.
Proof.
  intros Hclaim.
  destruct (Hclaim (JS.lit "[[A]][[B]]")
              [parseWikiLink (JS.lit "[[A]]") 0 5;
               parseWikiLink (JS.lit "[[B]]") 5 10]
              (parseWikiLink (JS.lit "[[B]]") 5 10)) as [Hstart _].
  - by vm_compute.
  - apply elem_of_cons. right. apply elem_of_cons. by left.
  - vm_compute in Hstart. discriminate Hstart.
Qed.

(** C7, amended: the cursor-hit test is the closed interval
    [startCh <= cursorCh <= endCh], and [findLinkAtCursor] answers with the
    first token of the line that passes it.  So the cursor on a token's
    [endCh] gives that token; the cursor on its [startCh] gives that token
    unless an earlier token ends at that very offset, and then it gives the
    earlier one. *)
Theorem findLinkAtCursor_closed_interval (line : str)
    (links : list WikiLink.t) (link : WikiLink.t) :
  findAllLinksInLine line = Some links ->
  link ∈ links ->
  (forall cursorCh,
     findLinkAtCursor line cursorCh =
     Some (List.find (containsCursor cursorCh) links)) /\
  containsCursor (WikiLink.startCh link) link = true /\
  containsCursor (WikiLink.endCh link) link = true /\
  findLinkAtCursor line (WikiLink.endCh link) = Some (Some link) /\
  ((forall prev, prev ∈ links ->
      WikiLink.endCh prev <> WikiLink.startCh link) ->
   findLinkAtCursor line (WikiLink.startCh link) = Some (Some link)) /\
  (forall prev, prev ∈ links ->
     WikiLink.endCh prev = WikiLink.startCh link ->
     findLinkAtCursor line (WikiLink.startCh link) = Some (Some prev)).
Proof.
  intros Hscan Hin.
  assert (links = linksOf line) as ->
    by (rewrite findAllLinksInLine_linksOf in Hscan; congruence).
  pose proof (linksOf_ascending line) as Hasc.
  assert (Hfirst : forall l cursorCh,
    l ∈ linksOf line ->
    WikiLink.startCh l < cursorCh <= WikiLink.endCh l ->
    findLinkAtCursor line cursorCh = Some (Some l)).
  { intros l c (before & after & Heq)%list_elem_of_split Hc.
    rewrite findLinkAtCursor_find. f_equal. rewrite Heq in Hasc |- *.
    apply ascendingFrom_split in Hasc as (Hbefore & Hne & _).
    apply find_first.
    - eapply Forall_impl; [exact Hbefore|]. simpl. intros a [Ha1 Ha2].
      unfold containsCursor. apply andb_false_iff. right. lia.
    - unfold containsCursor. apply andb_true_iff. lia. }
  apply list_elem_of_split in Hin as Hsplit.
  destruct Hsplit as (before & after & Heq).
  pose proof Hasc as Hasc'. rewrite Heq in Hasc'.
  apply ascendingFrom_split in Hasc' as (Hbefore & Hne & _).
  split; [intros c; apply findLinkAtCursor_find|].
  split; [unfold containsCursor; apply andb_true_iff; lia|].
  split; [unfold containsCursor; apply andb_true_iff; lia|].
  split; [apply Hfirst; [done|lia]|]. split.
  - intros Hnone. rewrite findLinkAtCursor_find. f_equal. rewrite Heq.
    apply find_first.
    + rewrite Forall_forall in Hbefore |- *. intros a Ha.
      destruct (Hbefore a Ha) as [Ha1 Ha2].
      assert (WikiLink.endCh a <> WikiLink.startCh link).
      { apply Hnone. rewrite Heq. apply elem_of_app. by left. }
      unfold containsCursor. apply andb_false_iff. right. lia.
    + unfold containsCursor. apply andb_true_iff. lia.
  - intros prev Hprev Hend. apply Hfirst; [done|].
    apply list_elem_of_split in Hprev as (before' & after' & Heq').
    rewrite Heq' in Hasc.
    apply ascendingFrom_split in Hasc as (_ & Hne' & _). lia.
Qed.

Lemma findLinkAtCursor_closed_interval_witness :
  findLinkAtCursor (JS.lit "[[A]][[B]]") 10 =
    Some (Some (parseWikiLink (JS.lit "[[B]]") 5 10)) /\
  findLinkAtCursor (JS.lit "[[A]][[B]]") 5 =
    Some (Some (parseWikiLink (JS.lit "[[A]]") 0 5)).
Proof.
  pose proof (findLinkAtCursor_closed_interval (JS.lit "[[A]][[B]]")
    [parseWikiLink (JS.lit "[[A]]") 0 5; parseWikiLink (JS.lit "[[B]]") 5 10]
    (parseWikiLink (JS.lit "[[B]]") 5 10)) as H.
  destruct H as (_ & _ & _ & Hend & _ & Hprev).
  - vm_compute. reflexivity.
  - apply elem_of_cons. right. apply elem_of_cons. left. reflexivity.
  - split; [exact Hend|].
    apply (Hprev (parseWikiLink (JS.lit "[[A]]") 0 5)).
    + apply elem_of_cons. left. reflexivity.
    + vm_compute. reflexivity.
Defined.

(** ** Splitting and joining lines *)

Section Lines.

Variable sep : JS.codeUnit.

Implicit Types (s l : str) (ls : list str).

Lemma split_nonempty s : JS.split s sep <> [].
Proof.
  destruct s as [|c s]; simpl; [done|].
  destruct (N.eqb c sep); [done|]. by destruct (JS.split s sep).
Qed.

Lemma split_no_sep s : Forall (fun l => sep ∉ l) (JS.split s sep).
Proof.
  induction s as [|c s IH]; simpl.
  - constructor; [|done]. apply not_elem_of_nil.
  - destruct (N.eqb c sep) eqn:Hc.
    + constructor; [apply not_elem_of_nil|done].
    + apply N.eqb_neq in Hc.
      destruct (JS.split s sep) as [|l ls].
      * constructor; [|done]. apply not_elem_of_cons. split; [done|].
        apply not_elem_of_nil.
      * apply Forall_cons in IH as [Hl Hls]. constructor; [|done].
        apply not_elem_of_cons. auto.
Qed.

Lemma split_app_sep l s :
  sep ∉ l -> JS.split (l ++ sep :: s) sep = l :: JS.split s sep.
Proof.
  induction l as [|c l IH]; simpl; intros Hl.
  - by rewrite N.eqb_refl.
  - apply not_elem_of_cons in Hl as [Hc Hl].
    replace (N.eqb c sep) with false
      by (symmetry; apply N.eqb_neq; congruence).
    by rewrite (IH Hl).
Qed.

Lemma split_single l : sep ∉ l -> JS.split l sep = [l].
Proof.
  induction l as [|c l IH]; simpl; intros Hl; [done|].
  apply not_elem_of_cons in Hl as [Hc Hl].
  replace (N.eqb c sep) with false
    by (symmetry; apply N.eqb_neq; congruence).
  by rewrite (IH Hl).
Qed.

Lemma split_join ls :
  ls <> [] -> Forall (fun l => sep ∉ l) ls ->
  JS.split (JS.join ls sep) sep = ls.
Proof.
  intros Hne Hls. induction Hls as [|l ls Hl Hls IH]; [done|].
  destruct ls as [|l' ls].
  - simpl. by apply split_single.
  - change (JS.join (l :: l' :: ls) sep)
      with (l ++ sep :: JS.join (l' :: ls) sep).
    rewrite split_app_sep by done. by rewrite IH.
Qed.

Lemma join_split s : JS.join (JS.split s sep) sep = s.
Proof.
  induction s as [|c s IH]; simpl; [done|].
  destruct (N.eqb c sep) eqn:Hc.
  - apply N.eqb_eq in Hc as ->.
    pose proof (split_nonempty s).
    destruct (JS.split s sep) as [|l ls]; [done|].
    change (JS.join ([] :: l :: ls) sep) with (sep :: JS.join (l :: ls) sep).
    by rewrite IH.
  - destruct (JS.split s sep) as [|l ls]; [by rewrite <- IH|].
    rewrite <- IH. by destruct ls.
Qed.

End Lines.

(** ** The editor *)

Section EditorFacts.

Implicit Types (e : Editor.t) (line text : str).

Lemma lines_of_wf e :
  Editor.wf e -> JS.split (Editor.getValue e) NEWLINE = Editor.doc e.
Proof. intros [Hne Hnl]. by apply split_join. Qed.

Lemma wf_select s a h : Editor.wf (Editor.select s a h).
Proof. split; [apply split_nonempty|apply split_no_sep]. Qed.

Lemma wf_open s p : Editor.wf (Editor.open s p).
Proof. split; [apply split_nonempty|apply split_no_sep]. Qed.

Lemma getLine_lookup e (n : nat) line :
  Editor.doc e !! n = Some line -> Editor.getLine e (Z.of_nat n) = line.
Proof.
  intros Hl. unfold Editor.getLine, JS.at_.
  replace (Z.of_nat n <? 0) with false by (symmetry; apply Z.ltb_ge; lia).
  by rewrite Nat2Z.id, Hl.
Qed.

(** A line of the document or, out of the document, the empty string. *)
Lemma getLine_cases e n :
  Editor.getLine e n ∈ Editor.doc e \/ Editor.getLine e n = [].
Proof.
  unfold Editor.getLine, JS.at_. destruct (n <? 0); [by right|].
  destruct (Editor.doc e !! Z.to_nat n) as [l|] eqn:Hl; [|by right].
  left. by eapply list_elem_of_lookup_2.
Qed.

(** Replacing a range inside one line by a text without line break
    rewrites that line and nothing else. *)
Lemma replaceRange_in_line e (n : nat) line text a b :
  Editor.wf e ->
  Editor.doc e !! n = Some line ->
  0 <= a -> 0 <= b ->
  NEWLINE ∉ text ->
  Editor.doc
    (Editor.replaceRange text
       {| Pos.line := Z.of_nat n; Pos.ch := a |}
       {| Pos.line := Z.of_nat n; Pos.ch := b |} e) =
  <[n := take (Z.to_nat a) line ++ text ++ drop (Z.to_nat b) line]>
    (Editor.doc e).
Proof.
  intros [_ Hnl] Hline Ha Hb Htext. unfold Editor.replaceRange. simpl.
  rewrite (getLine_lookup _ _ _ Hline), Nat2Z.id.
  rewrite substring_take, substringFrom_drop by done.
  rewrite split_single.
  - symmetry. apply insert_take_drop. by eapply lookup_lt_Some.
  - rewrite Forall_forall in Hnl.
    assert (Hl : NEWLINE ∉ line)
      by (apply Hnl; by eapply list_elem_of_lookup_2).
    rewrite !elem_of_app. intros [Hin|[Hin|Hin]]; [|done|].
    + apply Hl. by eapply subseteq_take.
    + apply Hl. by eapply subseteq_drop.
Qed.

(** Replacing the whole buffer by a text leaves the lines of that text. *)
Lemma replaceRange_whole e text :
  Editor.doc e <> [] ->
  Editor.doc
    (Editor.replaceRange text
       {| Pos.line := 0; Pos.ch := 0 |}
       {| Pos.line := Editor.lastLine e;
          Pos.ch := JS.length (Editor.getLine e (Editor.lastLine e)) |} e) =
  JS.split text NEWLINE.
Proof.
  intros Hne. unfold Editor.replaceRange. simpl.
  rewrite substringFrom_drop by apply JS_length_nonneg.
  unfold JS.length at 1. rewrite Nat2Z.id, drop_all.
  unfold Editor.lastLine.
  rewrite drop_ge by (destruct (Editor.doc e); [done|simpl; lia]).
  rewrite substring_take by done. simpl.
  by rewrite !app_nil_r.
Qed.

End EditorFacts.

(** ** Rewriting a line *)

Section Splice.

Implicit Types (line : str) (links : list WikiLink.t).

Lemma toggleLine_spliceOne line :
  toggleLine line =
  Some (foldl spliceOne line (reverse (linksOf line))).
Proof. unfold toggleLine. by rewrite findAllLinksInLine_linksOf. Qed.

(** Splicing from the right leaves the line untouched up to the first
    token still to come, so the offsets found in the original line stay
    good. *)
Lemma foldl_spliceOne line pos links :
  Forall (tokenOf line) links ->
  ascendingFrom pos links ->
  0 <= pos <= JS.length line ->
  foldl spliceOne line (reverse links) =
  take (Z.to_nat pos) line ++ spliceFrom line pos links.
Proof.
  intros Htoks. revert pos.
  induction Htoks as [|link rest Htok _ IH]; intros pos Hasc Hpos.
  - simpl. rewrite substringFrom_drop by lia. by rewrite take_drop.
  - destruct Hasc as (Hle & Hne & Hrest).
    destruct (tokenOf_bounds _ _ Htok) as (Hs & _ & He).
    rewrite reverse_cons, foldl_app. simpl.
    rewrite (IH (WikiLink.endCh link)) by (done || lia).
    unfold spliceOne. unfold JS.length in *.
    rewrite substring_take, substringFrom_drop by lia.
    rewrite take_app_le by (rewrite length_take; lia).
    rewrite take_take.
    replace (Z.to_nat (WikiLink.startCh link) `min`
             Z.to_nat (WikiLink.endCh link))%nat
      with (Z.to_nat (WikiLink.startCh link)) by lia.
    rewrite drop_app_length' by (rewrite length_take; lia).
    rewrite substring_spec by lia.
    rewrite (app_assoc (take (Z.to_nat pos) line)), take_take_drop.
    do 2 f_equal. lia.
Qed.

Lemma toggleLine_toggledLine line : toggleLine line = Some (toggledLine line).
Proof.
  rewrite toggleLine_spliceOne. f_equal. unfold toggledLine.
  rewrite (foldl_spliceOne line 0).
  - done.
  - apply linksOf_tokens.
  - apply linksOf_ascending.
  - pose proof (JS_length_nonneg line). lia.
Qed.

Lemma mapM_toggleLine (lines : list str) :
  mapM toggleLine lines = Some (map toggledLine lines).
Proof.
  induction lines as [|line lines IH]; [done|].
  simpl. rewrite toggleLine_toggledLine. simpl. by rewrite IH.
Qed.

(** A rewritten line is made of code units of the line and of the marker
    and brackets. *)
Lemma elem_of_toggleLink line link c :
  tokenOf line link -> c ∈ toggleLink link ->
  c ∈ line \/ c ∈ [BANG; LBRACKET; RBRACKET].
Proof.
  intros Htok. rewrite toggleLink_raw. unfold rawLink.
  rewrite elem_of_app, elem_of_cons, elem_of_cons, elem_of_app.
  intros [Hc|[->|[->|[Hc|Hc]]]].
  - right. destruct (negb _); [|by apply elem_of_nil in Hc].
    apply list_elem_of_singleton in Hc as ->. apply list_elem_of_here.
  - right. apply list_elem_of_further, list_elem_of_here.
  - right. apply list_elem_of_further, list_elem_of_here.
  - left. rewrite (tokenOf_cut _ _ Htok), (tok_text _ _ Htok).
    unfold rawLink. rewrite !elem_of_app, !elem_of_cons, !elem_of_app.
    tauto.
  - right. do 2 apply list_elem_of_further.
    apply elem_of_cons in Hc as [->|Hc]; [apply list_elem_of_here|].
    apply list_elem_of_singleton in Hc as ->. apply list_elem_of_here.
Qed.

Lemma elem_of_spliceFrom line pos links c :
  Forall (tokenOf line) links -> 0 <= pos ->
  c ∈ spliceFrom line pos links ->
  c ∈ line \/ c ∈ [BANG; LBRACKET; RBRACKET].
Proof.
  intros Htoks. revert pos.
  induction Htoks as [|link rest Htok _ IH]; intros pos Hpos; simpl.
  - rewrite substringFrom_drop by done. intros Hc. left.
    by eapply subseteq_drop.
  - destruct (tokenOf_bounds _ _ Htok) as (Hs & Hlen & He).
    rewrite !elem_of_app. intros [Hc|[Hc|Hc]].
    + left. unfold JS.substring in Hc.
      eapply subseteq_drop, subseteq_take, Hc.
    + by eapply elem_of_toggleLink.
    + apply (IH (WikiLink.endCh link)); [lia|done].
Qed.

Lemma toggledLine_no_newline line :
  NEWLINE ∉ line -> NEWLINE ∉ toggledLine line.
Proof.
  intros Hline Hin.
  apply elem_of_spliceFrom in Hin as [Hin|Hin];
    [done| |apply linksOf_tokens|done].
  rewrite !elem_of_cons, elem_of_nil in Hin.
  by destruct Hin as [?|[?|[?|?]]].
Qed.

End Splice.

(** ** The "toggle all" command *)

Section ToggleAll.

Implicit Types (e : Editor.t).

(** The one call [toggleAllLinks] makes. *)
Lemma toggleAllLinks_call e :
  toggleAllLinks e =
  Some (Editor.replaceRange
          (JS.join (map toggledLine (JS.split (Editor.getValue e) NEWLINE))
             NEWLINE)
          {| Pos.line := 0; Pos.ch := 0 |}
          {| Pos.line := Editor.lastLine e;
             Pos.ch := JS.length (Editor.getLine e (Editor.lastLine e)) |}
          e).
Proof. unfold toggleAllLinks. by rewrite mapM_toggleLine. Qed.

(** Its effect on a well-formed buffer: every line rewritten. *)
Lemma toggleAllLinks_doc e :
  Editor.wf e ->
  Editor.doc <$> toggleAllLinks e = Some (map toggledLine (Editor.doc e)).
Proof.
  intros Hwf. rewrite toggleAllLinks_call.
  unfold fmap, option_fmap, option_map. f_equal.
  rewrite replaceRange_whole by apply Hwf.
  rewrite (lines_of_wf _ Hwf). destruct Hwf as [Hne Hnl].
  apply split_join.
  - by destruct (Editor.doc e).
  - apply Forall_fmap. eapply Forall_impl; [exact Hnl|].
    intros line. apply toggledLine_no_newline.
Qed.

End ToggleAll.

(** C5: [toggleAllLinks] rewrites every line in memory, going through the
    tokens of the line (which the scan gives in ascending order) from the
    right, and the result is the line with every token replaced at the
    offsets it has in the original line; the
    editor then receives exactly one [replaceRange], from (0, 0) to the end
    of the last line, carrying the joined lines (which become the new
    lines of a well-formed buffer).  The line
    [![[Note A]] and ![[Note B]]] becomes [[[Note A]] and [[Note B]]]. *)
Theorem toggleAllLinks_single_replacement (e : Editor.t) :
  let lines := JS.split (Editor.getValue e) NEWLINE in
  let whole :=
    {| Replacement.from := {| Pos.line := 0; Pos.ch := 0 |};
       Replacement.to :=
         {| Pos.line := Editor.lastLine e;
            Pos.ch := JS.length (Editor.getLine e (Editor.lastLine e)) |};
       Replacement.text := JS.join (map toggledLine lines) NEWLINE |} in
  (forall line,
     ascendingFrom 0 (linksOf line) /\
     toggleLine line = Some (foldl spliceOne line (reverse (linksOf line))) /\
     foldl spliceOne line (reverse (linksOf line)) = toggledLine line) /\
  (exists e',
     toggleAllLinks e = Some e' /\
     Editor.calls e' = Editor.calls e ++ [whole] /\
     (Editor.wf e -> Editor.doc e' = map toggledLine (Editor.doc e))) /\
  Editor.doc <$>
    toggleAllLinks
      (Editor.open (JS.lit "![[Note A]] and ![[Note B]]")
         {| Pos.line := 0; Pos.ch := 0 |}) =
  Some [JS.lit "[[Note A]] and [[Note B]]"].
Proof.
  intros lines whole. split; [|split].
  - intros line. split; [apply linksOf_ascending|].
    split; [apply toggleLine_spliceOne|].
    pose proof (toggleLine_toggledLine line) as H.
    rewrite toggleLine_spliceOne in H. congruence.
  - eexists. split; [apply toggleAllLinks_call|]. split; [done|].
    intros Hwf. pose proof (toggleAllLinks_doc e Hwf) as Hdoc.
    rewrite toggleAllLinks_call in Hdoc.
    unfold fmap, option_fmap, option_map in Hdoc. congruence.
  - by vm_compute.
Qed.

Lemma toggleAllLinks_single_replacement_witness :
  exists e',
    toggleAllLinks
      (Editor.open (JS.lit "a [[B]] c ![[D]]") {| Pos.line := 0; Pos.ch := 3 |})
    = Some e' /\
    Editor.doc e' = [JS.lit "a ![[B]] c [[D]]"].
Proof.
  destruct (toggleAllLinks_single_replacement
              (Editor.open (JS.lit "a [[B]] c ![[D]]")
                 {| Pos.line := 0; Pos.ch := 3 |}))
    as (_ & (e' & Heq & _ & Hdoc) & _).
  exists e'. split; [exact Heq|].
  rewrite Hdoc.
  - vm_compute. reflexivity.
  - apply wf_open.
Defined.

(** ** The "toggle current/selected" command with the cursor on a link *)

Section CursorHit.

Implicit Types (e : Editor.t) (line : str) (link : WikiLink.t).

Lemma substring_empty (s : str) a : JS.substring s a a = [].
Proof. unfold JS.substring. by rewrite Z.max_id, Z.min_id, Z.sub_diag. Qed.

Lemma getSelection_cursor e :
  Editor.anchor e = Editor.head e -> Editor.getSelection e = [].
Proof.
  intros Heq. unfold Editor.getSelection, Editor.getRange. rewrite Heq.
  rewrite Z.eqb_refl. destruct (Editor.posLeb _ _); apply substring_empty.
Qed.

Lemma findLinkAtCursor_token line cursorCh link :
  findLinkAtCursor line cursorCh = Some (Some link) ->
  link ∈ linksOf line /\ tokenOf line link /\
  containsCursor cursorCh link = true.
Proof.
  rewrite findLinkAtCursor_find. intros [= Hfind].
  apply find_some in Hfind as [Hin%list_elem_of_In Hc].
  split; [done|]. split; [|done].
  pose proof (linksOf_tokens line) as Htoks.
  rewrite Forall_forall in Htoks. auto.
Qed.

Lemma toggleLink_no_newline line link :
  NEWLINE ∉ line -> tokenOf line link -> NEWLINE ∉ toggleLink link.
Proof.
  intros Hline Htok Hin.
  eapply elem_of_toggleLink in Hin as [Hin|Hin]; [done| |done].
  rewrite !elem_of_cons, elem_of_nil in Hin.
  by destruct Hin as [?|[?|[?|?]]].
Qed.

(** Toggling one token of line [n] in place. *)
Lemma replaceRange_token e (n : nat) line link :
  Editor.wf e ->
  Editor.doc e !! n = Some line ->
  tokenOf line link ->
  Editor.doc
    (Editor.replaceRange (toggleLink link)
       {| Pos.line := Z.of_nat n; Pos.ch := WikiLink.startCh link |}
       {| Pos.line := Z.of_nat n; Pos.ch := WikiLink.endCh link |} e) =
  <[n := take (Z.to_nat (WikiLink.startCh link)) line
         ++ toggleLink link
         ++ drop (Z.to_nat (WikiLink.endCh link)) line]> (Editor.doc e).
Proof.
  intros Hwf Hline Htok.
  destruct (tokenOf_bounds _ _ Htok) as (Hs & Hlen & He).
  apply replaceRange_in_line; [done|done|lia|lia|].
  eapply toggleLink_no_newline; [|done].
  destruct Hwf as [_ Hnl]. rewrite Forall_forall in Hnl.
  apply Hnl. by eapply list_elem_of_lookup_2.
Qed.

End CursorHit.

(** ** The nearest-link search *)

Section NearestSearch.

Variables (lines : list str) (cursorLine cursorCh : Z).

Let tag (i : Z) (link : WikiLink.t) : Nearest.t :=
  {| Nearest.line := i; Nearest.link := link |}.

Let after (found : Nearest.t) : bool :=
  WikiLink.startCh (Nearest.link found) >=? cursorCh.

Let before (found : Nearest.t) : bool :=
  WikiLink.endCh (Nearest.link found) <=? cursorCh.

Lemma forwardInLine_cursor links :
  forwardInLine cursorLine cursorLine cursorCh links =
  List.find after (map (tag cursorLine) links).
Proof.
  induction links as [|link rest IH]; simpl; [done|].
  rewrite Z.eqb_refl. unfold after at 1. simpl.
  by destruct (_ >=? _).
Qed.

Lemma forwardInLine_other i links :
  i <> cursorLine ->
  forwardInLine i cursorLine cursorCh links = head (map (tag i) links).
Proof.
  intros Hi. destruct links as [|link rest]; simpl; [done|].
  by replace (i =? cursorLine) with false by (symmetry; by apply Z.eqb_neq).
Qed.

Lemma backwardInLine_cursor links j :
  backwardInLine cursorLine cursorLine cursorCh links j =
  last (List.filter before (map (tag cursorLine) (take j links))).
Proof.
  induction j as [|j IH]; simpl.
  - done.
  - rewrite Z.eqb_refl. destruct (links !! j) as [link|] eqn:Hj.
    + rewrite (take_S_r _ _ _ Hj), List.map_app, List.filter_app, last_app.
      simpl.
      unfold before at 1. simpl. by destruct (_ <=? _).
    + apply lookup_ge_None in Hj.
      rewrite IH, !take_ge by lia. done.
Qed.

Lemma backwardInLine_other i links j :
  i <> cursorLine ->
  backwardInLine i cursorLine cursorCh links j =
  last (map (tag i) (take j links)).
Proof.
  intros Hi. induction j as [|j IH]; simpl.
  - done.
  - replace (i =? cursorLine) with false by (symmetry; by apply Z.eqb_neq).
    destruct (links !! j) as [link|] eqn:Hj.
    + by rewrite (take_S_r _ _ _ Hj), List.map_app, last_app.
    + apply lookup_ge_None in Hj.
      rewrite IH, !take_ge by lia. done.
Qed.

(** Past the cursor's line the forward loop takes the first token it
    meets. *)
Lemma forwardLoop_after n i :
  cursorLine < i ->
  forwardLoop lines cursorLine cursorCh n i =
  Some (head (rangeLinks lines i n)).
Proof.
  revert i. induction n as [|n IH]; intros i Hi; simpl; [done|].
  rewrite head_app. unfold lineLinks.
  destruct (JS.at_ lines i) as [line|].
  - rewrite findAllLinksInLine_linksOf. simpl.
    rewrite forwardInLine_other by lia. fold (tag i).
    destruct (head _); [done|]. apply IH. lia.
  - simpl. apply IH. lia.
Qed.

Lemma forwardLoop_forwardScan :
  forwardLoop lines cursorLine cursorCh
    (Z.to_nat (Z.of_nat (length lines) - cursorLine)) cursorLine =
  Some (forwardScan lines cursorLine cursorCh).
Proof.
  unfold forwardScan.
  destruct (Z.to_nat (Z.of_nat (length lines) - cursorLine)) as [|n] eqn:Hn.
  - simpl. assert (JS.at_ lines cursorLine = None) as Hnone.
    { unfold JS.at_. destruct (cursorLine <? 0); [done|].
      apply lookup_ge_None. lia. }
    unfold lineLinks. rewrite Hnone. simpl.
    by replace (Z.to_nat (Z.of_nat (length lines) - cursorLine - 1))
      with 0%nat by lia.
  - replace (Z.to_nat (Z.of_nat (length lines) - cursorLine - 1))
      with n by lia.
    simpl. unfold lineLinks.
    destruct (JS.at_ lines cursorLine) as [line|].
    + rewrite findAllLinksInLine_linksOf. simpl.
      rewrite forwardInLine_cursor. fold (tag cursorLine). fold after.
      destruct (List.find _ _); [done|]. apply forwardLoop_after. lia.
    + simpl. apply forwardLoop_after. lia.
Qed.

Lemma rangeLinks_snoc i n :
  rangeLinks lines i (S n) =
  rangeLinks lines i n ++ lineLinks lines (i + Z.of_nat n).
Proof.
  revert i. induction n as [|n IH]; intros i.
  - simpl. by rewrite app_nil_r, Z.add_0_r.
  - change (rangeLinks lines i (S (S n)))
      with (lineLinks lines i ++ rangeLinks lines (i + 1) (S n)).
    rewrite IH. simpl. rewrite <- app_assoc. do 3 f_equal. lia.
Qed.

(** Before the cursor's line the backward loop takes the last token it
    meets. *)
Lemma backwardLoop_before n :
  Z.of_nat n - 1 < cursorLine ->
  backwardLoop lines cursorLine cursorCh n (Z.of_nat n - 1) =
  Some (last (rangeLinks lines 0 n)).
Proof.
  induction n as [|n IH]; intros Hn; [done|].
  rewrite rangeLinks_snoc, last_app. simpl backwardLoop.
  replace (Z.of_nat (S n) - 1) with (Z.of_nat n) in * by lia.
  replace (0 + Z.of_nat n) with (Z.of_nat n) by lia.
  unfold lineLinks. destruct (JS.at_ lines (Z.of_nat n)) as [line|].
  - rewrite findAllLinksInLine_linksOf. simpl.
    rewrite backwardInLine_other, firstn_all by lia. fold (tag (Z.of_nat n)).
    destruct (last (map _ (linksOf line))); [done|]. apply IH. lia.
  - simpl. apply IH. lia.
Qed.

Lemma backwardLoop_backwardScan :
  backwardLoop lines cursorLine cursorCh (Z.to_nat (cursorLine + 1))
    cursorLine =
  Some (backwardScan lines cursorLine cursorCh).
Proof.
  unfold backwardScan.
  destruct (Z.to_nat (cursorLine + 1)) as [|n] eqn:Hn.
  - simpl. unfold lineLinks, JS.at_.
    replace (cursorLine <? 0) with true by (symmetry; apply Z.ltb_lt; lia).
    simpl. by replace (Z.to_nat cursorLine) with 0%nat by lia.
  - replace (Z.to_nat cursorLine) with n by lia.
    assert (cursorLine - 1 = Z.of_nat n - 1) as Hprev by lia.
    simpl. unfold lineLinks.
    destruct (JS.at_ lines cursorLine) as [line|].
    + rewrite findAllLinksInLine_linksOf. simpl.
      rewrite backwardInLine_cursor, firstn_all.
      fold (tag cursorLine). fold before.
      destruct (last (List.filter _ _)); [done|].
      rewrite Hprev. apply backwardLoop_before. lia.
    + simpl. rewrite Hprev. apply backwardLoop_before. lia.
Qed.

End NearestSearch.

Lemma findNearestLink_nearestScan (e : Editor.t) (cursorLine cursorCh : Z) :
  findNearestLink e cursorLine cursorCh =
  Some (nearestScan (JS.split (Editor.getValue e) NEWLINE)
          cursorLine cursorCh).
Proof.
  unfold findNearestLink, nearestScan.
  rewrite forwardLoop_forwardScan. simpl.
  destruct (forwardScan _ _ _); [done|]. apply backwardLoop_backwardScan.
Qed.

(** C4: [findNearestLink] always finishes, and its answer is the forward
    scan of the design (on the cursor's line the first token with
    [startCh >= cursorCh], else the first token of the following lines)
    whenever that finds a token; only otherwise is it the backward scan (on
    the cursor's line the last token with [endCh <= cursorCh], else the last
    token of the preceding lines); with neither there is no target.  In the
    buffer [[[A]] x / / / [[B]]] with the cursor at (0, 6), inside no
    token, the token of line 3 is returned although [[[A]]] ends one code
    unit before the cursor on its own line. *)
Theorem findNearestLink_forward_first :
  (forall (e : Editor.t) (cursorLine cursorCh : Z),
     let lines := JS.split (Editor.getValue e) NEWLINE in
     findNearestLink e cursorLine cursorCh =
       Some (nearestScan lines cursorLine cursorCh) /\
     (forall found,
        forwardScan lines cursorLine cursorCh = Some found ->
        findNearestLink e cursorLine cursorCh = Some (Some found)) /\
     (forwardScan lines cursorLine cursorCh = None ->
      findNearestLink e cursorLine cursorCh =
        Some (backwardScan lines cursorLine cursorCh)) /\
     (forwardScan lines cursorLine cursorCh = None ->
      backwardScan lines cursorLine cursorCh = None ->
      findNearestLink e cursorLine cursorCh = Some None)) /\
  (let e :=
     Editor.open
       (JS.join [JS.lit "[[A]] x"; JS.lit ""; JS.lit ""; JS.lit "[[B]]"]
          NEWLINE)
       {| Pos.line := 0; Pos.ch := 6 |} in
   let lines := JS.split (Editor.getValue e) NEWLINE in
   findLinkAtCursor (Editor.getLine e 0) 6 = Some None /\
   backwardScan lines 0 6 =
     Some {| Nearest.line := 0;
             Nearest.link := parseWikiLink (JS.lit "[[A]]") 0 5 |} /\
   findNearestLink e 0 6 =
     Some (Some {| Nearest.line := 3;
                   Nearest.link := parseWikiLink (JS.lit "[[B]]") 0 5 |})).
Proof.
  split.
  - intros e cursorLine cursorCh lines.
    pose proof (findNearestLink_nearestScan e cursorLine cursorCh) as Heq.
    fold lines in Heq. unfold nearestScan in Heq.
    split; [done|]. split; [|split].
    + intros found Hfound. by rewrite Heq, Hfound.
    + intros Hnone. by rewrite Heq, Hnone.
    + intros Hnone Hback. by rewrite Heq, Hnone, Hback.
  - by vm_compute.
Qed.

Lemma findNearestLink_forward_first_witness :
  findNearestLink
    (Editor.open
       (JS.join [JS.lit "no links here"; JS.lit "[[Target]]"] NEWLINE)
       {| Pos.line := 0; Pos.ch := 0 |}) 0 0 =
  Some (Some {| Nearest.line := 1;
                Nearest.link := parseWikiLink (JS.lit "[[Target]]") 0 10 |}).
Proof.
  destruct findNearestLink_forward_first as [Hall _].
  destruct (Hall
              (Editor.open
                 (JS.join [JS.lit "no links here"; JS.lit "[[Target]]"] NEWLINE)
                 {| Pos.line := 0; Pos.ch := 0 |}) 0 0)
    as (_ & Hforward & _).
  apply Hforward. vm_compute. reflexivity.
Defined.

(** ** Round trip of the toggle *)

Section ScanOneLink.

Variables (marker : bool) (p : str).
Hypothesis (Hp : p <> []) (Hclose : RBRACKET ∉ p).

Lemma search_here r (s : str) i n :
  matchAt r s = Some n -> search r s i = Some (i, n).
Proof. intros Hm. destruct s; simpl; by rewrite Hm. Qed.

Lemma exec_rawLink_start :
  exec wikiLinkPattern (rawLink marker p) 0 =
  (Some {| index := 0; matched := rawLink marker p |},
   length (rawLink marker p)).
Proof.
  unfold exec. simpl (_ <? _)%nat. cbv iota. rewrite drop_0.
  pose proof (matchAt_wikiLink_intro marker p [] Hp Hclose) as Hm.
  rewrite app_nil_r in Hm. rewrite (search_here _ _ _ _ Hm).
  by rewrite drop_0, firstn_all.
Qed.

Lemma exec_rawLink_end :
  exec wikiLinkPattern (rawLink marker p) (length (rawLink marker p)) =
  (None, 0%nat).
Proof. unfold exec. by rewrite Nat.ltb_irrefl, drop_all. Qed.

(** A line that is one link text holds exactly that token. *)
Lemma findAllLinksInLine_rawLink :
  findAllLinksInLine (rawLink marker p) =
  Some [parseWikiLink (rawLink marker p) 0 (JS.length (rawLink marker p))].
Proof.
  unfold findAllLinksInLine, scanFuel.
  destruct (length (rawLink marker p)) as [|n] eqn:Hlen.
  { rewrite rawLink_length in Hlen. lia. }
  cbn [findAllLinksInLine_loop]. rewrite exec_rawLink_start, Hlen.
  rewrite <- Hlen at 1. rewrite exec_rawLink_end.
  unfold matchStart, matchEnd, JS.length. simpl. by rewrite Hlen.
Qed.

End ScanOneLink.


(** C3: for every path and either state of the marker, the token parsed
    from the link text toggles to the text with the marker flipped, and
    parsing that text and toggling again gives the original text back, code
    unit for code unit.  When the path is non-empty and free of closing
    brackets, as in every token the scanner returns, scanning the toggled
    text finds exactly that one token, so the round trip also holds through
    the scanner. *)
Theorem toggleLink_round_trip (marker : bool) (p : str) (s e s' e' : Z) :
  let link := parseWikiLink (rawLink marker p) s e in
  WikiLink.fullText link = rawLink marker p /\
  WikiLink.path link = p /\
  toggleLink link = rawLink (negb marker) p /\
  toggleLink (parseWikiLink (toggleLink link) s' e') = rawLink marker p /\
  (p <> [] -> RBRACKET ∉ p ->
   findAllLinksInLine (toggleLink link) =
     Some [parseWikiLink (toggleLink link) 0 (JS.length (toggleLink link))]) /\
  (forall line links found,
     findAllLinksInLine line = Some links -> found ∈ links ->
     toggleLink (parseWikiLink (toggleLink found) s' e') =
     WikiLink.fullText found).
Proof.
  intros link. subst link. rewrite parseWikiLink_rawLink. simpl.
  split; [done|]. split; [done|].
  assert (Htoggle : forall m q a b,
    toggleLink
      {| WikiLink.fullText := rawLink m q; WikiLink.hasTransclusion := m;
         WikiLink.path := q; WikiLink.startLine := 0;
         WikiLink.startCh := a; WikiLink.endCh := b |} = rawLink (negb m) q)
    by (intros; by rewrite toggleLink_raw).
  rewrite Htoggle. split; [done|]. split; [|split].
  - by rewrite toggleLink_rawLink, negb_involutive.
  - intros Hp Hclose. by apply findAllLinksInLine_rawLink.
  - intros line links found Hscan Hin.
    assert (links = linksOf line) as ->
      by (rewrite findAllLinksInLine_linksOf in Hscan; congruence).
    pose proof (linksOf_tokens line) as Htoks.
    rewrite Forall_forall in Htoks. destruct (Htoks _ Hin) as [_ _ Htext _ _ _ _].
    rewrite (toggleLink_raw found), toggleLink_rawLink, negb_involutive.
    done.
Qed.

Lemma toggleLink_round_trip_witness :
  toggleLink
    (parseWikiLink
       (toggleLink (parseWikiLink (JS.lit "[[Note A|alias]]") 3 19)) 0 0) =
  JS.lit "[[Note A|alias]]" /\
  findAllLinksInLine (JS.lit "![[Note A|alias]]") =
  Some [parseWikiLink (JS.lit "![[Note A|alias]]") 0 17].
Proof.
  destruct (toggleLink_round_trip false (JS.lit "Note A|alias") 3 19 0 0)
    as (_ & _ & _ & Hround & Hscan & _).
  split; [exact Hround|].
  apply Hscan.
  - discriminate.
  - intros H. vm_compute in H.
    repeat (inversion H as [|? ? ? H']; clear H; rename H' into H).
Defined.

(** ** Totality, and buffers without a target *)

Section Selection.

Variables (startLine endLine startCh endCh : Z).

Implicit Types (lines : list str) (line : str).

Lemma foldl_push i (acc : list Replacement.t) (links : list WikiLink.t) :
  foldl
    (fun replacements link =>
       let toggled := toggleLink link in
       replacements ++
         [{| Replacement.from :=
               {| Pos.line := i; Pos.ch := WikiLink.startCh link |};
             Replacement.to :=
               {| Pos.line := i; Pos.ch := WikiLink.endCh link |};
             Replacement.text := toggled |}])
    acc links =
  acc ++ map (replacementOf i) links.
Proof.
  revert acc. induction links as [|link links IH]; intros acc; simpl.
  - by rewrite app_nil_r.
  - rewrite IH, <- app_assoc. done.
Qed.

Lemma selectionLine_spec line i acc :
  selectionLine startLine endLine startCh endCh line i acc =
  Some (acc ++
        map (replacementOf i)
          (reverse (selectedLinks startLine endLine startCh endCh line i))).
Proof.
  unfold selectionLine, selectedLinks. destruct (_ || _).
  - by rewrite app_nil_r.
  - rewrite findAllLinksInLine_linksOf. simpl. by rewrite foldl_push.
Qed.

Lemma forEachIndexed_selectionLine lines i acc :
  forEachIndexed (selectionLine startLine endLine startCh endCh) lines i acc
  = Some (acc ++ selectionPlan startLine endLine startCh endCh lines i).
Proof.
  revert i acc. induction lines as [|line rest IH]; intros i acc; simpl.
  - by rewrite app_nil_r.
  - rewrite selectionLine_spec. simpl. rewrite IH, <- app_assoc. done.
Qed.

Lemma selectionPlan_noLinks lines i :
  noLinks lines ->
  selectionPlan startLine endLine startCh endCh lines i = [].
Proof.
  intros Hno. revert i. induction Hno as [|line rest Hline _ IH]; intros i.
  - done.
  - simpl. unfold selectedLinks. rewrite Hline, IH.
    by destruct (_ || _).
Qed.

End Selection.

Section NoTarget.

Implicit Types (e : Editor.t) (lines : list str) (line : str).

Lemma selectionReplacements_plan e :
  selectionReplacements e =
  let '(startLine, endLine, startCh, endCh) :=
    selectionBounds (Editor.anchor e) (Editor.head e) in
  Some (selectionPlan startLine endLine startCh endCh
          (JS.split (Editor.getValue e) NEWLINE) 0).
Proof.
  unfold selectionReplacements, Editor.getCursorAnchor, Editor.getCursorHead.
  destruct (selectionBounds _ _) as [[[startLine endLine] startCh] endCh].
  by rewrite forEachIndexed_selectionLine.
Qed.

Lemma lineLinks_noLinks lines i : noLinks lines -> lineLinks lines i = [].
Proof.
  intros Hno. unfold lineLinks, JS.at_. destruct (i <? 0); [done|].
  destruct (lines !! Z.to_nat i) as [line|] eqn:Hl; [|done].
  unfold noLinks in Hno. rewrite Forall_forall in Hno.
  by rewrite (Hno line) by (by eapply list_elem_of_lookup_2).
Qed.

Lemma rangeLinks_noLinks lines i n :
  noLinks lines -> rangeLinks lines i n = [].
Proof.
  intros Hno. revert i. induction n as [|n IH]; intros i; simpl; [done|].
  by rewrite lineLinks_noLinks, IH.
Qed.

Lemma nearestScan_noLinks lines cursorLine cursorCh :
  noLinks lines -> nearestScan lines cursorLine cursorCh = None.
Proof.
  intros Hno. unfold nearestScan, forwardScan, backwardScan.
  by rewrite lineLinks_noLinks, !rangeLinks_noLinks.
Qed.

Lemma toggledLine_noLinks line : linksOf line = [] -> toggledLine line = line.
Proof.
  intros Hno. unfold toggledLine. rewrite Hno. simpl.
  by rewrite substringFrom_drop.
Qed.

Lemma linksOf_empty : linksOf [] = [].
Proof. done. Qed.

(** Without a token anywhere, "toggle current/selected" changes nothing
    and makes no call. *)
Lemma toggleCurrentOrSelected_noLinks e :
  Editor.wf e -> noLinks (Editor.doc e) ->
  toggleCurrentOrSelected e = Some e.
Proof.
  intros Hwf Hno. unfold toggleCurrentOrSelected.
  destruct (JS.length (Editor.getSelection e) >? 0).
  - unfold toggleLinksInSelection. rewrite selectionReplacements_plan.
    destruct (selectionBounds _ _) as [[[startLine endLine] startCh] endCh].
    rewrite (lines_of_wf _ Hwf), selectionPlan_noLinks by done. done.
  - rewrite findLinkAtCursor_find.
    assert (linksOf (Editor.getLine e (Pos.line (Editor.getCursor e))) = [])
      as ->.
    { destruct (getLine_cases e (Pos.line (Editor.getCursor e)))
        as [Hin| ->]; [|apply linksOf_empty].
      unfold noLinks in Hno. rewrite Forall_forall in Hno. auto. }
    simpl. rewrite findNearestLink_nearestScan, (lines_of_wf _ Hwf).
    by rewrite nearestScan_noLinks.
Qed.

(** Without a token anywhere, "toggle all" leaves the buffer as it is. *)
Lemma toggleAllLinks_noLinks e :
  Editor.wf e -> noLinks (Editor.doc e) ->
  Editor.doc <$> toggleAllLinks e = Some (Editor.doc e).
Proof.
  intros Hwf Hno. rewrite toggleAllLinks_doc by done. f_equal.
  induction Hno as [|line rest Hline _ IH]; simpl; [done|].
  by rewrite toggledLine_noLinks, IH.
Qed.

Lemma toggleLinksInSelection_Some e : is_Some (toggleLinksInSelection e).
Proof.
  unfold toggleLinksInSelection. rewrite selectionReplacements_plan.
  by destruct (selectionBounds _ _) as [[[startLine endLine] startCh] endCh].
Qed.

Lemma toggleCurrentOrSelected_Some e : is_Some (toggleCurrentOrSelected e).
Proof.
  unfold toggleCurrentOrSelected.
  destruct (_ >? _); [apply toggleLinksInSelection_Some|].
  rewrite findLinkAtCursor_find. simpl.
  destruct (List.find _ _); [done|].
  rewrite findNearestLink_nearestScan. simpl.
  by destruct (nearestScan _ _ _).
Qed.

End NoTarget.

(** C10: no token ever has an empty path, neither from
    [findAllLinksInLine] nor from [findLinkAtCursor]: [[[]]] and [![[]]]
    hold no token at all, the cursor scan answers [null] at every offset,
    and a buffer made of either text is left as it is by both commands,
    wherever the selection ends are.  The parser and the toggle themselves
    take the empty path without complaint. *)
Theorem empty_path_never_recognised :
  (forall line,
     exists links,
       findAllLinksInLine line = Some links /\
       Forall (fun link => WikiLink.path link <> []) links) /\
  (forall line cursorCh link,
     findLinkAtCursor line cursorCh = Some (Some link) ->
     WikiLink.path link <> []) /\
  findAllLinksInLine (JS.lit "[[]]") = Some [] /\
  findAllLinksInLine (JS.lit "![[]]") = Some [] /\
  (forall cursorCh,
     findLinkAtCursor (JS.lit "[[]]") cursorCh = Some None /\
     findLinkAtCursor (JS.lit "![[]]") cursorCh = Some None) /\
  (forall text anchor head,
     text = JS.lit "[[]]" \/ text = JS.lit "![[]]" ->
     let e := Editor.select text anchor head in
     toggleCurrentOrSelected e = Some e /\
     Editor.doc <$> toggleAllLinks e = Some [text]) /\
  toggleLink (parseWikiLink (JS.lit "[[]]") 0 4) = JS.lit "![[]]" /\
  toggleLink (parseWikiLink (JS.lit "![[]]") 0 5) = JS.lit "[[]]".
Proof.
  split; [|split; [|split; [|split; [|split; [|split]]]]].
  - intros line. exists (linksOf line).
    split; [apply findAllLinksInLine_linksOf|].
    eapply Forall_impl; [apply linksOf_tokens|]. by intros link [].
  - intros line cursorCh link (_ & [] & _)%findLinkAtCursor_token. done.
  - by vm_compute.
  - by vm_compute.
  - intros cursorCh. by rewrite !findLinkAtCursor_find.
  - intros text anchor head Htext e.
    assert (Hwf : Editor.wf e) by apply wf_select.
    assert (Hdoc : Editor.doc e = [text]) by (by destruct Htext as [-> | ->]).
    assert (Hno : noLinks (Editor.doc e)).
    { rewrite Hdoc. constructor; [|done]. by destruct Htext as [-> | ->]. }
    split; [by apply toggleCurrentOrSelected_noLinks|].
    rewrite <- Hdoc. by apply toggleAllLinks_noLinks.
  - by vm_compute.
Qed.

Lemma empty_path_never_recognised_witness :
  let e :=
    Editor.select (JS.lit "![[]]") {| Pos.line := 0; Pos.ch := 1 |}
      {| Pos.line := 0; Pos.ch := 4 |} in
  toggleCurrentOrSelected e = Some e /\
  Editor.doc <$> toggleAllLinks e = Some [JS.lit "![[]]"].
Proof.
  intros e.
  destruct empty_path_never_recognised as (_ & _ & _ & _ & _ & Hsame & _).
  apply (Hsame (JS.lit "![[]]")). right. reflexivity.
Defined.

(** ** The selection bounds on selections of several lines *)

(** C1, at the failing input: in the buffer [[[A]] / [[B]] [[C]]] with the
    selection dragged from (0, 0) to (1, 5), the selected text ends right
    after [[[B]]]; the bound used on the last line is
    [Number.MAX_SAFE_INTEGER], not 5, and [[[C]]], in [[6, 11)] of the last
    line, is toggled with the others.  The same holds of every token of the
    last line of a selection whose anchor is on an earlier line than its
    head. *)
Theorem toggleLinksInSelection_forward_end_unbounded :
  (let e :=
     Editor.select (JS.join [JS.lit "[[A]]"; JS.lit "[[B]] [[C]]"] NEWLINE)
       {| Pos.line := 0; Pos.ch := 0 |} {| Pos.line := 1; Pos.ch := 5 |} in
   Editor.getSelection e = JS.join [JS.lit "[[A]]"; JS.lit "[[B]]"] NEWLINE /\
   selectionBounds (Editor.anchor e) (Editor.head e) =
     (0, 1, 0, JS.MAX_SAFE_INTEGER) /\
   Editor.doc <$> toggleCurrentOrSelected e =
     Some [JS.lit "![[A]]"; JS.lit "![[B]] ![[C]]"]) /\
  (forall anchor head link,
     Pos.line anchor < Pos.line head ->
     WikiLink.endCh link <= JS.MAX_SAFE_INTEGER ->
     let '(startLine, endLine, startCh, endCh) := selectionBounds anchor head in
     endLine = Pos.line head /\
     inSelection startLine endLine startCh endCh (Pos.line head) link = true).
Proof.
  split; [by vm_compute|].
  intros anchor head link Hlines Hend. unfold selectionBounds, inSelection.
  replace (Pos.line anchor <? Pos.line head) with true
    by (symmetry; by apply Z.ltb_lt).
  split; [lia|].
  replace (Pos.line head =? Z.min (Pos.line anchor) (Pos.line head))
    with false by (symmetry; apply Z.eqb_neq; lia).
  replace (Pos.line head =? Z.max (Pos.line anchor) (Pos.line head))
    with true by (symmetry; apply Z.eqb_eq; lia).
  simpl. by apply Z.leb_le.
Qed.

Lemma toggleLinksInSelection_forward_end_unbounded_witness :
  inSelection 0 2 4 JS.MAX_SAFE_INTEGER 2
    (parseWikiLink (JS.lit "[[C]]") 6 11) = true.
Proof.
  destruct toggleLinksInSelection_forward_end_unbounded as [_ Hall].
  apply (Hall {| Pos.line := 0; Pos.ch := 4 |} {| Pos.line := 2; Pos.ch := 1 |}
              (parseWikiLink (JS.lit "[[C]]") 6 11)).
  - reflexivity.
  - vm_compute. discriminate.
Defined.

(** C2, at the failing input: the same selection taken in its two
    directions gives different bounds and different results.  From (0, 0)
    to (1, 5) the bounds are (0, 0) and (1, [MAX_SAFE_INTEGER]), and
    [[[C]]] is toggled; from (1, 5) to (0, 0) they are (0, 0) and (1, 5), and
    [[[C]]] is left alone.  With the anchor at (1, 2) and the head at (0, 8)
    the start is taken to be (0, 2), which is neither end. *)
Theorem selectionBounds_depend_on_direction :
  let text := JS.join [JS.lit "[[A]]"; JS.lit "[[B]] [[C]]"] NEWLINE in
  let first := {| Pos.line := 0; Pos.ch := 0 |} in
  let second := {| Pos.line := 1; Pos.ch := 5 |} in
  selectionBounds first second = (0, 1, 0, JS.MAX_SAFE_INTEGER) /\
  selectionBounds second first = (0, 1, 0, 5) /\
  Editor.getSelection (Editor.select text first second) =
    Editor.getSelection (Editor.select text second first) /\
  Editor.doc <$> toggleCurrentOrSelected (Editor.select text first second) =
    Some [JS.lit "![[A]]"; JS.lit "![[B]] ![[C]]"] /\
  Editor.doc <$> toggleCurrentOrSelected (Editor.select text second first) =
    Some [JS.lit "![[A]]"; JS.lit "![[B]] [[C]]"] /\
  selectionBounds {| Pos.line := 1; Pos.ch := 2 |}
    {| Pos.line := 0; Pos.ch := 8 |} = (0, 1, 2, 8).
Proof. by vm_compute. Qed.

(** ** What the commands leave untouched *)

Section Frame.

Implicit Types (e : Editor.t) (line : str) (links : list WikiLink.t).

Lemma ascendingFrom_filter (f : WikiLink.t -> bool) pos links :
  ascendingFrom pos links -> ascendingFrom pos (List.filter f links).
Proof.
  revert pos. induction links as [|link rest IH]; intros pos; simpl; [done|].
  intros (Hpos & Hne & Hrest). destruct (f link); simpl.
  - auto.
  - eapply ascendingFrom_weaken; [|by apply IH]. lia.
Qed.

Lemma filter_sublist {A} (f : A -> bool) (l : list A) :
  List.filter f l `sublist_of` l.
Proof.
  induction l as [|x l IH]; simpl; [constructor|].
  destruct (f x); by constructor.
Qed.

Lemma selectedLinks_sublist startLine endLine startCh endCh line i :
  selectedLinks startLine endLine startCh endCh line i
  `sublist_of` linksOf line.
Proof.
  unfold selectedLinks. destruct (_ || _).
  - apply sublist_nil_l.
  - apply filter_sublist.
Qed.

Lemma Forall_sublist {A} (P : A -> Prop) (l k : list A) :
  l `sublist_of` k -> Forall P k -> Forall P l.
Proof.
  induction 1 as [|x l k _ IH|x l k _ IH]; [done| |].
  - intros [Hx Hk]%Forall_cons. constructor; auto.
  - intros [_ Hk]%Forall_cons. auto.
Qed.

Lemma sublist_tokens line links :
  links `sublist_of` linksOf line -> Forall (tokenOf line) links.
Proof. intros Hsub. eapply Forall_sublist; [exact Hsub|apply linksOf_tokens]. Qed.

Lemma selectedLinks_ascending startLine endLine startCh endCh line i :
  ascendingFrom 0 (selectedLinks startLine endLine startCh endCh line i).
Proof.
  unfold selectedLinks. destruct (_ || _); [done|].
  apply ascendingFrom_filter, linksOf_ascending.
Qed.

Lemma spliceOne_cut (X : str) link :
  0 <= WikiLink.startCh link -> 0 <= WikiLink.endCh link ->
  spliceOne X link =
  take (Z.to_nat (WikiLink.startCh link)) X
  ++ toggleLink link
  ++ drop (Z.to_nat (WikiLink.endCh link)) X.
Proof.
  intros Hs He. unfold spliceOne.
  by rewrite substring_take, substringFrom_drop.
Qed.

Lemma spliceOne_no_newline (X : str) link :
  NEWLINE ∉ X -> NEWLINE ∉ toggleLink link -> NEWLINE ∉ spliceOne X link.
Proof.
  intros HX Hlink. unfold spliceOne, JS.substringFrom, JS.substring.
  rewrite !elem_of_app. intros [Hin|[Hin|Hin]]; [|done|].
  - by apply subseteq_take, subseteq_drop in Hin.
  - by apply subseteq_take, subseteq_drop in Hin.
Qed.

Lemma wf_insert e e' (n : nat) (x : str) :
  Editor.wf e -> NEWLINE ∉ x ->
  Editor.doc e' = <[n := x]> (Editor.doc e) ->
  Editor.wf e'.
Proof.
  intros [Hne Hnl] Hx Hdoc. split; rewrite Hdoc.
  - intros Hnil. apply (f_equal length) in Hnil.
    rewrite length_insert in Hnil. by destruct (Editor.doc e).
  - rewrite Forall_forall in Hnl |- *. intros l Hl.
    apply list_elem_of_lookup in Hl as [i Hi].
    destruct (decide (i = n)) as [->|Hin].
    + destruct (decide (n < length (Editor.doc e))%nat) as [Hlt|Hge].
      * rewrite list_lookup_insert_eq in Hi by done. congruence.
      * rewrite list_insert_ge in Hi by lia.
        apply Hnl. by eapply list_elem_of_lookup_2.
    + rewrite list_lookup_insert_ne in Hi by done.
      apply Hnl. by eapply list_elem_of_lookup_2.
Qed.

(** The replacements of one line, applied to the live buffer, rewrite that
    line as the in-memory splicing does and keep the buffer well formed. *)
Lemma applyAll_line (L : str) (n : nat) links :
  NEWLINE ∉ L -> Forall (tokenOf L) links ->
  forall e X,
    Editor.wf e -> Editor.doc e !! n = Some X ->
    Editor.wf (applyAll e (map (replacementOf (Z.of_nat n)) links)) /\
    Editor.doc (applyAll e (map (replacementOf (Z.of_nat n)) links)) =
    <[n := foldl spliceOne X links]> (Editor.doc e).
Proof.
  intros HL Htoks. induction Htoks as [|link rest Htok _ IH]; intros e X Hwf HX.
  - simpl. split; [done|]. by rewrite list_insert_id.
  - destruct (tokenOf_bounds _ _ Htok) as (Hs & Hlen & He).
    pose proof (toggleLink_no_newline _ _ HL Htok) as Hnl.
    assert (HXnl : NEWLINE ∉ X).
    { destruct Hwf as [_ Hall]. rewrite Forall_forall in Hall.
      apply Hall. by eapply list_elem_of_lookup_2. }
    simpl.
    set (e1 := Editor.replaceRange (toggleLink link)
                 {| Pos.line := Z.of_nat n; Pos.ch := WikiLink.startCh link |}
                 {| Pos.line := Z.of_nat n; Pos.ch := WikiLink.endCh link |} e).
    assert (Hdoc1 : Editor.doc e1 = <[n := spliceOne X link]> (Editor.doc e)).
    { subst e1. rewrite (replaceRange_in_line _ _ X) by (done || lia).
      by rewrite spliceOne_cut by lia. }
    assert (Hwf1 : Editor.wf e1).
    { eapply wf_insert; [exact Hwf| |exact Hdoc1].
      by apply spliceOne_no_newline. }
    destruct (IH e1 (spliceOne X link) Hwf1) as [Hwf2 Hdoc2].
    { rewrite Hdoc1. apply list_lookup_insert_eq. by eapply lookup_lt_Some. }
    split; [exact Hwf2|].
    fold (applyAll e1 (map (replacementOf (Z.of_nat n)) rest)).
    by rewrite Hdoc2, Hdoc1, list_insert_insert_eq.
Qed.

(** The whole plan of a selection, applied to the live buffer: the lines
    already treated stay as they are, every other line is rewritten at the
    offsets of its own tokens. *)
Lemma applyAll_plan startLine endLine startCh endCh (rest : list str) :
  forall e (treated : list str),
    Editor.wf e -> Editor.doc e = treated ++ rest ->
    Editor.doc
      (applyAll e
         (selectionPlan startLine endLine startCh endCh rest
            (Z.of_nat (length treated)))) =
    treated ++
    splicedLines startLine endLine startCh endCh rest
      (Z.of_nat (length treated)).
Proof.
  induction rest as [|line rest IH]; intros e treated Hwf Hdoc; [done|].
  set (k := length treated).
  set (selected :=
         selectedLinks startLine endLine startCh endCh line (Z.of_nat k)).
  assert (Hline : Editor.doc e !! k = Some line)
    by (rewrite Hdoc; by apply list_lookup_middle).
  assert (Hnl : NEWLINE ∉ line).
  { destruct Hwf as [_ Hall]. rewrite Forall_forall in Hall.
    apply Hall. by eapply list_elem_of_lookup_2. }
  assert (Htoks : Forall (tokenOf line) selected)
    by apply sublist_tokens, selectedLinks_sublist.
  cbn [selectionPlan splicedLines]. fold selected.
  unfold applyAll. rewrite foldl_app.
  fold (applyAll e (map (replacementOf (Z.of_nat k)) (reverse selected))).
  destruct (applyAll_line line k (reverse selected) Hnl
              (proj2 (Forall_reverse _ _) Htoks) e line Hwf Hline)
    as [Hwf1 Hdoc1].
  set (e1 := applyAll e (map (replacementOf (Z.of_nat k)) (reverse selected)))
    in *.
  rewrite (foldl_spliceOne line 0) in Hdoc1
    by (done || apply selectedLinks_ascending
        || (pose proof (JS_length_nonneg line); lia)).
  simpl in Hdoc1.
  assert (Hdoc1' :
    Editor.doc e1 = (treated ++ [spliceFrom line 0 selected]) ++ rest).
  { rewrite Hdoc1, Hdoc. replace k with (length treated + 0)%nat by (subst k; lia).
    rewrite insert_app_r. simpl. by rewrite <- app_assoc. }
  pose proof (IH e1 _ Hwf1 Hdoc1') as Hrest.
  rewrite length_app in Hrest. simpl in Hrest.
  replace (Z.of_nat (length treated + 1)) with (Z.of_nat k + 1) in Hrest
    by (subst k; lia).
  unfold applyAll in Hrest. rewrite Hrest, <- app_assoc. done.
Qed.

Lemma splicedLines_length startLine endLine startCh endCh lines i :
  length (splicedLines startLine endLine startCh endCh lines i) = length lines.
Proof.
  revert i. induction lines as [|line rest IH]; intros i; simpl; [done|].
  by rewrite IH.
Qed.

Lemma splicedLines_lookup startLine endLine startCh endCh lines k
    (i : nat) line :
  lines !! i = Some line ->
  splicedLines startLine endLine startCh endCh lines k !! i =
  Some (spliceFrom line 0
          (selectedLinks startLine endLine startCh endCh line
             (k + Z.of_nat i))).
Proof.
  revert k i. induction lines as [|l rest IH]; intros k i; [done|].
  destruct i as [|i]; simpl.
  - intros [= ->]. by rewrite Z.add_0_r.
  - intros Hi. rewrite (IH (k + 1) i Hi). do 3 f_equal. lia.
Qed.

(** The effect of [toggleLinksInSelection] on a well-formed buffer. *)
Lemma toggleLinksInSelection_doc e :
  Editor.wf e ->
  let '(startLine, endLine, startCh, endCh) :=
    selectionBounds (Editor.anchor e) (Editor.head e) in
  Editor.doc <$> toggleLinksInSelection e =
  Some (splicedLines startLine endLine startCh endCh (Editor.doc e) 0).
Proof.
  intros Hwf. unfold toggleLinksInSelection.
  rewrite selectionReplacements_plan.
  destruct (selectionBounds _ _) as [[[startLine endLine] startCh] endCh].
  rewrite (lines_of_wf _ Hwf). simpl. f_equal.
  by apply (applyAll_plan startLine endLine startCh endCh (Editor.doc e) e []).
Qed.

Lemma spliceFrom_nil line : spliceFrom line 0 [] = line.
Proof. simpl. by rewrite substringFrom_drop. Qed.

Lemma onlyTokensToggled_refl (lines : list str) : onlyTokensToggled lines lines.
Proof.
  split; [done|]. intros i line Hi. exists [].
  split; [apply sublist_nil_l|]. by rewrite spliceFrom_nil.
Qed.

(** One token of one line toggled in place. *)
Lemma onlyTokensToggled_token e (n : nat) line link :
  Editor.wf e ->
  Editor.doc e !! n = Some line ->
  link ∈ linksOf line ->
  onlyTokensToggled (Editor.doc e)
    (Editor.doc
       (Editor.replaceRange (toggleLink link)
          {| Pos.line := Z.of_nat n; Pos.ch := WikiLink.startCh link |}
          {| Pos.line := Z.of_nat n; Pos.ch := WikiLink.endCh link |} e)).
Proof.
  intros Hwf Hline Hin.
  assert (Htok : tokenOf line link).
  { pose proof (linksOf_tokens line) as Htoks.
    rewrite Forall_forall in Htoks. auto. }
  destruct (tokenOf_bounds _ _ Htok) as (Hs & Hlen & He).
  rewrite (replaceRange_token _ _ _ _ Hwf Hline Htok).
  split; [apply length_insert|]. intros i l Hi.
  destruct (decide (i = n)) as [->|Hne].
  - assert (l = line) as -> by congruence. exists [link].
    split; [by apply singleton_sublist_l|].
    rewrite list_lookup_insert_eq by (by eapply lookup_lt_Some).
    simpl. by rewrite substring_take, substringFrom_drop by lia.
  - exists []. split; [apply sublist_nil_l|].
    by rewrite list_lookup_insert_ne, spliceFrom_nil.
Qed.

(** Where the tokens the searches return come from. *)
Lemma lineLinks_origin (lines : list str) i found :
  found ∈ lineLinks lines i ->
  exists (n : nat) line,
    Nearest.line found = Z.of_nat n /\ lines !! n = Some line /\
    Nearest.link found ∈ linksOf line.
Proof.
  unfold lineLinks, JS.at_. destruct (i <? 0) eqn:Hi; [by intros ?%elem_of_nil|].
  apply Z.ltb_ge in Hi.
  destruct (lines !! Z.to_nat i) as [line|] eqn:Hl; [|by intros ?%elem_of_nil].
  intros (link & -> & Hlink)%list_elem_of_fmap.
  exists (Z.to_nat i), line. simpl. split; [lia|done].
Qed.

Lemma rangeLinks_origin (lines : list str) i n found :
  found ∈ rangeLinks lines i n ->
  exists (m : nat) line,
    Nearest.line found = Z.of_nat m /\ lines !! m = Some line /\
    Nearest.link found ∈ linksOf line.
Proof.
  revert i. induction n as [|n IH]; intros i; simpl.
  - by intros ?%elem_of_nil.
  - intros [Hin|Hin]%elem_of_app; [by eapply lineLinks_origin|by eapply IH].
Qed.

Lemma nearestScan_origin (lines : list str) cursorLine cursorCh found :
  nearestScan lines cursorLine cursorCh = Some found ->
  exists (m : nat) line,
    Nearest.line found = Z.of_nat m /\ lines !! m = Some line /\
    Nearest.link found ∈ linksOf line.
Proof.
  unfold nearestScan, forwardScan, backwardScan.
  destruct (List.find _ _) as [f|] eqn:Hfind.
  { intros [= <-]. apply find_some in Hfind as [Hin%list_elem_of_In _].
    by eapply lineLinks_origin. }
  destruct (head _) as [f|] eqn:Hhead.
  { intros [= <-]. apply head_Some_elem_of in Hhead.
    by eapply rangeLinks_origin. }
  destruct (last (List.filter _ _)) as [f|] eqn:Hlast.
  { intros [= <-]. apply last_Some_elem_of, list_elem_of_In in Hlast.
    apply filter_In in Hlast as [Hin%list_elem_of_In _].
    by eapply lineLinks_origin. }
  intros Hlast'%last_Some_elem_of. by eapply rangeLinks_origin.
Qed.

(** Whatever "toggle current/selected" does, it only toggles tokens where
    they stand. *)
Lemma toggleCurrentOrSelected_frame e :
  Editor.wf e ->
  exists e',
    toggleCurrentOrSelected e = Some e' /\
    onlyTokensToggled (Editor.doc e) (Editor.doc e').
Proof.
  intros Hwf. unfold toggleCurrentOrSelected.
  destruct (JS.length (Editor.getSelection e) >? 0).
  - pose proof (toggleLinksInSelection_doc e Hwf) as Hdoc.
    destruct (selectionBounds _ _) as [[[startLine endLine] startCh] endCh].
    destruct (toggleLinksInSelection e) as [e'|]; [|done].
    injection Hdoc as Hdoc. exists e'. split; [done|]. rewrite Hdoc.
    split; [apply splicedLines_length|]. intros i line Hi.
    eexists. split; [|by apply splicedLines_lookup].
    apply selectedLinks_sublist.
  - rewrite findLinkAtCursor_find. simpl.
    set (cursor := Editor.getCursor e).
    destruct (List.find _ _) as [link|] eqn:Hfind.
    + apply find_some in Hfind as [Hin%list_elem_of_In _].
      eexists. split; [done|].
      unfold Editor.getLine, JS.at_ in Hin.
      destruct (Pos.line cursor <? 0) eqn:Hneg;
        [by apply elem_of_nil in Hin|].
      apply Z.ltb_ge in Hneg.
      destruct (Editor.doc e !! Z.to_nat (Pos.line cursor)) as [line|] eqn:Hl;
        [|by apply elem_of_nil in Hin].
      simpl in Hin.
      replace (Pos.line cursor) with (Z.of_nat (Z.to_nat (Pos.line cursor)))
        by lia.
      by apply onlyTokensToggled_token with line.
    + rewrite findNearestLink_nearestScan, (lines_of_wf _ Hwf). simpl.
      destruct (nearestScan _ _ _) as [found|] eqn:Hnear.
      * apply nearestScan_origin in Hnear as (m & line & Hm & Hl & Hin).
        eexists. split; [done|]. rewrite Hm.
        by apply onlyTokensToggled_token with line.
      * eexists. split; [done|]. apply onlyTokensToggled_refl.
Qed.

(** And so does "toggle all": every token of every line. *)
Lemma toggleAllLinks_frame e :
  Editor.wf e ->
  exists e',
    toggleAllLinks e = Some e' /\
    onlyTokensToggled (Editor.doc e) (Editor.doc e').
Proof.
  intros Hwf. pose proof (toggleAllLinks_doc e Hwf) as Hdoc.
  destruct (toggleAllLinks e) as [e'|]; [|done].
  injection Hdoc as Hdoc. exists e'. split; [done|]. rewrite Hdoc.
  split; [apply length_map|]. intros i line Hi.
  exists (linksOf line). split; [done|].
  change (map toggledLine (Editor.doc e)) with (toggledLine <$> Editor.doc e).
  by rewrite list_lookup_fmap, Hi.
Qed.

End Frame.

(** C9: on a well-formed buffer every toggle command only toggles tokens
    where they stand: after "toggle current/selected" and after "toggle
    all" the buffer has as many lines as before, and each line is the old
    line with some of its tokens replaced by their toggled form and every
    code unit outside those tokens copied from the old line.  In
    particular, with no selection and the cursor on a token of its line,
    "toggle current/selected" issues one [replaceRange] over the token's
    range; the cursor's line keeps every code unit before [startCh] and
    from [endCh] on, the token between them (which is what the range held)
    is replaced by its toggled form, and every other line is unchanged. *)
Theorem toggle_commands_frame (e : Editor.t) :
  Editor.wf e ->
  (forall (n : nat) (line : str) (link : WikiLink.t),
     Editor.anchor e = Editor.head e ->
     Pos.line (Editor.head e) = Z.of_nat n ->
     Editor.doc e !! n = Some line ->
     findLinkAtCursor line (Pos.ch (Editor.head e)) = Some (Some link) ->
     exists e',
       toggleCurrentOrSelected e = Some e' /\
       Editor.calls e' =
         Editor.calls e ++
         [{| Replacement.from :=
               {| Pos.line := Z.of_nat n; Pos.ch := WikiLink.startCh link |};
             Replacement.to :=
               {| Pos.line := Z.of_nat n; Pos.ch := WikiLink.endCh link |};
             Replacement.text := toggleLink link |}] /\
       line = take (Z.to_nat (WikiLink.startCh link)) line
              ++ WikiLink.fullText link
              ++ drop (Z.to_nat (WikiLink.endCh link)) line /\
       Editor.doc e' !! n =
         Some (take (Z.to_nat (WikiLink.startCh link)) line
               ++ toggleLink link
               ++ drop (Z.to_nat (WikiLink.endCh link)) line) /\
       (forall m, m <> n -> Editor.doc e' !! m = Editor.doc e !! m) /\
       length (Editor.doc e') = length (Editor.doc e)) /\
  (exists e',
     toggleCurrentOrSelected e = Some e' /\
     onlyTokensToggled (Editor.doc e) (Editor.doc e')) /\
  (exists e',
     toggleAllLinks e = Some e' /\
     onlyTokensToggled (Editor.doc e) (Editor.doc e')).
Proof.
  intros Hwf. split; [|split].
  - intros n line link Hsel Hn Hline Hfind.
    destruct (findLinkAtCursor_token _ _ _ Hfind) as (_ & Htok & _).
    unfold toggleCurrentOrSelected.
    rewrite (getSelection_cursor _ Hsel). simpl (JS.length [] >? 0).
    cbv iota. unfold Editor.getCursor. rewrite Hn.
    rewrite (getLine_lookup _ _ _ Hline), Hfind. simpl.
    eexists. split; [done|]. split; [done|].
    split; [by apply tokenOf_cut|].
    rewrite (replaceRange_token _ _ _ _ Hwf Hline Htok).
    split; [|split].
    + apply list_lookup_insert_eq. by eapply lookup_lt_Some.
    + intros m Hm. by apply list_lookup_insert_ne.
    + apply length_insert.
  - by apply toggleCurrentOrSelected_frame.
  - by apply toggleAllLinks_frame.
Qed.

Lemma toggle_commands_frame_witness :
  exists e',
    toggleCurrentOrSelected
      (Editor.open (JS.lit "Some text [[Note A]] more text")
         {| Pos.line := 0; Pos.ch := 15 |}) = Some e' /\
    Editor.doc e' !! 0%nat = Some (JS.lit "Some text ![[Note A]] more text").
Proof.
  destruct (toggle_commands_frame
              (Editor.open (JS.lit "Some text [[Note A]] more text")
                 {| Pos.line := 0; Pos.ch := 15 |})) as (Hhit & _ & _).
  - split; [discriminate|]. vm_compute. repeat constructor.
    all: intros H; repeat (inversion H as [|? ? ? H']; clear H; rename H' into H).
  - destruct (Hhit 0%nat (JS.lit "Some text [[Note A]] more text")
                (parseWikiLink (JS.lit "[[Note A]]") 10 20))
      as (e' & Heq & _ & _ & Hline & _).
    + reflexivity.
    + reflexivity.
    + reflexivity.
    + vm_compute. reflexivity.
    + exists e'. split; [exact Heq|]. exact Hline.
Defined.

(** * Further properties of the code *)

(** ** What the pattern matches, and that no link is missed *)

(** X1: the pattern matches at the start of a text exactly when the text
    starts with an optional [!], two opening brackets, at least one code
    unit none of which is a closing bracket, and two closing brackets; the
    match is that link text and nothing more. *)
Theorem matchAt_wikiLinkPattern_iff (s : str) (n : nat) :
  matchAt wikiLinkPattern s = Some n <->
  exists marker p rest,
    s = rawLink marker p ++ rest /\
    p <> [] /\ (RBRACKET ∉ p) /\ n = length (rawLink marker p).
Proof.
  split; [apply matchAt_wikiLink_inv|].
  intros (marker & p & rest & -> & Hp & Hclose & ->).
  by apply matchAt_wikiLink_intro.
Qed.

Section Leftmost.

Implicit Types (line s : str).

Lemma search_None r s i d :
  search r s i = None -> (d <= length s)%nat -> matchAt r (drop d s) = None.
Proof.
  revert i d. induction s as [|c s IH]; intros i d; simpl.
  - destruct (matchAt r []) eqn:Hm; [done|]. intros _ Hd.
    by replace d with 0%nat by lia.
  - destruct (matchAt r (c :: s)) eqn:Hm; [done|]. intros Hs Hd.
    destruct d as [|d]; [done|]. simpl. eapply IH; [exact Hs|lia].
Qed.

Lemma search_leftmost r s i j n d :
  search r s i = Some (j, n) -> (i + d < j)%nat ->
  matchAt r (drop d s) = None.
Proof.
  revert i d. induction s as [|c s IH]; intros i d; simpl.
  - destruct (matchAt r []) eqn:Hm; [|done]. intros [= <- <-]. lia.
  - destruct (matchAt r (c :: s)) eqn:Hm.
    + intros [= <- <-]. lia.
    + intros Hs Hd. destruct d as [|d]; [done|]. simpl.
      eapply IH; [exact Hs|lia].
Qed.

(** Nothing matches between [lastIndex] and the match [exec] returns, and
    nothing matches from [lastIndex] on when it returns [null]. *)
Lemma exec_skips r line lastIndex m lastIndex' (k : nat) :
  exec r line lastIndex = (Some m, lastIndex') ->
  (lastIndex <= k < index m)%nat ->
  matchAt r (drop k line) = None.
Proof.
  unfold exec. destruct (length line <? lastIndex)%nat; [done|].
  destruct (search _ _ _) as [[j n]|] eqn:Hs; [|done].
  intros [= <- <-]. simpl. intros Hk.
  replace k with (lastIndex + (k - lastIndex))%nat by lia.
  rewrite <- drop_drop. eapply search_leftmost; [exact Hs|lia].
Qed.

Lemma exec_null r line lastIndex lastIndex' (k : nat) :
  exec r line lastIndex = (None, lastIndex') ->
  (lastIndex <= k <= length line)%nat ->
  matchAt r (drop k line) = None.
Proof.
  unfold exec. destruct (length line <? lastIndex)%nat eqn:Hlen.
  { apply Nat.ltb_lt in Hlen. lia. }
  destruct (search _ _ _) as [[j n]|] eqn:Hs; [done|].
  intros _ Hk.
  replace k with (lastIndex + (k - lastIndex))%nat by lia.
  rewrite <- drop_drop. eapply search_None; [exact Hs|].
  rewrite length_drop. lia.
Qed.

Lemma findAllLinksInLine_loop_covers fuel line lastIndex links (k n : nat) :
  findAllLinksInLine_loop fuel line lastIndex [] = Some links ->
  (lastIndex <= k <= length line)%nat ->
  matchAt wikiLinkPattern (drop k line) = Some n ->
  exists link,
    link ∈ links /\
    WikiLink.startCh link <= Z.of_nat k < WikiLink.endCh link.
Proof.
  revert lastIndex links. induction fuel as [|fuel IH]; intros i links; [done|].
  rewrite findAllLinksInLine_loop_step.
  destruct (exec wikiLinkPattern line i) as [[m|] i'] eqn:Hexec.
  - destruct (findAllLinksInLine_loop fuel line i' []) as [rest|] eqn:Hrest;
      [|done].
    intros [= <-] Hk Hmatch.
    pose proof (exec_token _ _ _ _ Hexec) as (_ & Hstart & _ & Hend).
    pose proof (exec_progress _ _ _ _ Hexec) as Hprog.
    destruct (decide (k < index m)%nat) as [Hlt|Hge].
    { rewrite (exec_skips _ _ _ _ _ k Hexec) in Hmatch by lia. done. }
    destruct (decide (k < i')%nat) as [Hin|Hout].
    + eexists. split; [apply list_elem_of_here|].
      rewrite Hend. unfold parseWikiLink, matchStart. simpl. lia.
    + destruct (IH i' rest Hrest) as (link & Hlink & Hrange); [lia|done|].
      exists link. split; [by apply list_elem_of_further|done].
  - intros _ Hk Hmatch.
    rewrite (exec_null _ _ _ _ k Hexec) in Hmatch by lia. done.
Qed.

End Leftmost.

(** X2: no link is missed: wherever a link text stands in the line, the scan
    returns a token whose range holds the offset at which it starts. *)
Theorem findAllLinksInLine_covers (line before after : str)
    (marker : bool) (p : str) :
  p <> [] -> RBRACKET ∉ p ->
  line = before ++ rawLink marker p ++ after ->
  exists links link,
    findAllLinksInLine line = Some links /\
    link ∈ links /\
    WikiLink.startCh link <= JS.length before < WikiLink.endCh link.
Proof.
  intros Hp Hclose Hline. exists (linksOf line).
  pose proof (findAllLinksInLine_linksOf line) as Hscan.
  destruct (findAllLinksInLine_loop_covers _ _ _ _ (length before)
              (length (rawLink marker p)) Hscan) as (link & Hin & Hrange).
  - rewrite Hline, length_app. lia.
  - rewrite Hline, drop_app_length. by apply matchAt_wikiLink_intro.
  - by exists link.
Qed.

Lemma findAllLinksInLine_covers_witness :
  exists links link,
    findAllLinksInLine (JS.lit "see [![[a]] here") = Some links /\
    link ∈ links /\
    WikiLink.startCh link <= 5 < WikiLink.endCh link.
Proof.
  apply (findAllLinksInLine_covers (JS.lit "see [![[a]] here")
           (JS.lit "see [") (JS.lit " here") true (JS.lit "a")).
  - discriminate.
  - intros H. vm_compute in H.
    repeat (inversion H as [|? ? ? H']; clear H; rename H' into H).
  - reflexivity.
Defined.

(** ** What a token records *)

(** X3: every token the scan returns records the piece of the line it stands
    for: its text is the line from [startCh] to [endCh], at least five code
    units long, its path is what lies between the brackets, its marker flag
    tells whether the line has [!] at [startCh], and its [startLine] is
    left at 0 whatever line it came from. *)
Theorem token_records_its_range (line : str) (links : list WikiLink.t)
    (link : WikiLink.t) :
  findAllLinksInLine line = Some links -> link ∈ links ->
  WikiLink.fullText link =
    JS.substring line (WikiLink.startCh link) (WikiLink.endCh link) /\
  JS.length (WikiLink.fullText link) =
    WikiLink.endCh link - WikiLink.startCh link /\
  5 <= WikiLink.endCh link - WikiLink.startCh link /\
  WikiLink.path link =
    JS.substring line
      (WikiLink.startCh link
       + (if WikiLink.hasTransclusion link then 3 else 2))
      (WikiLink.endCh link - 2) /\
  (WikiLink.hasTransclusion link = true <->
   JS.at_ line (WikiLink.startCh link) = Some BANG) /\
  WikiLink.startLine link = 0.
Proof.
  intros Hscan Hin.
  assert (links = linksOf line) as ->
    by (rewrite findAllLinksInLine_linksOf in Hscan; congruence).
  pose proof (linksOf_tokens line) as Htoks. rewrite Forall_forall in Htoks.
  pose proof (Htoks _ Hin) as Htok.
  destruct (tokenOf_bounds _ _ Htok) as (Hs & Hlen & He).
  destruct Htok as [Hp _ Htext Hzero _ Hend (before & after & Hline & Hbefore)].
  unfold JS.length in *.
  assert (Hstart : Z.to_nat (WikiLink.startCh link) = length before) by lia.
  split; [|split; [lia|split; [lia|split; [|split; [|done]]]]].
  - rewrite substring_spec by lia. rewrite Hstart, Hline, drop_app_length.
    apply symmetry, take_app_length'. lia.
  - rewrite substring_spec by (destruct (WikiLink.hasTransclusion link); lia).
    rewrite Htext in Hline, Hend. rewrite rawLink_length in Hend.
    rewrite Hline. unfold rawLink.
    destruct (WikiLink.hasTransclusion link); simpl app.
    + replace (Z.to_nat (WikiLink.startCh link + 3))
        with (length before + 3)%nat by lia.
      rewrite drop_app_add. simpl. rewrite <- app_assoc.
      apply symmetry, take_app_length'. lia.
    + replace (Z.to_nat (WikiLink.startCh link + 2))
        with (length before + 2)%nat by lia.
      rewrite drop_app_add. simpl. rewrite <- app_assoc.
      apply symmetry, take_app_length'. lia.
  - unfold JS.at_.
    replace (WikiLink.startCh link <? 0) with false
      by (symmetry; apply Z.ltb_ge; lia).
    rewrite Hstart, Hline, Htext. unfold rawLink.
    destruct (WikiLink.hasTransclusion link); simpl app;
      rewrite list_lookup_middle by done.
    + tauto.
    + split; [done|]. intros [=].
Qed.

Lemma token_records_its_range_witness :
  WikiLink.fullText (parseWikiLink (JS.lit "![[b|c]]") 2 10) =
  JS.substring (JS.lit "a ![[b|c]] d") 2 10.
Proof.
  apply (token_records_its_range (JS.lit "a ![[b|c]] d")
           [parseWikiLink (JS.lit "![[b|c]]") 2 10]).
  - vm_compute. reflexivity.
  - apply list_elem_of_here.
Defined.

(** X4: [parseWikiLink] takes any text and cuts the path out by position
    alone: three code units off the front when the text starts with [!],
    two otherwise, and two off the end, whatever those code units are.
    [toggleLink] then puts brackets of its own around that path.  A text
    too short to hold the brackets gives the empty path, not an error. *)
Theorem parseWikiLink_any_text (fullText : str) (startCh endCh : Z) :
  let link := parseWikiLink fullText startCh endCh in
  let skipped :=
    if JS.startsWith fullText (JS.lit "!") then 3%nat else 2%nat in
  WikiLink.path link =
    take (length fullText - skipped - 2) (drop skipped fullText) /\
  toggleLink link =
    rawLink (negb (JS.startsWith fullText (JS.lit "!")))
      (take (length fullText - skipped - 2) (drop skipped fullText)) /\
  ((length fullText <= skipped + 2)%nat -> WikiLink.path link = []).
Proof.
  intros link skipped.
  assert (Hpath : WikiLink.path link =
            take (length fullText - skipped - 2) (drop skipped fullText)).
  { subst link skipped. unfold parseWikiLink. cbn [WikiLink.path].
    destruct (JS.startsWith fullText (JS.lit "!"));
      unfold JS.slice, JS.relIndex, JS.length;
      change (-2 <? 0) with true;
      [change (3 <? 0) with false|change (2 <? 0) with false]; cbv iota.
    - destruct (decide (3 <= length fullText)%nat) as [Hlen|Hlen].
      + f_equal; [lia|f_equal; lia].
      + rewrite (drop_ge fullText 3) by lia.
        rewrite drop_ge by lia. by rewrite !take_nil.
    - destruct (decide (2 <= length fullText)%nat) as [Hlen|Hlen].
      + f_equal; [lia|f_equal; lia].
      + rewrite (drop_ge fullText 2) by lia.
        rewrite drop_ge by lia. by rewrite !take_nil. }
  split; [done|]. split.
  - by rewrite toggleLink_raw, Hpath.
  - intros Hshort. rewrite Hpath.
    by replace (length fullText - skipped - 2)%nat with 0%nat by lia.
Qed.

Lemma parseWikiLink_any_text_witness :
  WikiLink.path (parseWikiLink (JS.lit "![]") 0 3) = [].
Proof.
  destruct (parseWikiLink_any_text (JS.lit "![]") 0 3)
    as (_ & _ & Hshort).
  apply Hshort. simpl. lia.
Defined.

(** ** Lengths *)

Section Lengths.

Implicit Types (line : str) (links : list WikiLink.t).

Lemma toggleLink_length line link :
  tokenOf line link ->
  JS.length (toggleLink link) =
  JS.length (WikiLink.fullText link)
  + (if WikiLink.hasTransclusion link then -1 else 1).
Proof.
  intros Htok. rewrite toggleLink_raw, (tok_text _ _ Htok).
  unfold JS.length. rewrite !rawLink_length.
  destruct (WikiLink.hasTransclusion link); simpl; lia.
Qed.

Lemma spliceFrom_length line pos links :
  Forall (tokenOf line) links -> ascendingFrom pos links ->
  0 <= pos <= JS.length line ->
  JS.length (spliceFrom line pos links) =
  JS.length line - pos + lengthChange links.
Proof.
  intros Htoks. revert pos.
  induction Htoks as [|link rest Htok _ IH]; intros pos Hasc Hpos; simpl.
  - rewrite substringFrom_drop by lia. unfold JS.length in *.
    rewrite length_drop. lia.
  - destruct Hasc as (Hle & Hne & Hrest).
    destruct (tokenOf_bounds _ _ Htok) as (Hs & _ & He).
    rewrite !JS_length_app, (IH (WikiLink.endCh link)) by (done || lia).
    rewrite (toggleLink_length _ _ Htok), (tok_end _ _ Htok).
    rewrite substring_spec by lia. pose proof (tok_end _ _ Htok) as Hend.
    unfold JS.length in *. rewrite length_take, length_drop. lia.
Qed.

End Lengths.

(** X5: toggling changes lengths by the markers alone: a token grows by one
    code unit when it gains its [!] and shrinks by one when it loses it,
    and a line rewritten by "toggle all" is longer than the old one by the
    number of its plain links minus the number of its embeds. *)
Theorem toggle_length_change (line : str) :
  exists links newLine,
    findAllLinksInLine line = Some links /\
    toggleLine line = Some newLine /\
    JS.length newLine = JS.length line + lengthChange links /\
    Forall
      (fun link =>
         JS.length (toggleLink link) =
         WikiLink.endCh link - WikiLink.startCh link
         + (if WikiLink.hasTransclusion link then -1 else 1))
      links.
Proof.
  exists (linksOf line), (toggledLine line).
  split; [apply findAllLinksInLine_linksOf|].
  split; [apply toggleLine_toggledLine|]. split.
  - unfold toggledLine. rewrite (spliceFrom_length line 0).
    + lia.
    + apply linksOf_tokens.
    + apply linksOf_ascending.
    + pose proof (JS_length_nonneg line). lia.
  - eapply Forall_impl; [apply linksOf_tokens|]. intros link Htok. simpl.
    rewrite (toggleLink_length _ _ Htok), (tok_end _ _ Htok). lia.
Qed.

(** ** The selection command, line by line *)

Section SelectionEffect.

Implicit Types (e : Editor.t) (line : str) (lines : list str).

Lemma filter_all {A} (f : A -> bool) (l : list A) :
  Forall (fun x => f x = true) l -> List.filter f l = l.
Proof.
  induction 1 as [|x l Hx _ IH]; simpl; [done|]. by rewrite Hx, IH.
Qed.

Lemma filter_same {A} (f g : A -> bool) (l : list A) :
  Forall (fun x => f x = g x) l -> List.filter f l = List.filter g l.
Proof.
  induction 1 as [|x l Hx _ IH]; simpl; [done|]. by rewrite Hx, IH.
Qed.

Lemma applyAll_calls e (plan : list Replacement.t) :
  Editor.calls (applyAll e plan) = Editor.calls e ++ plan.
Proof.
  revert e. induction plan as [|r plan IH]; intros e; simpl.
  - by rewrite app_nil_r.
  - fold (applyAll
            (Editor.replaceRange (Replacement.text r) (Replacement.from r)
               (Replacement.to r) e) plan).
    rewrite IH. simpl. rewrite <- app_assoc. by destruct r.
Qed.

(** The buffer after [toggleLinksInSelection], read line by line. *)
Lemma toggleLinksInSelection_lookup e :
  Editor.wf e ->
  exists e',
    toggleLinksInSelection e = Some e' /\
    length (Editor.doc e') = length (Editor.doc e) /\
    forall (i : nat) line,
      Editor.doc e !! i = Some line ->
      Editor.doc e' !! i =
      Some (spliceFrom line 0
              (let '(startLine, endLine, startCh, endCh) :=
                 selectionBounds (Editor.anchor e) (Editor.head e) in
               selectedLinks startLine endLine startCh endCh line
                 (Z.of_nat i))).
Proof.
  intros Hwf. pose proof (toggleLinksInSelection_doc e Hwf) as Hdoc.
  destruct (selectionBounds _ _) as [[[startLine endLine] startCh] endCh].
  destruct (toggleLinksInSelection e) as [e'|]; [|done].
  injection Hdoc as Hdoc. exists e'. split; [done|]. rewrite Hdoc.
  split; [apply splicedLines_length|].
  intros i line Hi. rewrite (splicedLines_lookup _ _ _ _ _ _ _ _ Hi).
  by rewrite Z.add_0_l.
Qed.

Lemma getSelection_several_lines e :
  Pos.line (Editor.anchor e) < Pos.line (Editor.head e) ->
  (JS.length (Editor.getSelection e) >? 0) = true.
Proof.
  intros Hlt. unfold Editor.getSelection, Editor.posLeb, Editor.getRange.
  replace (Pos.line (Editor.anchor e) <? Pos.line (Editor.head e)) with true
    by (symmetry; by apply Z.ltb_lt).
  replace (Pos.line (Editor.anchor e) =? Pos.line (Editor.head e)) with false
    by (symmetry; apply Z.eqb_neq; lia).
  simpl. apply Z.gtb_lt. rewrite JS_length_app.
  pose proof (JS_length_nonneg
                (JS.substringFrom
                   (Editor.getLine e (Pos.line (Editor.anchor e)))
                   (Pos.ch (Editor.anchor e)))).
  unfold JS.length at 2. simpl length. lia.
Qed.

End SelectionEffect.

(** X6: on a well-formed buffer the selection command leaves every line
    outside the selected lines as it is, toggles every token of every line
    strictly between the first and the last selected line, and on the
    first line of a selection of several lines toggles the tokens that
    start at or after the start character it computed. *)
Theorem toggleLinksInSelection_by_line (e : Editor.t) :
  Editor.wf e ->
  let startLine :=
    Z.min (Pos.line (Editor.anchor e)) (Pos.line (Editor.head e)) in
  let endLine :=
    Z.max (Pos.line (Editor.anchor e)) (Pos.line (Editor.head e)) in
  let startCh :=
    if Pos.line (Editor.anchor e) <? Pos.line (Editor.head e)
    then Pos.ch (Editor.anchor e)
    else Z.min (Pos.ch (Editor.anchor e)) (Pos.ch (Editor.head e)) in
  exists e',
    toggleLinksInSelection e = Some e' /\
    length (Editor.doc e') = length (Editor.doc e) /\
    forall (i : nat) line,
      Editor.doc e !! i = Some line ->
      (Z.of_nat i < startLine \/ endLine < Z.of_nat i ->
       Editor.doc e' !! i = Some line) /\
      (startLine < Z.of_nat i < endLine ->
       Editor.doc e' !! i = Some (toggledLine line)) /\
      (Z.of_nat i = startLine -> startLine < endLine ->
       Editor.doc e' !! i =
       Some (spliceFrom line 0
               (List.filter
                  (fun link => WikiLink.startCh link >=? startCh)
                  (linksOf line)))).
Proof.
  intros Hwf startLine endLine startCh.
  destruct (toggleLinksInSelection_lookup e Hwf) as (e' & Heq & Hlen & Hdoc).
  exists e'. split; [done|]. split; [done|].
  intros i line Hi. rewrite (Hdoc i line Hi). unfold selectionBounds.
  fold startLine endLine startCh. unfold selectedLinks.
  split; [|split].
  - intros Hout.
    replace ((Z.of_nat i <? startLine) || (Z.of_nat i >? endLine)) with true.
    + by rewrite spliceFrom_nil.
    + symmetry. apply orb_true_iff. rewrite Z.ltb_lt, Z.gtb_lt. lia.
  - intros Hin.
    replace ((Z.of_nat i <? startLine) || (Z.of_nat i >? endLine)) with false
      by (symmetry; apply orb_false_iff; rewrite Z.ltb_ge, Z.gtb_ltb, Z.ltb_ge;
          lia).
    rewrite filter_all; [done|]. apply Forall_forall. intros link _.
    unfold inSelection.
    replace (Z.of_nat i =? startLine) with false
      by (symmetry; apply Z.eqb_neq; lia).
    replace (Z.of_nat i =? endLine) with false
      by (symmetry; apply Z.eqb_neq; lia).
    done.
  - intros Hfirst Hseveral.
    replace ((Z.of_nat i <? startLine) || (Z.of_nat i >? endLine)) with false
      by (symmetry; apply orb_false_iff; rewrite Z.ltb_ge, Z.gtb_ltb, Z.ltb_ge;
          lia).
    do 2 f_equal. apply filter_same, Forall_forall. intros link _.
    unfold inSelection.
    replace (Z.of_nat i =? startLine) with true
      by (symmetry; apply Z.eqb_eq; lia).
    replace (Z.of_nat i =? endLine) with false
      by (symmetry; apply Z.eqb_neq; lia).
    done.
Qed.

Lemma toggleLinksInSelection_by_line_witness :
  exists e',
    toggleLinksInSelection
      (Editor.select
         (JS.join [JS.lit "[[A]]"; JS.lit "x [[B]]"; JS.lit "[[C]]";
                   JS.lit "[[D]]"; JS.lit "[[E]]"] NEWLINE)
         {| Pos.line := 3; Pos.ch := 0 |} {| Pos.line := 1; Pos.ch := 4 |})
    = Some e' /\
    Editor.doc e' !! 0%nat = Some (JS.lit "[[A]]") /\
    Editor.doc e' !! 2%nat = Some (JS.lit "![[C]]") /\
    Editor.doc e' !! 4%nat = Some (JS.lit "[[E]]").
Proof.
  destruct (toggleLinksInSelection_by_line
              (Editor.select
                 (JS.join [JS.lit "[[A]]"; JS.lit "x [[B]]"; JS.lit "[[C]]";
                           JS.lit "[[D]]"; JS.lit "[[E]]"] NEWLINE)
                 {| Pos.line := 3; Pos.ch := 0 |}
                 {| Pos.line := 1; Pos.ch := 4 |}))
    as (e' & Heq & _ & Hlines).
  - split; [discriminate|]. vm_compute. repeat constructor.
    all: intros H; repeat (inversion H as [|? ? ? H']; clear H; rename H' into H).
  - exists e'. split; [exact Heq|]. split; [|split].
    + apply (Hlines 0%nat (JS.lit "[[A]]")); [reflexivity|]. left. reflexivity.
    + destruct (Hlines 2%nat (JS.lit "[[C]]")) as (_ & Hmid & _);
        [reflexivity|].
      rewrite Hmid; [vm_compute; reflexivity|]. split; reflexivity.
    + apply (Hlines 4%nat (JS.lit "[[E]]")); [reflexivity|]. right. reflexivity.
Defined.

Section SelectionShapes.

Implicit Types (e : Editor.t) (line : str).

Lemma toggleLinksInSelection_calls e :
  Editor.calls <$> toggleLinksInSelection e =
  Some (Editor.calls e ++
        (let '(startLine, endLine, startCh, endCh) :=
           selectionBounds (Editor.anchor e) (Editor.head e) in
         selectionPlan startLine endLine startCh endCh
           (JS.split (Editor.getValue e) NEWLINE) 0)).
Proof.
  unfold toggleLinksInSelection. rewrite selectionReplacements_plan.
  destruct (selectionBounds _ _) as [[[startLine endLine] startCh] endCh].
  simpl. f_equal.
  apply (applyAll_calls e
           (selectionPlan startLine endLine startCh endCh
              (JS.split (Editor.getValue e) NEWLINE) 0)).
Qed.

Lemma selectionBounds_same_line (a h : Pos.t) :
  Pos.line a = Pos.line h ->
  selectionBounds a h =
  (Pos.line a, Pos.line a,
   Z.min (Pos.ch a) (Pos.ch h), Z.max (Pos.ch a) (Pos.ch h)).
Proof.
  intros Heq. unfold selectionBounds. rewrite <- Heq.
  by rewrite Z.ltb_irrefl, Z.min_id, Z.max_id.
Qed.

Lemma wf_swapSelection e : Editor.wf e -> Editor.wf (swapSelection e).
Proof. done. Qed.

(** A document equal, line by line, to the spliced lines of another. *)
Lemma doc_eq_by_lines (before after expected : list str) :
  length after = length before ->
  length expected = length before ->
  (forall i line, before !! i = Some line -> after !! i = expected !! i) ->
  after = expected.
Proof.
  intros Hafter Hexpected Hlines. apply list_eq. intros i.
  destruct (before !! i) as [line|] eqn:Hi; [by eapply Hlines|].
  apply lookup_ge_None in Hi.
  rewrite !lookup_ge_None_2 by lia. done.
Qed.

End SelectionShapes.

(** X7: a selection inside one line toggles exactly the tokens of that line
    that lie wholly between the smaller and the larger of the two
    character offsets, and nothing on any other line; taking the selection
    in the other direction gives the same buffer and the same calls. *)
Theorem toggleLinksInSelection_single_line (e : Editor.t) (n : nat)
    (line : str) :
  Editor.wf e ->
  Pos.line (Editor.anchor e) = Z.of_nat n ->
  Pos.line (Editor.head e) = Z.of_nat n ->
  Editor.doc e !! n = Some line ->
  let lo := Z.min (Pos.ch (Editor.anchor e)) (Pos.ch (Editor.head e)) in
  let hi := Z.max (Pos.ch (Editor.anchor e)) (Pos.ch (Editor.head e)) in
  exists e' e'',
    toggleLinksInSelection e = Some e' /\
    toggleLinksInSelection (swapSelection e) = Some e'' /\
    Editor.doc e' =
      <[n := spliceFrom line 0
               (List.filter (fullyInside lo hi) (linksOf line))]>
        (Editor.doc e) /\
    Editor.doc e'' = Editor.doc e' /\
    Editor.calls e'' = Editor.calls e'.
Proof.
  intros Hwf Ha Hh Hline lo hi.
  assert (Hshape : forall x,
    Editor.wf x -> Editor.doc x = Editor.doc e ->
    selectionBounds (Editor.anchor x) (Editor.head x) =
      (Z.of_nat n, Z.of_nat n, lo, hi) ->
    exists x',
      toggleLinksInSelection x = Some x' /\
      Editor.doc x' =
        <[n := spliceFrom line 0
                 (List.filter (fullyInside lo hi) (linksOf line))]>
          (Editor.doc e) /\
      Editor.calls x' =
        Editor.calls x ++
        selectionPlan (Z.of_nat n) (Z.of_nat n) lo hi (Editor.doc e) 0).
  { intros x Hwfx Hdocx Hbounds.
    destruct (toggleLinksInSelection_lookup x Hwfx) as (x' & Heq & Hlen & Hdoc).
    pose proof (toggleLinksInSelection_calls x) as Hcalls.
    rewrite Heq, Hbounds, (lines_of_wf _ Hwfx), Hdocx in Hcalls.
    injection Hcalls as Hcalls.
    exists x'. split; [done|]. split; [|done].
    rewrite Hdocx in Hlen, Hdoc.
    apply (doc_eq_by_lines (Editor.doc e)); [done|apply length_insert|].
    intros i l Hi. rewrite (Hdoc i l Hi), Hbounds. unfold selectedLinks.
    destruct (decide (i = n)) as [->|Hne].
    - assert (l = line) as -> by congruence.
      rewrite list_lookup_insert_eq by (by eapply lookup_lt_Some).
      replace ((Z.of_nat n <? Z.of_nat n) || (Z.of_nat n >? Z.of_nat n))
        with false
        by (symmetry; apply orb_false_iff;
            rewrite Z.ltb_ge, Z.gtb_ltb, Z.ltb_ge; lia).
      do 2 f_equal. apply filter_same, Forall_forall. intros link _.
      unfold inSelection, fullyInside. by rewrite Z.eqb_refl.
    - rewrite list_lookup_insert_ne by done.
      replace ((Z.of_nat i <? Z.of_nat n) || (Z.of_nat i >? Z.of_nat n))
        with true
        by (symmetry; apply orb_true_iff; rewrite Z.ltb_lt, Z.gtb_lt; lia).
      by rewrite spliceFrom_nil. }
  destruct (Hshape e Hwf eq_refl) as (e' & Heq' & Hdoc' & Hcalls').
  { rewrite selectionBounds_same_line by congruence. by rewrite Ha. }
  destruct (Hshape (swapSelection e) (wf_swapSelection e Hwf) eq_refl)
    as (e'' & Heq'' & Hdoc'' & Hcalls'').
  { simpl. rewrite selectionBounds_same_line by congruence.
    rewrite Hh. subst lo hi. by rewrite Z.min_comm, Z.max_comm. }
  exists e', e''. split; [done|]. split; [done|]. split; [done|].
  split; [congruence|]. by rewrite Hcalls', Hcalls''.
Qed.

Lemma toggleLinksInSelection_single_line_witness :
  exists e',
    toggleLinksInSelection
      (Editor.select (JS.lit "[[A]] [[B]] [[C]]")
         {| Pos.line := 0; Pos.ch := 13 |} {| Pos.line := 0; Pos.ch := 4 |})
    = Some e' /\
    Editor.doc e' = [JS.lit "[[A]] ![[B]] [[C]]"].
Proof.
  destruct (toggleLinksInSelection_single_line
              (Editor.select (JS.lit "[[A]] [[B]] [[C]]")
                 {| Pos.line := 0; Pos.ch := 13 |}
                 {| Pos.line := 0; Pos.ch := 4 |})
              0%nat (JS.lit "[[A]] [[B]] [[C]]"))
    as (e' & _ & Heq & _ & Hdoc & _).
  - split; [discriminate|]. vm_compute. repeat constructor.
    all: intros H; repeat (inversion H as [|? ? ? H']; clear H; rename H' into H).
  - reflexivity.
  - reflexivity.
  - reflexivity.
  - exists e'. split; [exact Heq|]. rewrite Hdoc. vm_compute. reflexivity.
Defined.

(** X8: selecting forward from the very start of the buffer to anywhere on
    its last line, in a buffer of several lines, and running "toggle
    current/selected" gives the same lines as "toggle all": on the last
    line the end of the selection plays no part. *)
Theorem select_all_forward_is_toggle_all (e : Editor.t) :
  Editor.wf e ->
  Pos.line (Editor.anchor e) = 0 ->
  Pos.ch (Editor.anchor e) <= 0 ->
  Pos.line (Editor.head e) = Editor.lastLine e ->
  0 < Editor.lastLine e ->
  Forall (fun line => JS.length line <= JS.MAX_SAFE_INTEGER) (Editor.doc e) ->
  Editor.doc <$> toggleCurrentOrSelected e = Editor.doc <$> toggleAllLinks e.
Proof.
  intros Hwf Haline Hach Hhline Hseveral Hshort.
  rewrite (toggleAllLinks_doc e Hwf). unfold toggleCurrentOrSelected.
  rewrite getSelection_several_lines by lia.
  destruct (toggleLinksInSelection_lookup e Hwf) as (e' & -> & Hlen & Hdoc).
  simpl. f_equal.
  apply (doc_eq_by_lines (Editor.doc e)); [done|apply length_map|].
  intros i line Hi. rewrite (Hdoc i line Hi).
  change (map toggledLine (Editor.doc e)) with (toggledLine <$> Editor.doc e).
  rewrite list_lookup_fmap, Hi. simpl. unfold toggledLine. do 2 f_equal.
  unfold selectionBounds, selectedLinks.
  replace (Pos.line (Editor.anchor e) <? Pos.line (Editor.head e)) with true
    by (symmetry; apply Z.ltb_lt; lia).
  rewrite Haline, Hhline, Z.min_l, Z.max_r by lia.
  pose proof (lookup_lt_Some _ _ _ Hi) as Hlt. unfold Editor.lastLine in *.
  replace ((Z.of_nat i <? 0)
           || (Z.of_nat i >? Z.of_nat (length (Editor.doc e)) - 1))
    with false
    by (symmetry; apply orb_false_iff; rewrite Z.ltb_ge, Z.gtb_ltb, Z.ltb_ge;
        lia).
  apply filter_all.
  pose proof (linksOf_tokens line) as Htoks.
  eapply Forall_impl; [exact Htoks|]. intros link Htok. simpl.
  destruct (tokenOf_bounds _ _ Htok) as (Hs & _ & He).
  rewrite Forall_forall in Hshort.
  pose proof (Hshort line (list_elem_of_lookup_2 _ _ _ Hi)) as Hmax.
  unfold inSelection.
  destruct (Z.of_nat i =? 0) eqn:H0;
    destruct (Z.of_nat i =? Z.of_nat (length (Editor.doc e)) - 1) eqn:Hl;
    simpl.
  - apply Z.eqb_eq in H0, Hl. lia.
  - apply Z.geb_le. lia.
  - apply Z.leb_le. lia.
  - done.
Qed.

Lemma select_all_forward_is_toggle_all_witness :
  Editor.doc <$> toggleCurrentOrSelected selectedFromStart =
  Editor.doc <$> toggleAllLinks selectedFromStart.
Proof.
  apply (select_all_forward_is_toggle_all selectedFromStart).
  - split; [discriminate|]. vm_compute. repeat constructor.
    all: intros H; repeat (inversion H as [|? ? ? H']; clear H; rename H' into H).
  - reflexivity.
  - simpl. lia.
  - reflexivity.
  - reflexivity.
  - change (Forall (fun line => JS.length line <= JS.MAX_SAFE_INTEGER)
              [JS.lit "[[A]]"; JS.lit "![[B]] [[C]]"]).
    constructor; [vm_compute; discriminate|].
    constructor; [vm_compute; discriminate|]. constructor.
Defined.

(** ** The calls of the selection command *)

Section Plan.

Variables (startLine endLine startCh endCh : Z).

Implicit Types (lines : list str) (plan : list Replacement.t).

Let later (r r' : Replacement.t) : Prop :=
  Pos.line (Replacement.from r) < Pos.line (Replacement.from r') \/
  (Pos.line (Replacement.from r') = Pos.line (Replacement.from r) /\
   Pos.ch (Replacement.to r') <= Pos.ch (Replacement.from r)).

Lemma rightToLeft_app plan plan' :
  rightToLeft plan -> rightToLeft plan' ->
  (forall r r', r ∈ plan -> r' ∈ plan' -> later r r') ->
  rightToLeft (plan ++ plan').
Proof.
  intros Hplan Hplan' Hcross. induction plan as [|r plan IH]; [done|].
  destruct Hplan as [Hr Hplan]. simpl. split.
  - apply Forall_app. split; [done|]. apply Forall_forall. intros r' Hr'.
    apply Hcross; [apply list_elem_of_here|done].
  - apply IH; [done|]. intros x x' Hx Hx'. apply Hcross; [|done].
    by apply list_elem_of_further.
Qed.

(** The replacements of one line, taken from the right. *)
Lemma rightToLeft_line i pos (links : list WikiLink.t) :
  ascendingFrom pos links ->
  rightToLeft (map (replacementOf i) (reverse links)).
Proof.
  revert pos. induction links as [|link rest IH]; intros pos; [done|].
  intros (_ & Hne & Hrest). rewrite reverse_cons, List.map_app.
  apply rightToLeft_app; [by eapply IH|by repeat constructor|].
  intros r r' Hr Hr'. apply list_elem_of_singleton in Hr' as ->.
  apply list_elem_of_fmap in Hr as (other & -> & Hother).
  rewrite elem_of_reverse in Hother. right. split; [done|]. simpl.
  apply ascendingFrom_Forall in Hrest. rewrite Forall_forall in Hrest.
  apply Hrest in Hother. lia.
Qed.

(** Where a replacement of the plan comes from. *)
Lemma selectionPlan_origin lines k r :
  r ∈ selectionPlan startLine endLine startCh endCh lines k ->
  exists (i : nat) line link,
    lines !! i = Some line /\ link ∈ linksOf line /\
    inSelection startLine endLine startCh endCh (k + Z.of_nat i) link = true /\
    r = replacementOf (k + Z.of_nat i) link.
Proof.
  revert k. induction lines as [|line rest IH]; intros k; simpl.
  - by intros ?%elem_of_nil.
  - intros [Hin|Hin]%elem_of_app.
    + apply list_elem_of_fmap in Hin as (link & -> & Hlink).
      rewrite elem_of_reverse in Hlink.
      exists 0%nat, line, link. rewrite Z.add_0_r.
      unfold selectedLinks in Hlink.
      destruct (_ || _); [by apply elem_of_nil in Hlink|].
      apply list_elem_of_In, filter_In in Hlink as [Hlink%list_elem_of_In Hsel].
      done.
    + apply IH in Hin as (i & l & link & Hi & Hlink & Hsel & ->).
      exists (S i), l, link.
      replace (k + Z.of_nat (S i)) with (k + 1 + Z.of_nat i) by lia. done.
Qed.

Lemma selectionPlan_rightToLeft lines k :
  rightToLeft (selectionPlan startLine endLine startCh endCh lines k).
Proof.
  revert k. induction lines as [|line rest IH]; intros k; [done|].
  cbn [selectionPlan]. apply rightToLeft_app.
  - eapply rightToLeft_line, selectedLinks_ascending.
  - apply IH.
  - intros r r' Hr Hr'. left.
    apply list_elem_of_fmap in Hr as (link & -> & _).
    apply selectionPlan_origin in Hr' as (i & l & link' & _ & _ & _ & ->).
    simpl. lia.
Qed.

(** Which replacements the plan holds: those of the tokens of the lines
    from [startLine] to [endLine] that pass the filter, and no other. *)
Lemma selectionPlan_iff lines k r :
  r ∈ selectionPlan startLine endLine startCh endCh lines k <->
  exists (i : nat) line link,
    lines !! i = Some line /\ link ∈ linksOf line /\
    startLine <= k + Z.of_nat i <= endLine /\
    inSelection startLine endLine startCh endCh (k + Z.of_nat i) link = true /\
    r = replacementOf (k + Z.of_nat i) link.
Proof.
  revert k. induction lines as [|line rest IH]; intros k.
  - split; [by intros ?%elem_of_nil|].
    by intros (i & l & link & Hi & _).
  - cbn [selectionPlan]. rewrite elem_of_app, IH. unfold selectedLinks.
    split.
    + intros [Hin|(i & l & link & Hi & Hlink & Hrange & Hsel & ->)].
      * apply list_elem_of_fmap in Hin as (link & -> & Hlink).
        rewrite elem_of_reverse in Hlink.
        destruct ((k <? startLine) || (k >? endLine)) eqn:Hout;
          [by apply elem_of_nil in Hlink|].
        apply orb_false_elim in Hout as [Hlo Hhi].
        apply Z.ltb_ge in Hlo. rewrite Z.gtb_ltb in Hhi.
        apply Z.ltb_ge in Hhi.
        apply list_elem_of_In, filter_In in Hlink
          as [Hlink%list_elem_of_In Hsel].
        exists 0%nat, line, link. rewrite Z.add_0_r.
        repeat split; auto; lia.
      * exists (S i), l, link.
        replace (k + Z.of_nat (S i)) with (k + 1 + Z.of_nat i) by lia. done.
    + intros (i & l & link & Hi & Hlink & Hrange & Hsel & ->).
      destruct i as [|i].
      * left. injection Hi as ->. rewrite Z.add_0_r in *.
        apply list_elem_of_fmap. exists link. split; [done|].
        rewrite elem_of_reverse.
        replace ((k <? startLine) || (k >? endLine)) with false.
        -- apply list_elem_of_In, filter_In.
           split; [by apply list_elem_of_In|done].
        -- symmetry. apply orb_false_intro; [apply Z.ltb_ge; lia|].
           rewrite Z.gtb_ltb. apply Z.ltb_ge. lia.
      * right. exists i, l, link.
        replace (k + 1 + Z.of_nat i) with (k + Z.of_nat (S i)) by lia. done.
Qed.

(** Calls over non-empty ranges that go from right to left are all
    different. *)
Lemma rightToLeft_NoDup plan :
  Forall (fun r => Pos.ch (Replacement.from r) < Pos.ch (Replacement.to r))
    plan ->
  rightToLeft plan -> NoDup plan.
Proof.
  induction plan as [|r plan IH]; [constructor|].
  intros [Hr Hplan]%Forall_cons [Hlater Hrest]. constructor; [|by apply IH].
  intros Hin. rewrite Forall_forall in Hlater.
  destruct (Hlater r Hin) as [Hline|[_ Hch]]; lia.
Qed.

End Plan.

(** X9: the selection command finishes, and the calls it makes are exactly
    these: one [replaceRange] for each token of the lines from the first to
    the last selected line that passes its filter, over the range the token
    has in the buffer as it was read and with the toggled text, and no
    other call.  No call is made twice, and the calls go down the lines
    and, within a line, from right to left, so that no call moves a range
    still to come. *)
Theorem toggleLinksInSelection_call_order (e : Editor.t) :
  let '(startLine, endLine, startCh, endCh) :=
    selectionBounds (Editor.anchor e) (Editor.head e) in
  let lines := JS.split (Editor.getValue e) NEWLINE in
  exists e' plan,
    toggleLinksInSelection e = Some e' /\
    Editor.calls e' = Editor.calls e ++ plan /\
    (forall r,
       r ∈ plan <->
       exists (i : nat) line link,
         lines !! i = Some line /\ link ∈ linksOf line /\
         startLine <= Z.of_nat i <= endLine /\
         inSelection startLine endLine startCh endCh (Z.of_nat i) link
           = true /\
         r = replacementOf (Z.of_nat i) link) /\
    NoDup plan /\
    rightToLeft plan.
Proof.
  pose proof (toggleLinksInSelection_calls e) as Hcalls.
  destruct (toggleLinksInSelection_Some e) as [e' He'].
  rewrite He' in Hcalls. revert Hcalls.
  destruct (selectionBounds _ _) as [[[startLine endLine] startCh] endCh].
  intros [= Hcalls] lines.
  exists e'. eexists. split; [done|]. split; [exact Hcalls|].
  assert (Hiff : forall r,
            r ∈ selectionPlan startLine endLine startCh endCh lines 0 <->
            exists (i : nat) line link,
              lines !! i = Some line /\ link ∈ linksOf line /\
              startLine <= Z.of_nat i <= endLine /\
              inSelection startLine endLine startCh endCh (Z.of_nat i) link
                = true /\
              r = replacementOf (Z.of_nat i) link).
  { intros r. rewrite selectionPlan_iff.
    by setoid_rewrite Z.add_0_l. }
  split; [exact Hiff|].
  split; [|apply selectionPlan_rightToLeft].
  apply rightToLeft_NoDup; [|apply selectionPlan_rightToLeft].
  apply Forall_forall. intros r Hr.
  apply Hiff in Hr as (i & line & link & _ & Hlink & _ & _ & ->).
  pose proof (linksOf_tokens line) as Htoks.
  rewrite Forall_forall in Htoks.
  pose proof (tokenOf_bounds _ _ (Htoks _ Hlink)). simpl. lia.
Qed.

(** ** The first revision of the cursor command *)

(** X10: [toggleCurrentLink], the first revision of the command, toggles the
    token under the cursor in place and otherwise leaves the editor alone,
    however many links the buffer holds elsewhere.  With no selection and
    the cursor on a token it does exactly what "toggle current/selected"
    does; on a well-formed buffer it only ever toggles tokens where they
    stand. *)
Theorem toggleCurrentLink_first_revision (e : Editor.t) :
  let cursor := Editor.getCursor e in
  let line := Editor.getLine e (Pos.line cursor) in
  (findLinkAtCursor line (Pos.ch cursor) = Some None ->
   toggleCurrentLink e = Some e) /\
  (forall link,
     Editor.anchor e = Editor.head e ->
     findLinkAtCursor line (Pos.ch cursor) = Some (Some link) ->
     toggleCurrentLink e = toggleCurrentOrSelected e) /\
  (Editor.wf e ->
   exists e',
     toggleCurrentLink e = Some e' /\
     onlyTokensToggled (Editor.doc e) (Editor.doc e')).
Proof.
  intros cursor line. split; [|split].
  - intros Hnone. unfold toggleCurrentLink. fold cursor line. by rewrite Hnone.
  - intros link Hsel Hhit. unfold toggleCurrentLink, toggleCurrentOrSelected.
    rewrite (getSelection_cursor _ Hsel). fold cursor line. by rewrite Hhit.
  - intros Hwf. unfold toggleCurrentLink. fold cursor line.
    rewrite findLinkAtCursor_find. simpl.
    destruct (List.find _ _) as [link|] eqn:Hfind.
    + apply find_some in Hfind as [Hin%list_elem_of_In _].
      eexists. split; [done|]. subst line.
      unfold Editor.getLine, JS.at_ in Hin.
      destruct (Pos.line cursor <? 0) eqn:Hneg;
        [by apply elem_of_nil in Hin|].
      apply Z.ltb_ge in Hneg.
      destruct (Editor.doc e !! Z.to_nat (Pos.line cursor)) as [l|] eqn:Hl;
        [|by apply elem_of_nil in Hin].
      simpl in Hin.
      replace (Pos.line cursor) with (Z.of_nat (Z.to_nat (Pos.line cursor)))
        by lia.
      by apply onlyTokensToggled_token with l.
    + eexists. split; [done|]. apply onlyTokensToggled_refl.
Qed.

Lemma toggleCurrentLink_first_revision_witness :
  toggleCurrentLink
    (Editor.open (JS.join [JS.lit "no links here"; JS.lit "[[Target]]"] NEWLINE)
       {| Pos.line := 0; Pos.ch := 0 |}) =
  Some
    (Editor.open (JS.join [JS.lit "no links here"; JS.lit "[[Target]]"] NEWLINE)
       {| Pos.line := 0; Pos.ch := 0 |}).
Proof.
  destruct (toggleCurrentLink_first_revision
              (Editor.open
                 (JS.join [JS.lit "no links here"; JS.lit "[[Target]]"] NEWLINE)
                 {| Pos.line := 0; Pos.ch := 0 |})) as (Hnone & _).
  apply Hnone. vm_compute. reflexivity.
Defined.

(** ** What the nearest-link search returns *)

Section NearestFacts.

Variables (lines : list str).

Lemma lineLinks_line i found :
  found ∈ lineLinks lines i -> Nearest.line found = i.
Proof.
  unfold lineLinks. destruct (JS.at_ lines i); [|by intros ?%elem_of_nil].
  by intros (link & -> & _)%list_elem_of_fmap.
Qed.

Lemma rangeLinks_line i n found :
  found ∈ rangeLinks lines i n ->
  i <= Nearest.line found < i + Z.of_nat n.
Proof.
  revert i. induction n as [|n IH]; intros i; simpl.
  - by intros ?%elem_of_nil.
  - intros [Hin|Hin]%elem_of_app.
    + apply lineLinks_line in Hin. lia.
    + apply IH in Hin. lia.
Qed.

Lemma lineLinks_intro (m : nat) line link :
  lines !! m = Some line -> link ∈ linksOf line ->
  {| Nearest.line := Z.of_nat m; Nearest.link := link |}
  ∈ lineLinks lines (Z.of_nat m).
Proof.
  intros Hm Hlink. unfold lineLinks, JS.at_.
  replace (Z.of_nat m <? 0) with false by (symmetry; apply Z.ltb_ge; lia).
  rewrite Nat2Z.id, Hm. apply list_elem_of_fmap. by exists link.
Qed.

Lemma rangeLinks_intro i n (m : nat) line link :
  i <= Z.of_nat m < i + Z.of_nat n ->
  lines !! m = Some line -> link ∈ linksOf line ->
  {| Nearest.line := Z.of_nat m; Nearest.link := link |}
  ∈ rangeLinks lines i n.
Proof.
  revert i. induction n as [|n IH]; intros i Hrange Hm Hlink; [lia|].
  simpl. apply elem_of_app.
  destruct (decide (i = Z.of_nat m)) as [->|Hne].
  - left. by eapply lineLinks_intro.
  - right. apply IH; [lia|done|done].
Qed.

End NearestFacts.

(** X11: whatever [findNearestLink] returns is a token of a line of the buffer,
    at the line it names.  It lies after the cursor (on a later line, or on
    the cursor's line starting at or after the cursor), or else nothing
    lies after the cursor and it lies before it (on an earlier line, or on
    the cursor's line ending at or before the cursor). *)
Theorem findNearestLink_result (e : Editor.t) (cursorLine cursorCh : Z)
    (found : Nearest.t) :
  findNearestLink e cursorLine cursorCh = Some (Some found) ->
  let lines := JS.split (Editor.getValue e) NEWLINE in
  (exists (n : nat) line,
     Nearest.line found = Z.of_nat n /\
     lines !! n = Some line /\
     findAllLinksInLine line = Some (linksOf line) /\
     Nearest.link found ∈ linksOf line) /\
  (cursorLine < Nearest.line found \/
   (Nearest.line found = cursorLine /\
    cursorCh <= WikiLink.startCh (Nearest.link found)) \/
   (forwardScan lines cursorLine cursorCh = None /\
    (Nearest.line found < cursorLine \/
     (Nearest.line found = cursorLine /\
      WikiLink.endCh (Nearest.link found) <= cursorCh)))).
Proof.
  rewrite findNearestLink_nearestScan. intros [= Hnear] lines.
  fold lines in Hnear. split.
  - destruct (nearestScan_origin _ _ _ _ Hnear) as (n & line & Hn & Hl & Hin).
    exists n, line. repeat split; try done. apply findAllLinksInLine_linksOf.
  - unfold nearestScan in Hnear.
    destruct (forwardScan lines cursorLine cursorCh) as [f|] eqn:Hforward.
    + injection Hnear as ->. unfold forwardScan in Hforward.
      destruct (List.find _ _) as [f|] eqn:Hfind.
      * injection Hforward as ->.
        apply find_some in Hfind as [Hin%list_elem_of_In Hafter].
        apply lineLinks_line in Hin. apply Z.geb_le in Hafter. right. left.
        lia.
      * apply head_Some_elem_of, rangeLinks_line in Hforward. left. lia.
    + right. right. split; [done|]. unfold backwardScan in Hnear.
      destruct (last (List.filter _ _)) as [b|] eqn:Hlast.
      * injection Hnear as ->.
        apply last_Some_elem_of, list_elem_of_In, filter_In in Hlast
          as [Hin%list_elem_of_In Hbefore].
        apply lineLinks_line in Hin. apply Z.leb_le in Hbefore. right. lia.
      * apply last_Some_elem_of, rangeLinks_line in Hnear. left. lia.
Qed.

Lemma findNearestLink_result_witness :
  exists (n : nat) line,
    3 = Z.of_nat n /\
    JS.split
      (JS.join [JS.lit "[[A]] x"; JS.lit ""; JS.lit ""; JS.lit "[[B]]"] NEWLINE)
      NEWLINE !! n = Some line /\
    findAllLinksInLine line = Some (linksOf line) /\
    parseWikiLink (JS.lit "[[B]]") 0 5 ∈ linksOf line.
Proof.
  destruct (findNearestLink_result
              (Editor.open
                 (JS.join [JS.lit "[[A]] x"; JS.lit ""; JS.lit ""; JS.lit "[[B]]"]
                    NEWLINE)
                 {| Pos.line := 0; Pos.ch := 6 |}) 0 6
              {| Nearest.line := 3;
                 Nearest.link := parseWikiLink (JS.lit "[[B]]") 0 5 |})
    as [Horigin _].
  - vm_compute. reflexivity.
  - exact Horigin.
Defined.

(** X12: with no selection, "toggle current/selected" toggles some token as soon
    as the buffer holds one: it issues exactly one [replaceRange], over the
    range of a token of the buffer and with that token's toggled text.
    (Without any token it issues none.) *)
Theorem toggleCurrentOrSelected_toggles_one (e : Editor.t) (n : nat)
    (line : str) (link : WikiLink.t) :
  Editor.wf e ->
  Editor.anchor e = Editor.head e ->
  Editor.doc e !! n = Some line ->
  link ∈ linksOf line ->
  exists e' (m : nat) target toggled,
    toggleCurrentOrSelected e = Some e' /\
    Editor.doc e !! m = Some target /\
    toggled ∈ linksOf target /\
    Editor.calls e' = Editor.calls e ++ [replacementOf (Z.of_nat m) toggled].
Proof.
  intros Hwf Hsel Hline Hlink. unfold toggleCurrentOrSelected.
  rewrite (getSelection_cursor _ Hsel). simpl (JS.length [] >? 0). cbv iota.
  set (cursor := Editor.getCursor e).
  rewrite findLinkAtCursor_find. simpl.
  destruct (List.find _ _) as [hit|] eqn:Hfind.
  - apply find_some in Hfind as [Hin%list_elem_of_In _].
    unfold Editor.getLine, JS.at_ in Hin.
    destruct (Pos.line cursor <? 0) eqn:Hneg; [by apply elem_of_nil in Hin|].
    apply Z.ltb_ge in Hneg.
    destruct (Editor.doc e !! Z.to_nat (Pos.line cursor)) as [l|] eqn:Hl;
      [|by apply elem_of_nil in Hin].
    simpl in Hin.
    eexists. exists (Z.to_nat (Pos.line cursor)), l, hit.
    split; [done|]. split; [done|]. split; [done|].
    simpl. unfold replacementOf. by rewrite Z2Nat.id by done.
  - rewrite findNearestLink_nearestScan, (lines_of_wf _ Hwf). simpl.
    destruct (nearestScan _ _ _) as [found|] eqn:Hnear.
    + apply nearestScan_origin in Hnear as (m & l & Hm & Hl & Hin).
      eexists. exists m, l, (Nearest.link found).
      split; [done|]. split; [done|]. split; [done|].
      simpl. unfold replacementOf. by rewrite Hm.
    + exfalso.
      unfold nearestScan, forwardScan, backwardScan in Hnear.
      destruct (List.find _ (lineLinks _ _)) eqn:Hforward; [done|].
      destruct (head _) eqn:Hhead; [done|].
      destruct (last (List.filter _ _)) eqn:Hbackward; [done|].
      apply head_None in Hhead. apply last_None in Hbackward, Hnear.
      set (here := {| Nearest.line := Z.of_nat n; Nearest.link := link |}).
      destruct (Z.lt_trichotomy (Z.of_nat n) (Pos.line cursor))
        as [Hlt|[Heq|Hgt]].
      * pose proof (rangeLinks_intro (Editor.doc e) 0
                      (Z.to_nat (Pos.line cursor)) n line link) as Hin.
        rewrite Hnear in Hin. eapply elem_of_nil, Hin; [lia|done|done].
      * pose proof (lineLinks_intro (Editor.doc e) n line link Hline Hlink)
          as Hin.
        rewrite <- Heq in Hforward, Hbackward.
        pose proof (find_none _ _ Hforward here
                      (proj1 (list_elem_of_In _ _) Hin)) as Hafter.
        simpl in Hafter. rewrite Z.geb_leb in Hafter.
        apply Z.leb_gt in Hafter.
        assert (Hbefore : WikiLink.endCh link <= Pos.ch cursor).
        { pose proof (find_none _ _ Hfind link) as Hmiss.
          unfold Editor.getLine, JS.at_ in Hmiss.
          replace (Pos.line cursor <? 0) with false in Hmiss
            by (symmetry; apply Z.ltb_ge; lia).
          rewrite <- Heq, Nat2Z.id, Hline in Hmiss. simpl in Hmiss.
          specialize (Hmiss (proj1 (list_elem_of_In _ _) Hlink)).
          unfold containsCursor in Hmiss.
          apply andb_false_iff in Hmiss as [Hmiss|Hmiss].
          - rewrite Z.geb_leb in Hmiss. apply Z.leb_gt in Hmiss. lia.
          - apply Z.leb_gt in Hmiss.
            pose proof (linksOf_tokens line) as Htoks.
            rewrite Forall_forall in Htoks.
            destruct (tokenOf_bounds _ _ (Htoks _ Hlink)). lia. }
        assert (Hhere : here ∈ List.filter
                  (fun found =>
                     WikiLink.endCh (Nearest.link found) <=? Pos.ch cursor)
                  (lineLinks (Editor.doc e) (Z.of_nat n))).
        { apply list_elem_of_In, filter_In. split.
          - by apply list_elem_of_In.
          - simpl. by apply Z.leb_le. }
        rewrite Hbackward in Hhere. by apply elem_of_nil in Hhere.
      * pose proof (rangeLinks_intro (Editor.doc e) (Pos.line cursor + 1)
                      (Z.to_nat
                         (Z.of_nat (length (Editor.doc e))
                          - Pos.line cursor - 1))
                      n line link) as Hin.
        rewrite Hhead in Hin. eapply elem_of_nil, Hin; [|done|done].
        apply lookup_lt_Some in Hline. lia.
Qed.

Lemma toggleCurrentOrSelected_toggles_one_witness :
  exists e' (m : nat) target toggled,
    toggleCurrentOrSelected
      (Editor.open (JS.lit "a [[B]] c") {| Pos.line := 0; Pos.ch := 9 |})
    = Some e' /\
    Editor.doc
      (Editor.open (JS.lit "a [[B]] c") {| Pos.line := 0; Pos.ch := 9 |}) !! m
    = Some target /\
    toggled ∈ linksOf target /\
    Editor.calls e' = [] ++ [replacementOf (Z.of_nat m) toggled].
Proof.
  apply (toggleCurrentOrSelected_toggles_one
           (Editor.open (JS.lit "a [[B]] c") {| Pos.line := 0; Pos.ch := 9 |})
           0%nat (JS.lit "a [[B]] c") (parseWikiLink (JS.lit "[[B]]") 2 7)).
  - split; [discriminate|]. vm_compute. repeat constructor.
    all: intros H; repeat (inversion H as [|? ? ? H']; clear H; rename H' into H).
  - reflexivity.
  - reflexivity.
  - vm_compute. apply list_elem_of_here.
Defined.

(** ** Toggling everything twice *)

Section Searching.

Implicit Types (s line : str).

Lemma search_first r s i k n :
  (forall d, (d < k)%nat -> matchAt r (drop d s) = None) ->
  matchAt r (drop k s) = Some n ->
  (k <= length s)%nat ->
  search r s i = Some ((i + k)%nat, n).
Proof.
  revert s i. induction k as [|k IH]; intros s i Hnone Hmatch Hk.
  - rewrite Nat.add_0_r. by apply search_here.
  - destruct s as [|c s]; [simpl in Hk; lia|].
    pose proof (Hnone 0%nat ltac:(lia)) as H0. simpl in H0 |- *.
    rewrite H0. rewrite (IH s (S i)).
    + f_equal. f_equal. lia.
    + intros d Hd. apply (Hnone (S d)). lia.
    + done.
    + simpl in Hk. lia.
Qed.

Lemma search_nowhere r s i :
  (forall d, (d <= length s)%nat -> matchAt r (drop d s) = None) ->
  search r s i = None.
Proof.
  revert i. induction s as [|c s IH]; intros i Hnone;
    pose proof (Hnone 0%nat ltac:(simpl; lia)) as H0; simpl in H0 |- *;
    rewrite H0; [done|].
  apply IH. intros d Hd. apply (Hnone (S d)). simpl. lia.
Qed.

(** [exec] on a line cut as the scan cuts it: it skips the stretch of
    other text and returns the link after it. *)
Lemma exec_segment prefix gap marker p rest :
  p <> [] -> RBRACKET ∉ p ->
  (forall d, (d < length gap)%nat ->
     matchAt wikiLinkPattern (drop d (gap ++ rawLink marker p ++ rest))
     = None) ->
  exec wikiLinkPattern (prefix ++ gap ++ rawLink marker p ++ rest)
    (length prefix) =
  (Some {| index := length prefix + length gap;
           matched := rawLink marker p |},
   (length prefix + length gap + length (rawLink marker p))%nat).
Proof.
  intros Hp Hclose Hnone. unfold exec. rewrite length_app.
  destruct (_ <? _)%nat eqn:Hlen; [apply Nat.ltb_lt in Hlen; lia|].
  rewrite drop_app_length.
  rewrite (search_first _ _ _ (length gap) (length (rawLink marker p))).
  - rewrite app_assoc, drop_app_length' by (rewrite length_app; lia).
    by rewrite take_app_length.
  - exact Hnone.
  - rewrite drop_app_length. by apply matchAt_wikiLink_intro.
  - rewrite length_app. lia.
Qed.

Lemma exec_rest prefix rest :
  (forall d, (d <= length rest)%nat ->
     matchAt wikiLinkPattern (drop d rest) = None) ->
  exec wikiLinkPattern (prefix ++ rest) (length prefix) = (None, 0%nat).
Proof.
  intros Hnone. unfold exec. rewrite length_app.
  destruct (_ <? _)%nat eqn:Hlen; [done|].
  by rewrite drop_app_length, search_nowhere.
Qed.

End Searching.

Section Segments.

Implicit Types (segments : list Segment.t) (rest prefix line : str).

(** The scan of a line cut as the scan cuts it returns the links of the
    cut. *)
Lemma findAllLinksInLine_loop_render segments rest :
  scannedAs segments rest ->
  forall prefix fuel,
    (length segments < fuel)%nat ->
    findAllLinksInLine_loop fuel (prefix ++ render segments rest)
      (length prefix) [] =
    Some (tokensAt (length prefix) segments).
Proof.
  induction segments as [|s more IH]; intros Hscan prefix fuel Hfuel;
    (destruct fuel as [|fuel]; [simpl in Hfuel; lia|]);
    rewrite findAllLinksInLine_loop_step.
  - cbn [render]. by rewrite exec_rest.
  - destruct Hscan as (Hp & Hclose & Hnone & Hmore). cbn [render tokensAt].
    rewrite exec_segment by done.
    set (text := rawLink (Segment.marker s) (Segment.path s)).
    replace (prefix ++ Segment.gap s ++ text ++ render more rest)
      with ((prefix ++ Segment.gap s ++ text) ++ render more rest)
      by by rewrite <- !app_assoc.
    replace (length prefix + length (Segment.gap s) + length text)%nat
      with (length (prefix ++ Segment.gap s ++ text))
      by (rewrite !length_app; lia).
    rewrite (IH Hmore) by (simpl in Hfuel; lia).
    unfold matchStart, matchEnd, JS.length.
    cbn [index matched fmap option_fmap option_map].
    rewrite !length_app. do 3 f_equal. lia.
Qed.

Lemma render_length segments rest :
  (length segments <= length (render segments rest))%nat.
Proof.
  induction segments as [|s more IH]; simpl; [lia|].
  rewrite !length_app, rawLink_length. lia.
Qed.

Lemma linksOf_render segments rest :
  scannedAs segments rest ->
  linksOf (render segments rest) = tokensAt 0 segments.
Proof.
  intros Hscan. unfold linksOf, findAllLinksInLine, scanFuel.
  rewrite (findAllLinksInLine_loop_render _ _ Hscan []); [done|].
  pose proof (render_length segments rest). simpl. lia.
Qed.

(** Every line is cut by its scan: what the loop collects from
    [lastIndex] on are the links of a cut of the rest of the line. *)
Lemma findAllLinksInLine_loop_segments fuel line lastIndex links :
  findAllLinksInLine_loop fuel line lastIndex [] = Some links ->
  (lastIndex <= length line)%nat ->
  exists segments rest,
    drop lastIndex line = render segments rest /\
    scannedAs segments rest /\
    links = tokensAt lastIndex segments /\
    (embedsStandClear line links -> Forall clearBefore segments).
Proof.
  revert lastIndex links.
  induction fuel as [|fuel IH]; intros i links; [done|].
  rewrite findAllLinksInLine_loop_step.
  destruct (exec wikiLinkPattern line i) as [[m|] i'] eqn:Hexec.
  - destruct (findAllLinksInLine_loop fuel line i' []) as [links'|] eqn:Hloop;
      [|done].
    intros [= <-] Hi.
    pose proof (exec_progress _ _ _ _ Hexec) as Hprog.
    pose proof (fun k => exec_skips _ _ _ _ _ k Hexec) as Hskip.
    destruct (IH _ _ Hloop) as (more & rest & Hdrop & Hscan & -> & Hclear);
      [lia|].
    apply exec_Some in Hexec
      as (marker & p & before & after & Hline & Hb & Hm & Hp & Hclose & Hle
          & ->).
    assert (Hafter : render more rest = after).
    { rewrite <- Hdrop, Hline, Hm, app_assoc.
      apply drop_app_length'. rewrite length_app. lia. }
    assert (Hhere : drop i line = drop i before ++ rawLink marker p ++ after).
    { rewrite Hline. apply drop_app_le. lia. }
    exists ({| Segment.gap := drop i before; Segment.marker := marker;
               Segment.path := p |} :: more), rest.
    cbn [render scannedAs tokensAt Segment.gap Segment.marker Segment.path].
    rewrite Hafter, length_drop.
    split; [done|]. split; [|split].
    + split; [done|]. split; [done|]. split; [|done].
      intros d Hd. rewrite <- Hhere, drop_drop. apply Hskip. lia.
    + rewrite Hm. unfold matchStart, matchEnd, JS.length. rewrite <- Hb.
      replace (i + (length before - i))%nat with (length before) by lia.
      rewrite Hm. do 2 f_equal. lia.
    + intros [Hhead Hstand]%Forall_cons. constructor.
      * intros Hmarker. cbn [Segment.gap Segment.marker] in *.
        destruct (last (drop i before)) as [c|] eqn:Hlast; [|done].
        destruct (Hhead) with (c := c) as [Hbracket Hbang].
        -- by rewrite Hm, parseWikiLink_rawLink.
        -- rewrite Hm, parseWikiLink_rawLink. cbn [WikiLink.startCh].
           unfold matchStart. rewrite <- Hb.
           rewrite last_lookup, length_drop, lookup_drop in Hlast.
           assert (length before - i <> 0)%nat as Hne.
           { intros Hzero. rewrite Hzero in Hlast. simpl in Hlast.
             rewrite Nat.add_0_r in Hlast.
             apply lookup_lt_Some in Hlast. lia. }
           unfold JS.at_.
           destruct (Z.of_nat (length before) - 1 <? 0) eqn:Hneg;
             [apply Z.ltb_lt in Hneg; lia|].
           replace (Z.to_nat (Z.of_nat (length before) - 1))
             with (i + pred (length before - i))%nat by lia.
           rewrite Hline, lookup_app_l by lia. exact Hlast.
        -- split; congruence.
      * by apply Hclear.
  - intros [= <-] Hi. exists [], (drop i line).
    split; [done|]. split; [|split; [done|by constructor]].
    intros d Hd. rewrite drop_drop. eapply exec_null; [exact Hexec|].
    rewrite length_drop in Hd. lia.
Qed.

End Segments.

Section Flipping.

Implicit Types (gap p q rest : str) (marker : bool).

(** Where the closing brackets of a link text are: at its last two
    offsets, and nowhere before. *)
Lemma rawLink_RBRACKET marker p :
  RBRACKET ∉ p ->
  (forall i, (i + 2 < length (rawLink marker p))%nat ->
     rawLink marker p !! i <> Some RBRACKET) /\
  rawLink marker p !! (length (rawLink marker p) - 2)%nat = Some RBRACKET /\
  rawLink marker p !! (length (rawLink marker p) - 1)%nat = Some RBRACKET.
Proof.
  intros Hclose.
  assert (Hp : forall i, (i < length p)%nat ->
                 (p ++ [RBRACKET; RBRACKET]) !! i <> Some RBRACKET).
  { intros i Hi. rewrite lookup_app_l by done. intros Hin.
    apply Hclose. by eapply list_elem_of_lookup_2. }
  assert (Hend : (p ++ [RBRACKET; RBRACKET]) !! length p = Some RBRACKET
                 /\ (p ++ [RBRACKET; RBRACKET]) !! S (length p)
                    = Some RBRACKET).
  { split.
    - by rewrite lookup_app_r, Nat.sub_diag by lia.
    - rewrite lookup_app_r by lia. by replace (S _ - _)%nat with 1%nat by lia. }
  destruct Hend as [Hend1 Hend2]. rewrite rawLink_length.
  unfold rawLink. destruct marker; cbn [app]; split.
  - intros [|[|[|i]]] Hi; try done. cbn [lookup list_lookup]. apply Hp. lia.
  - split.
    + replace (1 + 2 + length p + 2 - 2)%nat with (3 + length p)%nat by lia.
      exact Hend1.
    + replace (1 + 2 + length p + 2 - 1)%nat with (3 + S (length p))%nat
        by lia.
      exact Hend2.
  - intros [|[|i]] Hi; try done. cbn [lookup list_lookup]. apply Hp. lia.
  - split.
    + replace (0 + 2 + length p + 2 - 2)%nat with (2 + length p)%nat by lia.
      exact Hend1.
    + replace (0 + 2 + length p + 2 - 1)%nat with (2 + S (length p))%nat
        by lia.
      exact Hend2.
Qed.

(** A link text that starts inside a stretch of other text either ends
    inside it or ends where the link after the stretch ends. *)
Lemma rawLink_across gap marker p rest marker0 q rest0 :
  RBRACKET ∉ p -> RBRACKET ∉ q ->
  gap ++ rawLink marker p ++ rest = rawLink marker0 q ++ rest0 ->
  (exists more, gap = rawLink marker0 q ++ more) \/
  gap ++ rawLink marker p = rawLink marker0 q.
Proof.
  intros Hp Hq Heq.
  destruct (rawLink_RBRACKET marker p Hp) as (Hbefore & Hlast2 & Hlast1).
  destruct (rawLink_RBRACKET marker0 q Hq) as (Hbefore0 & Hlast20 & Hlast10).
  pose proof (rawLink_length marker p) as Hlen.
  pose proof (rawLink_length marker0 q) as Hlen0.
  set (text := rawLink marker p) in *.
  set (text0 := rawLink marker0 q) in *.
  assert (Hat : forall i, (length gap <= i < length gap + length text)%nat ->
                  (text0 ++ rest0) !! i = text !! (i - length gap)%nat).
  { intros i Hi. rewrite <- Heq.
    rewrite lookup_app_r by lia. by rewrite lookup_app_l by lia. }
  assert (Hat0 : forall i, (i < length text0)%nat ->
                   (text0 ++ rest0) !! i = text0 !! i).
  { intros i Hi. by rewrite lookup_app_l. }
  destruct (decide (length text0 <= length gap)%nat) as [Hin|Hout].
  - left. exists (drop (length text0) gap).
    rewrite <- (take_drop (length text0) gap) at 1. f_equal.
    rewrite <- (take_app_le gap (text ++ rest)) by done.
    rewrite Heq. by rewrite take_app_length.
  - right.
    assert (length text0 = length gap + length text)%nat as Hsame.
    { destruct (decide (length text0 + 1 < length gap + length text)%nat)
        as [Hshort|Hlong].
      { exfalso. apply (Hbefore (length text0 - 1 - length gap)%nat); [lia|].
        rewrite <- Hat by lia. rewrite Hat0 by lia. exact Hlast10. }
      destruct (decide (length text0 + 1 = length gap + length text)%nat)
        as [Hone|Hnot].
      { exfalso. apply (Hbefore (length text0 - 2 - length gap)%nat); [lia|].
        rewrite <- Hat by lia. rewrite Hat0 by lia. exact Hlast20. }
      destruct (decide (length gap + length text < length text0)%nat)
        as [Hover|Hle]; [|lia].
      exfalso. apply (Hbefore0 (length gap + length text - 2)%nat); [lia|].
      rewrite <- Hat0 by lia. rewrite Hat by lia.
      replace (length gap + length text - 2 - length gap)%nat
        with (length text - 2)%nat by lia.
      exact Hlast2. }
    transitivity (take (length text0) (text0 ++ rest0));
      [|by rewrite take_app_length].
    rewrite <- Heq, Hsame, app_assoc. symmetry.
    apply take_app_length'. rewrite length_app. lia.
Qed.

Local Ltac notin_from H :=
  repeat first [rewrite not_elem_of_cons in H | rewrite not_elem_of_app in H];
  repeat first [rewrite not_elem_of_cons | rewrite not_elem_of_app];
  tauto.

(** A link text that starts inside a stretch of other text and ends
    with the link after it still does so when that link's marker is
    flipped back, unless the link is an embed right after [[] or [!]. *)
Lemma rawLink_absorbs gap marker p marker0 q :
  gap <> [] -> RBRACKET ∉ q ->
  gap ++ rawLink (negb marker) p = rawLink marker0 q ->
  (marker = true ->
   last gap <> Some LBRACKET /\ last gap <> Some BANG) ->
  exists q',
    q' <> [] /\ (RBRACKET ∉ q') /\
    gap ++ rawLink marker p = rawLink marker0 q'.
Proof.
  intros Hgap Hq Heq Hclear.
  assert (Hcut : forall a b : str,
            a ++ [RBRACKET; RBRACKET] = b ++ [RBRACKET; RBRACKET] -> a = b)
    by (intros a b; apply app_inv_tail).
  assert (Hbang : RBRACKET <> BANG) by done.
  assert (Hopen : RBRACKET <> LBRACKET) by done.
  unfold rawLink in *.
  destruct gap as [|c1 [|c2 [|c3 g]]]; [done|..];
    destruct marker, marker0; cbn [negb app] in Heq |- *.
  - injection Heq as -> _. by destruct (Hclear eq_refl).
  - injection Heq as -> _. by destruct (Hclear eq_refl).
  - by injection Heq.
  - by injection Heq.
  - injection Heq as -> -> _. by destruct (Hclear eq_refl).
  - injection Heq as -> -> Heq.
    assert (q = LBRACKET :: LBRACKET :: p) as ->
      by (apply Hcut; by rewrite <- Heq).
    exists (BANG :: LBRACKET :: LBRACKET :: p). split; [done|]. split; [|done].
    notin_from Hq.
  - by injection Heq.
  - injection Heq as -> -> Heq.
    assert (q = BANG :: LBRACKET :: LBRACKET :: p) as ->
      by (apply Hcut; by rewrite <- Heq).
    exists (LBRACKET :: LBRACKET :: p). split; [done|]. split; [|done].
    notin_from Hq.
  - injection Heq as -> -> -> Heq.
    assert (q = g ++ LBRACKET :: LBRACKET :: p) as ->
      by (apply Hcut; rewrite <- Heq, <- app_assoc; done).
    exists (g ++ BANG :: LBRACKET :: LBRACKET :: p).
    split; [by destruct g|]. split; [|by rewrite <- app_assoc].
    notin_from Hq.
  - injection Heq as -> -> Heq.
    assert (q = c3 :: g ++ LBRACKET :: LBRACKET :: p) as ->
      by (apply Hcut; rewrite <- Heq; cbn [app]; rewrite <- app_assoc; done).
    exists (c3 :: g ++ BANG :: LBRACKET :: LBRACKET :: p).
    split; [done|]. split; [|by cbn [app]; rewrite <- app_assoc].
    notin_from Hq.
  - injection Heq as -> -> -> Heq.
    assert (q = g ++ BANG :: LBRACKET :: LBRACKET :: p) as ->
      by (apply Hcut; rewrite <- Heq, <- app_assoc; done).
    exists (g ++ LBRACKET :: LBRACKET :: p).
    split; [by destruct g|]. split; [|by rewrite <- app_assoc].
    notin_from Hq.
  - injection Heq as -> -> Heq.
    assert (q = c3 :: g ++ BANG :: LBRACKET :: LBRACKET :: p) as ->
      by (apply Hcut; rewrite <- Heq; cbn [app]; rewrite <- app_assoc; done).
    exists (c3 :: g ++ LBRACKET :: LBRACKET :: p).
    split; [done|]. split; [|by cbn [app]; rewrite <- app_assoc].
    notin_from Hq.
Qed.

(** Flipping every marker leaves the cut what the scan makes of the
    new line. *)
Lemma scannedAs_flipped (segments : list Segment.t) rest :
  scannedAs segments rest -> Forall clearBefore segments ->
  scannedAs (flipped <$> segments) rest.
Proof.
  induction segments as [|s more IH]; [done|].
  intros (Hp & Hclose & Hnone & Hmore) [Hclear Hclears]%Forall_cons.
  cbn [fmap list_fmap scannedAs flipped
       Segment.gap Segment.marker Segment.path].
  split; [done|]. split; [done|]. split; [|by apply IH].
  intros d Hd.
  destruct (matchAt _ _) as [n|] eqn:Hmatch; [exfalso|done].
  apply matchAt_wikiLink_inv in Hmatch
    as (marker0 & q & rest0 & Heq & Hq & Hqclose & ->).
  rewrite drop_app_le in Heq by lia.
  pose proof (Hnone d Hd) as Hnot. rewrite drop_app_le in Hnot by lia.
  assert (Hgap : drop d (Segment.gap s) <> []).
  { intros Hnil. apply (f_equal length) in Hnil.
    rewrite length_drop in Hnil. simpl in Hnil. lia. }
  assert (Hlast : last (drop d (Segment.gap s)) = last (Segment.gap s)).
  { rewrite !last_lookup, length_drop, lookup_drop. f_equal. lia. }
  apply rawLink_across in Heq as [[more' Hin]|Hends]; [| |done|done].
  - by rewrite Hin, <- app_assoc, matchAt_wikiLink_intro in Hnot.
  - apply rawLink_absorbs in Hends as (q' & Hq' & Hq'close & Hsame);
      [|done|done|].
    + by rewrite app_assoc, Hsame, matchAt_wikiLink_intro in Hnot.
    + rewrite Hlast. exact Hclear.
Qed.

Lemma flipped_flipped (segments : list Segment.t) :
  flipped <$> (flipped <$> segments) = segments.
Proof.
  induction segments as [|[gap marker p] more IH]; [done|].
  cbn [fmap list_fmap] in *. rewrite IH. unfold flipped. simpl.
  by rewrite negb_involutive.
Qed.

(** The links of the flipped cut are the links of the cut, each with its
    marker flipped. *)
Lemma tokensAt_flipped (segments : list Segment.t) (offset offset' : nat) :
  WikiLink.path <$> tokensAt offset (flipped <$> segments) =
    WikiLink.path <$> tokensAt offset' segments /\
  WikiLink.hasTransclusion <$> tokensAt offset (flipped <$> segments) =
    negb <$> (WikiLink.hasTransclusion <$> tokensAt offset' segments).
Proof.
  revert offset offset'.
  induction segments as [|s more IH]; intros offset offset'; [done|].
  cbn [fmap list_fmap tokensAt flipped
       Segment.gap Segment.marker Segment.path].
  rewrite !parseWikiLink_rawLink. cbn [WikiLink.path WikiLink.hasTransclusion].
  split; f_equal; apply IH.
Qed.

(** Rewriting a line replaces every link of its cut by the flipped one. *)
Lemma spliceFrom_render prefix (segments : list Segment.t) rest :
  spliceFrom (prefix ++ render segments rest) (Z.of_nat (length prefix))
    (tokensAt (length prefix) segments) =
  render (flipped <$> segments) rest.
Proof.
  revert prefix. induction segments as [|s more IH]; intros prefix.
  - cbn [tokensAt spliceFrom render fmap list_fmap].
    rewrite substringFrom_drop by lia. rewrite Nat2Z.id.
    apply drop_app_length.
  - cbn [tokensAt spliceFrom render fmap list_fmap flipped
         Segment.gap Segment.marker Segment.path].
    rewrite toggleLink_rawLink, parseWikiLink_rawLink.
    cbn [WikiLink.startCh WikiLink.endCh].
    set (text := rawLink (Segment.marker s) (Segment.path s)).
    rewrite substring_spec by lia. f_equal; [|f_equal].
    + rewrite Nat2Z.id, drop_app_length.
      replace (Z.to_nat _) with (length (Segment.gap s)) by lia.
      apply take_app_length.
    + replace (prefix ++ Segment.gap s ++ text ++ render more rest)
        with ((prefix ++ Segment.gap s ++ text) ++ render more rest)
        by by rewrite <- !app_assoc.
      replace (length prefix + length (Segment.gap s) + length text)%nat
        with (length (prefix ++ Segment.gap s ++ text))
        by (rewrite !length_app; lia).
      apply IH.
Qed.

(** One line, rewritten twice. *)
Lemma toggledLine_twice (line : str) :
  embedsStandClear line (linksOf line) ->
  toggledLine (toggledLine line) = line /\
  WikiLink.path <$> linksOf (toggledLine line) =
    WikiLink.path <$> linksOf line /\
  WikiLink.hasTransclusion <$> linksOf (toggledLine line) =
    negb <$> (WikiLink.hasTransclusion <$> linksOf line).
Proof.
  intros Hstand.
  pose proof (findAllLinksInLine_linksOf line) as Hscan.
  unfold findAllLinksInLine in Hscan.
  apply findAllLinksInLine_loop_segments in Hscan
    as (segments & rest & Hline & Hcut & Hlinks & Hclear); [|lia].
  rewrite drop_0 in Hline. specialize (Hclear Hstand).
  assert (Hfirst : toggledLine line = render (flipped <$> segments) rest).
  { unfold toggledLine. rewrite Hlinks. rewrite Hline at 1.
    apply (spliceFrom_render []). }
  pose proof (scannedAs_flipped _ _ Hcut Hclear) as Hcut'.
  rewrite Hfirst, Hlinks. split; [|rewrite (linksOf_render _ _ Hcut')].
  - unfold toggledLine. rewrite (linksOf_render _ _ Hcut').
    transitivity (render (flipped <$> (flipped <$> segments)) rest);
      [exact (spliceFrom_render [] _ rest)|].
    by rewrite flipped_flipped.
  - apply tokensAt_flipped.
Qed.

End Flipping.

(** X13: on a buffer where no embed directly follows an opening bracket or an
    exclamation mark, "toggle all" is its own inverse: the second run
    finishes and gives back the lines of the buffer.  After the first
    run every line has the links it had before, in the same order and
    with the same paths, each with its marker flipped. *)
Theorem toggleAllLinks_twice (e : Editor.t) :
  Editor.wf e ->
  Forall (fun line => embedsStandClear line (linksOf line)) (Editor.doc e) ->
  exists e' e'',
    toggleAllLinks e = Some e' /\
    toggleAllLinks e' = Some e'' /\
    Editor.doc e'' = Editor.doc e /\
    Forall2
      (fun line line' =>
         WikiLink.path <$> linksOf line' = WikiLink.path <$> linksOf line /\
         WikiLink.hasTransclusion <$> linksOf line' =
           negb <$> (WikiLink.hasTransclusion <$> linksOf line))
      (Editor.doc e) (Editor.doc e').
Proof.
  intros Hwf Hstand.
  pose proof (toggleAllLinks_doc e Hwf) as Hdoc.
  destruct (toggleAllLinks e) as [e'|] eqn:Hfirst; [|done].
  injection Hdoc as Hdoc.
  assert (Hwf' : Editor.wf e').
  { destruct Hwf as [Hne Hnl]. split; rewrite Hdoc.
    - by destruct (Editor.doc e).
    - apply Forall_fmap. eapply Forall_impl; [exact Hnl|].
      intros line. apply toggledLine_no_newline. }
  pose proof (toggleAllLinks_doc e' Hwf') as Hdoc'.
  destruct (toggleAllLinks e') as [e''|] eqn:Hsecond; [|done].
  injection Hdoc' as Hdoc'.
  exists e', e''. split; [done|]. split; [done|].
  rewrite Hdoc', Hdoc. clear -Hstand.
  induction Hstand as [|line lines Hline _ [IHdoc IHlinks]].
  - split; [done|constructor].
  - destruct (toggledLine_twice line Hline) as (Hback & Hlinks).
    split.
    + cbn [map]. by rewrite Hback, IHdoc.
    + by constructor.
Qed.

Lemma toggleAllLinks_twice_witness :
  exists e' e'',
    toggleAllLinks linkThenEmbed = Some e' /\
    toggleAllLinks e' = Some e'' /\
    Editor.doc e'' = Editor.doc linkThenEmbed.
Proof.
  destruct (toggleAllLinks_twice linkThenEmbed)
    as (e' & e'' & Hfirst & Hsecond & Hdoc & _).
  - apply wf_open.
  - constructor; [|constructor]. unfold embedsStandClear.
    match goal with
    | |- Forall ?P (linksOf ?l) =>
        let links := eval vm_compute in (linksOf l) in
        change (Forall P links)
    end.
    constructor; [|constructor; [|constructor]];
      cbn [WikiLink.hasTransclusion WikiLink.startCh]; intros Hmarker c Hc;
      [discriminate|].
    vm_compute in Hc. injection Hc as <-. split; discriminate.
  - by exists e', e''.
Defined.

(** The side condition is needed: an embed right after an opening bracket
    becomes, once its marker is gone, part of a longer link, and the
    second run marks that one. *)
Example toggle_all_after_bracket_not_restored :
  Editor.doc <$>
    (toggleAllLinks
       (Editor.open (JS.lit "[![[a]]") {| Pos.line := 0; Pos.ch := 0 |})
     ≫= toggleAllLinks) =
  Some [JS.lit "![[[a]]"].
Proof. vm_compute. reflexivity. Qed.

(** * Totality, and what happens without a target *)

Section NoTarget.

Implicit Types (e : Editor.t).

Lemma filter_nil_false {A} (f : A -> bool) (l : list A) (x : A) :
  List.filter f l = [] -> x ∈ l -> f x = false.
Proof.
  intros Hnil Hin. destruct (f x) eqn:Hfx; [|done].
  assert (x ∈ List.filter f l) as Hx
    by (apply list_elem_of_In, filter_In; by rewrite <- list_elem_of_In).
  rewrite Hnil in Hx. by apply elem_of_nil in Hx.
Qed.

(** Inside one line the filter of the command is the selection. *)
Lemma inSelection_same_line e (n : Z) link :
  Pos.line (Editor.anchor e) = n -> Pos.line (Editor.head e) = n ->
  inSelection n n
    (Z.min (Pos.ch (Editor.anchor e)) (Pos.ch (Editor.head e)))
    (Z.max (Pos.ch (Editor.anchor e)) (Pos.ch (Editor.head e))) n link =
  tokenInSelection e n link.
Proof.
  intros Ha Hh.
  unfold inSelection, tokenInSelection, selectionFrom, selectionTo,
    Editor.posLeb.
  rewrite Ha, Hh, Z.eqb_refl, Z.ltb_irrefl. cbn [andb orb].
  destruct (Pos.ch (Editor.anchor e) <=? Pos.ch (Editor.head e)) eqn:Hle;
    rewrite ?Ha, ?Hh, ?Z.eqb_refl, ?Z.ltb_irrefl;
    cbn [andb orb Pos.line Pos.ch]; rewrite Z.geb_leb;
    [apply Z.leb_le in Hle; rewrite Z.min_l, Z.max_r by lia
    |apply Z.leb_gt in Hle; rewrite Z.min_r, Z.max_l by lia]; done.
Qed.

(** A selection inside one line that holds no token changes nothing. *)
Lemma toggleLinksInSelection_same_line_none e :
  Editor.wf e ->
  Pos.line (Editor.anchor e) = Pos.line (Editor.head e) ->
  selectionTokens e = [] ->
  toggleLinksInSelection e = Some e.
Proof.
  intros Hwf Hline Hnone. unfold toggleLinksInSelection.
  rewrite selectionReplacements_plan, selectionBounds_same_line by done.
  rewrite (lines_of_wf _ Hwf).
  destruct (selectionPlan _ _ _ _ _ _) as [|r plan] eqn:Hplan; [done|].
  exfalso.
  assert (Hr : r ∈ r :: plan) by apply list_elem_of_here.
  rewrite <- Hplan in Hr.
  apply selectionPlan_iff in Hr
    as (i & l & link & Hi & Hlink & Hrange & Hsel & _).
  rewrite Z.add_0_l in Hrange, Hsel.
  assert (Z.of_nat i = Pos.line (Editor.anchor e)) as Hn by lia.
  rewrite <- Hn in Hsel. rewrite inSelection_same_line in Hsel by lia.
  pose proof (lookup_lt_Some _ _ _ Hi) as Hlt.
  assert (Hin : {| Nearest.line := Z.of_nat i; Nearest.link := link |}
                ∈ rangeLinks (Editor.doc e) 0 (length (Editor.doc e)))
    by (eapply rangeLinks_intro; [lia|done|done]).
  apply (filter_nil_false _ _ _ Hnone) in Hin. simpl in Hin. congruence.
Qed.

End NoTarget.

(** C8: every scan and every command finishes with a result, whatever the
    line or the buffer: the scanning loop never runs out of its fuel, and
    more fuel changes nothing.  With no selection, no token at the cursor
    and none nearby, "toggle current/selected" returns the editor as it
    was, without a call; on a buffer free of tokens both commands leave
    every line as it is; a selection inside one line that holds no token
    changes nothing.  The empty line and a line of unmatched single
    brackets hold no token, and "toggle all" on the empty document gives
    the empty document.

    A selection over several lines that holds no token is not always a
    no-op.  In the buffer [x / y [[C]]] the selection dragged from (0, 0)
    to (1, 1) is the text [x / y]; no token lies in it, and yet [[[C]]],
    which starts after the end of the selection, is toggled.  The same
    selection taken from (1, 1) back to (0, 0) changes nothing.  In the
    buffer [ab [[A]]xxxx / y] the selection dragged back from (1, 1) to
    (0, 9) is the text [xxx / y], and [[[A]]], which ends before the
    start of the selection, is toggled. *)
Theorem scans_total_selection_not_noop (e : Editor.t) (line : str)
    (cursorLine cursorCh : Z) :
  (is_Some (findAllLinksInLine line) /\
   (forall fuel, (scanFuel line <= fuel)%nat ->
      findAllLinksInLine_loop fuel line 0 [] = findAllLinksInLine line) /\
   is_Some (findLinkAtCursor line cursorCh) /\
   is_Some (findNearestLink e cursorLine cursorCh) /\
   is_Some (selectionReplacements e) /\
   is_Some (toggleLinksInSelection e) /\
   is_Some (toggleCurrentOrSelected e) /\
   is_Some (toggleAllLinks e)) /\
  (Editor.getSelection e = [] ->
   findLinkAtCursor (Editor.getLine e (Pos.line (Editor.getCursor e)))
     (Pos.ch (Editor.getCursor e)) = Some None ->
   findNearestLink e (Pos.line (Editor.getCursor e))
     (Pos.ch (Editor.getCursor e)) = Some None ->
   toggleCurrentOrSelected e = Some e) /\
  (Editor.wf e -> noLinks (Editor.doc e) ->
   toggleCurrentOrSelected e = Some e /\
   Editor.doc <$> toggleAllLinks e = Some (Editor.doc e)) /\
  (Editor.wf e ->
   Pos.line (Editor.anchor e) = Pos.line (Editor.head e) ->
   Editor.getSelection e <> [] ->
   selectionTokens e = [] ->
   toggleCurrentOrSelected e = Some e) /\
  (findAllLinksInLine (JS.lit "") = Some [] /\
   findAllLinksInLine (JS.lit "[a] ]b[ ![c] [[d] [e]]") = Some [] /\
   findLinkAtCursor (JS.lit "") 0 = Some None /\
   Editor.getValue <$>
     toggleAllLinks
       (Editor.open (JS.lit "") {| Pos.line := 0; Pos.ch := 0 |})
   = Some (JS.lit "")) /\
  (Editor.getSelection selectedBeforeLink =
     JS.join [JS.lit "x"; JS.lit "y"] NEWLINE /\
   selectionTokens selectedBeforeLink = [] /\
   Editor.doc <$> toggleCurrentOrSelected selectedBeforeLink =
     Some [JS.lit "x"; JS.lit "y ![[C]]"] /\
   toggleCurrentOrSelected (swapSelection selectedBeforeLink) =
     Some (swapSelection selectedBeforeLink)) /\
  (Editor.getSelection selectedAfterLink =
     JS.join [JS.lit "xxx"; JS.lit "y"] NEWLINE /\
   selectionTokens selectedAfterLink = [] /\
   Editor.doc <$> toggleCurrentOrSelected selectedAfterLink =
     Some [JS.lit "ab ![[A]]xxxx"; JS.lit "y"]).
Proof.
  split; [|split; [|split; [|split; [|split; [|split]]]]].
  - split; [by rewrite findAllLinksInLine_linksOf|].
    split.
    { intros fuel Hfuel.
      pose proof (findAllLinksInLine_linksOf line) as Hscan. rewrite Hscan.
      eapply findAllLinksInLine_loop_mono; [exact Hfuel|exact Hscan]. }
    split; [by rewrite findLinkAtCursor_find|].
    split; [by rewrite findNearestLink_nearestScan|].
    split.
    { rewrite selectionReplacements_plan.
      by destruct (selectionBounds _ _) as [[[? ?] ?] ?]. }
    split; [apply toggleLinksInSelection_Some|].
    split; [apply toggleCurrentOrSelected_Some|].
    by rewrite toggleAllLinks_call.
  - intros Hsel Hcursor Hnear. unfold toggleCurrentOrSelected.
    rewrite Hsel. simpl (JS.length [] >? 0). cbv iota.
    rewrite Hcursor. simpl. by rewrite Hnear.
  - intros Hwf Hno. split.
    + by apply toggleCurrentOrSelected_noLinks.
    + by apply toggleAllLinks_noLinks.
  - intros Hwf Hline Hsel Hnone. unfold toggleCurrentOrSelected.
    replace (JS.length (Editor.getSelection e) >? 0) with true.
    + by apply toggleLinksInSelection_same_line_none.
    + symmetry. apply Z.gtb_lt. unfold JS.length.
      destruct (Editor.getSelection e); [done|simpl; lia].
  - by vm_compute.
  - by vm_compute.
  - by vm_compute.
Qed.

Lemma scans_total_selection_not_noop_witness :
  toggleCurrentOrSelected selectedBesideLink = Some selectedBesideLink /\
  linksOf (JS.lit "ab [[A]] cd") <> [].
Proof.
  split; [|by vm_compute].
  destruct (scans_total_selection_not_noop selectedBesideLink (JS.lit "") 0 0)
    as (_ & _ & _ & Hline & _).
  apply Hline.
  - apply wf_select.
  - reflexivity.
  - by vm_compute.
  - by vm_compute.
Defined.
